(** * Tomoji front end: a shallow embedding and its verified properties

    The development follows the TypeScript sources of the front end:
    - [lib/cookies.ts]            (module [Cookies])
    - [lib/api.ts]                (module [Api])
    - [components/CaptureModal.tsx] (module [CaptureModal])
    - [components/ExportView.tsx] (module [ExportView])
    - [components/Gallery.tsx]    (module [Gallery])
    - [App.tsx]                   (module [App])
    - [lib/webcam.ts]             (module [Webcam])
    - [components/SessionRedirect.tsx] (module [SessionRedirect])

    The font assembler of the back end, whose code is not among these
    sources, is modelled from the specification (module [FontAssembler]).

    Part I holds the embedding, Part II the theorems. *)

From Stdlib Require Import ZArith NArith QArith Bool Ascii String DecimalString Lia.
From stdpp Require Import base decidable list gmap.

Set Warnings "-register-all".
Local Open Scope N_scope.

(* ===================================================================== *)
(** * Part I: the embedding                                               *)
(* ===================================================================== *)

(** ** JavaScript strings

    A JavaScript string is a finite sequence of UTF-16 code units. *)
Module JS.

Abbreviation JSString := (list N).

(** A string literal of the source, as code units. *)
Definition lit (s : string) : JSString :=
  map N_of_ascii (list_ascii_of_string s).
Arguments lit : simpl never.

(** The decimal numeral of a natural number: what a template literal
    interpolates for it. *)
Definition decimal (n : N) : JSString :=
  lit (NilZero.string_of_uint (N.to_uint n)).
Arguments decimal : simpl never.

Definition isDigit (u : N) : bool := (0x30 <=? u) && (u <=? 0x39).

(** The number a string of decimal digits denotes. *)
Definition digitsValue (s : JSString) : Z :=
  fold_left (fun acc u => (10 * acc + Z.of_N (u - 0x30))%Z) s 0%Z.

(** [!str] on a string: only the empty string is falsy. *)
Definition falsy (s : JSString) : bool :=
  match s with [] => true | _ :: _ => false end.

(** [a === b] on strings. *)
Definition str_eqb (a b : JSString) : bool := bool_decide (a = b).

Definition is_high_surrogate (u : N) : bool := (0xD800 <=? u) && (u <=? 0xDBFF).
Definition is_low_surrogate (u : N) : bool := (0xDC00 <=? u) && (u <=? 0xDFFF).

(** The code points of a string, as a [/u] regular expression or the string
    iterator reads them: a high surrogate followed by a low one is a single
    supplementary code point, every other code unit stands for itself. *)
Fixpoint codePoints (s : JSString) : list N :=
  match s with
  | [] => []
  | u :: rest =>
      match rest with
      | v :: rest' =>
          if is_high_surrogate u && is_low_surrogate v
          then (0x10000 + (u - 0xD800) * 0x400 + (v - 0xDC00)) :: codePoints rest'
          else u :: codePoints rest
      | [] => [u]
      end
  end.

(** The conversion of a string to a [USVString], which Web IDL applies to
    the value assigned to an attribute of that type: a surrogate without
    its pair becomes U+FFFD. *)
Fixpoint toUSVString (s : JSString) : JSString :=
  match s with
  | [] => []
  | u :: rest =>
      if is_high_surrogate u then
        match rest with
        | v :: rest' =>
            if is_low_surrogate v then u :: v :: toUSVString rest'
            else 0xFFFD :: toUSVString rest
        | [] => [0xFFFD]
        end
      else if is_low_surrogate u then 0xFFFD :: toUSVString rest
      else u :: toUSVString rest
  end.

(** [a || b] on strings: [a] when truthy, else [b]. *)
Definition str_or (a b : JSString) : JSString := if falsy a then b else a.

(** [String.prototype.trim]: white space and line terminators are stripped
    from both ends. *)
Definition isWhiteSpace (u : N) : bool :=
  existsb (N.eqb u)
    [0x9; 0xA; 0xB; 0xC; 0xD; 0x20; 0xA0; 0x1680; 0x2028; 0x2029; 0x202F;
     0x205F; 0x3000; 0xFEFF]
  || ((0x2000 <=? u) && (u <=? 0x200A)).

Fixpoint trimStart (s : JSString) : JSString :=
  match s with
  | u :: rest => if isWhiteSpace u then trimStart rest else s
  | [] => []
  end.

Definition trim (s : JSString) : JSString :=
  rev (trimStart (rev (trimStart s))).

(** Matching under the [i] flag of a regular expression without the [u]
    flag: an ASCII letter of the pattern matches its two cases only. The
    patterns below are written in lower case. *)
Definition lowerAscii (u : N) : N :=
  if (0x41 <=? u) && (u <=? 0x5A) then u + 0x20 else u.

Fixpoint startsWithCI (pattern s : JSString) : bool :=
  match pattern, s with
  | [], _ => true
  | p :: pattern', c :: s' => (lowerAscii c =? p) && startsWithCI pattern' s'
  | _ :: _, [] => false
  end.

Fixpoint includesCI (pattern s : JSString) : bool :=
  startsWithCI pattern s
  || match s with
     | [] => false
     | _ :: s' => includesCI pattern s'
     end.

(** Exceptions, by the class of the thrown object, each with its [message]. *)
Inductive Exn : Type :=
| Error (message : JSString)
| RateLimitError (message : JSString)
| TypeError (message : JSString)
| SyntaxError (message : JSString).

Definition message (e : Exn) : JSString :=
  match e with
  | Error m | RateLimitError m | TypeError m | SyntaxError m => m
  end.

(** [e instanceof RateLimitError]. *)
Definition instanceofRateLimitError (e : Exn) : bool :=
  match e with RateLimitError _ => true | _ => false end.

(** How a call (or an awaited promise) completes: with a value, or by
    throwing (rejecting). *)
Inductive Completion (T : Type) : Type :=
| Return (v : T)
| Throw (e : Exn).
Arguments Return {T} v.
Arguments Throw {T} e.

(** *** [encodeURIComponent]

    The code units the function leaves as they are: the ASCII letters and
    digits and the marks [- _ . ! ~ * ' ( )]. *)
Definition isUriUnescaped (u : N) : bool :=
  ((0x41 <=? u) && (u <=? 0x5A)) || ((0x61 <=? u) && (u <=? 0x7A))
  || isDigit u
  || existsb (N.eqb u) [0x2D; 0x5F; 0x2E; 0x21; 0x7E; 0x2A; 0x27; 0x28; 0x29].

Definition PERCENT : N := 0x25.

(** An upper-case hexadecimal digit. *)
Definition hexDigit (n : N) : N :=
  if n <? 10 then 0x30 + n else 0x41 + (n - 10).

(** An octet as a percent sign and two hexadecimal digits. *)
Definition percentEncode (octet : N) : JSString :=
  [PERCENT; hexDigit (octet / 16); hexDigit (octet mod 16)].

(** The UTF-8 octets of a code point. *)
Definition utf8 (cp : N) : list N :=
  if cp <? 0x80 then [cp]
  else if cp <? 0x800 then [0xC0 + cp / 64; 0x80 + cp mod 64]
  else if cp <? 0x10000 then
    [0xE0 + cp / 4096; 0x80 + (cp / 64) mod 64; 0x80 + cp mod 64]
  else
    [0xF0 + cp / 262144; 0x80 + (cp / 4096) mod 64;
     0x80 + (cp / 64) mod 64; 0x80 + cp mod 64].

(** [encodeURIComponent(s)]: an unescaped code unit stands for itself, any
    other code point is replaced by its percent-encoded UTF-8 octets.
    [None] stands for the [URIError] thrown on a surrogate without its
    pair. *)
Fixpoint encodeURIComponent (s : JSString) : option JSString :=
  match s with
  | [] => Some []
  | u :: rest =>
      if isUriUnescaped u then option_map (cons u) (encodeURIComponent rest)
      else if is_low_surrogate u then None
      else if is_high_surrogate u then
        match rest with
        | v :: rest' =>
            if is_low_surrogate v then
              option_map
                (app (flat_map percentEncode
                        (utf8 (0x10000 + (u - 0xD800) * 0x400 + (v - 0xDC00)))))
                (encodeURIComponent rest')
            else None
        | [] => None
        end
      else
        option_map (app (flat_map percentEncode (utf8 u)))
          (encodeURIComponent rest)
  end.

(** The characters that delimit the parts of a URL and of its query:
    [/ ? # & =]. *)
Definition uriDelimiter (u : N) : bool :=
  existsb (N.eqb u) [0x2F; 0x3F; 0x23; 0x26; 0x3D].


(** [s.startsWith(prefix)] and [s.endsWith(suffix)]. *)
Fixpoint startsWith (s prefix : JSString) {struct prefix} : bool :=
  match prefix, s with
  | [], _ => true
  | p :: prefix', c :: s' => (c =? p) && startsWith s' prefix'
  | _ :: _, [] => false
  end.

Definition endsWith (s suffix : JSString) : bool :=
  startsWith (rev s) (rev suffix).


(** The code units of a string are 16-bit numbers. *)
Definition validUnits (s : JSString) : Prop :=
  forall u, In u s -> u < 0x10000.

(** The code units that stand for the code point [cp] in a string that
    [encodeURIComponent] accepts: the code point itself when it is no
    surrogate, or a surrogate pair. *)
Definition unitsOf (consumed : JSString) (cp : N) : Prop :=
  (consumed = [cp]
   /\ is_high_surrogate cp = false /\ is_low_surrogate cp = false)
  \/ (exists u v,
        consumed = [u; v]
        /\ is_high_surrogate u = true /\ is_low_surrogate v = true
        /\ cp = 0x10000 + (u - 0xD800) * 0x400 + (v - 0xDC00)).

End JS.
Import JS.

(** ** lib/cookies.ts *)
Module Cookies.

Definition SESSION_COOKIE_NAME : JSString := lit "tomoji_session".
Definition COOKIE_MAX_AGE : N := 7 * 24 * 60 * 60.

Definition SEMICOLON : N := 0x3B.
Definition EQUALS : N := 0x3D.
Definition SPACE : N := 0x20.
Definition HTAB : N := 0x09.
Definition MINUS : N := 0x2D.

(** *** The browser's cookie store

    [document.cookie] is modelled after the cookie specification that
    browsers implement, RFC 6265 as revised by
    draft-ietf-httpbis-rfc6265bis (parsing, storage and retrieval), for one
    document in which cookies are enabled: the store is the list of the
    cookies the document sees and may replace, in the order the getter
    lists them. A cookie is identified by its name (the store holds
    cookies of a single domain and path, none of them [HttpOnly]). *)
Record Cookie : Type := {
  cookieName : JSString;
  cookieValue : JSString
}.

Abbreviation Jar := (list Cookie).

(** The control characters that make the user agent ignore an assignment:
    %x00-08, %x0A-1F and %x7F, that is all of them but the horizontal
    tab. *)
Definition isControl (u : N) : bool :=
  (u <=? 0x08) || ((0x0A <=? u) && (u <=? 0x1F)) || (u =? 0x7F).

(** The length of a string in octets, as the user agent measures it: that
    of its UTF-8 encoding. *)
Definition octetLength (s : JSString) : N :=
  N.of_nat (length (flat_map utf8 (codePoints s))).

(** The text before the first [sep], and the text after it if [sep] occurs. *)
Fixpoint splitFirst (sep : N) (s : JSString) : JSString * option JSString :=
  match s with
  | [] => ([], None)
  | c :: rest =>
      if c =? sep then ([], Some rest)
      else let '(before, after) := splitFirst sep rest in (c :: before, after)
  end.

(** The pieces of [s] between the occurrences of [sep]. *)
Fixpoint splitOn (sep : N) (s : JSString) : list JSString :=
  match s with
  | [] => [[]]
  | c :: rest =>
      if c =? sep then [] :: splitOn sep rest
      else
        match splitOn sep rest with
        | piece :: pieces => (c :: piece) :: pieces
        | [] => [[c]]
        end
  end.

(** Removal of leading and trailing WSP (space and horizontal tab). *)
Definition isWSP (u : N) : bool := (u =? SPACE) || (u =? HTAB).

Fixpoint dropWSP (s : JSString) : JSString :=
  match s with
  | u :: rest => if isWSP u then dropWSP rest else s
  | [] => []
  end.

Definition trimWSP (s : JSString) : JSString :=
  rev (dropWSP (rev (dropWSP s))).

(** The delta-seconds of a Max-Age attribute value (section 5.2.2), if the
    value is one. *)
Definition parseMaxAge (value : JSString) : option Z :=
  match value with
  | [] => None
  | u :: rest =>
      if u =? MINUS then
        if forallb isDigit rest && negb (falsy rest)
        then Some (- digitsValue rest)%Z else None
      else if forallb isDigit value then Some (digitsValue value) else None
  end.

(** The delta-seconds of the last Max-Age attribute among [attributes].
    An attribute whose value is longer than 1024 octets is ignored. *)
Fixpoint maxAgeOf (attributes : list JSString) : option Z :=
  match attributes with
  | [] => None
  | av :: rest =>
      match maxAgeOf rest with
      | Some delta => Some delta
      | None =>
          let '(attrName, attrValue) := splitFirst EQUALS av in
          let attrValue := trimWSP (default [] attrValue) in
          if 1024 <? octetLength attrValue then None
          else if str_eqb (map lowerAscii (trimWSP attrName)) (lit "max-age")
          then parseMaxAge attrValue
          else None
      end
  end.

(** Storing a cookie replaces the one of the same name where it stands, or
    adds the cookie at the end. *)
Fixpoint store (c : Cookie) (jar : Jar) : Jar :=
  match jar with
  | [] => [c]
  | c' :: rest =>
      if str_eqb (cookieName c') (cookieName c) then c :: rest
      else c' :: store c rest
  end.

Definition evict (name : JSString) (jar : Jar) : Jar :=
  filter (fun c => cookieName c <> name) jar.

(** The name and the value of a name-value pair: the pair is split at its
    first equals sign, and a pair without one is a value with an empty
    name; both are trimmed. *)
Definition nameAndValue (nameValue : JSString) : JSString * JSString :=
  match splitFirst EQUALS nameValue with
  | (rawValue, None) => ([], trimWSP rawValue)
  | (rawName, Some rawValue) => (trimWSP rawName, trimWSP rawValue)
  end.

(** [document.cookie = str]. The assigned value is a [USVString]. The
    assignment is ignored if it holds a control character other than the
    horizontal tab, if the name and the value are both empty, or if they
    take more than 4096 octets together. The text up to the first
    semicolon is the name-value pair, the pieces after it are the
    attributes. A cookie whose Max-Age is not positive is expired, and
    evicted. Of the attributes only Max-Age is interpreted: each string
    the module assigns carries one after the session id, and the last
    Max-Age of a string prevails. *)
Definition assignCookie (str : JSString) (jar : Jar) : Jar :=
  let str := toUSVString str in
  if existsb isControl str then jar
  else
    match splitOn SEMICOLON str with
    | [] => jar
    | nameValue :: attributes =>
        let '(name, value) := nameAndValue nameValue in
        if falsy name && falsy value then jar
        else if 4096 <? octetLength name + octetLength value then jar
        else
          match maxAgeOf attributes with
          | Some delta =>
              if (delta <=? 0)%Z then evict name jar
              else store {| cookieName := name; cookieValue := value |} jar
          | None => store {| cookieName := name; cookieValue := value |} jar
          end
    end.

(** Reading [document.cookie]: for each cookie its name and an equals
    sign, if the name is not empty, and its value; the cookies are joined
    by a semicolon and a space. *)
Definition pairOf (c : Cookie) : JSString :=
  if falsy (cookieName c) then cookieValue c
  else cookieName c ++ EQUALS :: cookieValue c.

Fixpoint readCookies (jar : Jar) : JSString :=
  match jar with
  | [] => []
  | c :: rest =>
      pairOf c
      ++ match rest with
         | [] => []
         | _ :: _ => SEMICOLON :: SPACE :: readCookies rest
         end
  end.

(** *** The regular expression [(^| )tomoji_session=([^;]+)] *)

Fixpoint stripPrefix (prefix s : JSString) : option JSString :=
  match prefix, s with
  | [], _ => Some s
  | p :: prefix', c :: s' => if c =? p then stripPrefix prefix' s' else None
  | _ :: _, [] => None
  end.

Fixpoint takeUntil (stop : N) (s : JSString) : JSString :=
  match s with
  | c :: s' => if c =? stop then [] else c :: takeUntil stop s'
  | [] => []
  end.

(** [tomoji_session=([^;]+)] at the head of [s]: the group is the longest
    run of characters other than the semicolon, and it is not empty. *)
Definition matchNameValue (s : JSString) : option JSString :=
  match stripPrefix (SESSION_COOKIE_NAME ++ [EQUALS]) s with
  | Some rest =>
      let value := takeUntil SEMICOLON rest in
      if falsy value then None else Some value
  | None => None
  end.

(** The whole expression at the head of [s]; [atStart] says that [s] is the
    whole input, where [^] matches. The alternative [^] is tried first. *)
Definition matchHere (atStart : bool) (s : JSString) : option JSString :=
  match (if atStart then matchNameValue s else None) with
  | Some value => Some value
  | None =>
      match s with
      | c :: s' => if c =? SPACE then matchNameValue s' else None
      | [] => None
      end
  end.

(** [String.prototype.match]: the leftmost match. *)
Fixpoint matchFrom (atStart : bool) (s : JSString) : option JSString :=
  match matchHere atStart s with
  | Some value => Some value
  | None =>
      match s with
      | _ :: s' => matchFrom false s'
      | [] => None
      end
  end.

(** *** The module's functions *)

Definition getSessionCookie (jar : Jar) : option JSString :=
  matchFrom true (readCookies jar).

Definition setSessionCookie (sessionId : JSString) (jar : Jar) : Jar :=
  assignCookie
    (SESSION_COOKIE_NAME ++ lit "=" ++ sessionId ++ lit "; path=/; max-age="
     ++ decimal COOKIE_MAX_AGE ++ lit "; SameSite=Lax")
    jar.

Definition clearSessionCookie (jar : Jar) : Jar :=
  assignCookie (SESSION_COOKIE_NAME ++ lit "=; path=/; max-age=0") jar.

(** A cookie as a server that follows the grammar of RFC 6265, section 4.1,
    sends it: the name is a token, so it is not empty and has no equals
    sign and no space, and the value has no space. *)
Definition wellFormed (c : Cookie) : Prop :=
  cookieName c <> []
  /\ ~ In EQUALS (cookieName c)
  /\ ~ In SPACE (cookieName c)
  /\ ~ In SPACE (cookieValue c).

(** A session id that the round trip preserves: not empty, without a
    semicolon, with no white space at either end, without a control
    character, with every surrogate in a pair, and short enough for the
    cookie to take no more than 4096 octets. *)
Definition plainId (sessionId : JSString) : Prop :=
  sessionId <> []
  /\ ~ In SEMICOLON sessionId
  /\ (forall u, head sessionId = Some u -> isWhiteSpace u = false)
  /\ (forall u, last sessionId = Some u -> isWhiteSpace u = false)
  /\ (forall u, In u sessionId -> isControl u = false)
  /\ toUSVString sessionId = sessionId
  /\ octetLength SESSION_COOKIE_NAME + octetLength sessionId <= 4096.

(** A store that holds one other cookie, and a session id. *)
Definition exampleJar : Jar :=
  [{| cookieName := lit "theme"; cookieValue := lit "dark" |}].

Definition exampleId : JSString := lit "a1b2c3d4".

(** An id with the control character U+0001 between two letters, and a
    store whose one cookie has a value with a space in it. *)
Definition controlId : JSString := [0x61; 0x01; 0x62].

Definition spoofedJar : Jar :=
  [{| cookieName := lit "pref"; cookieValue := lit "x tomoji_session=evil" |}].

(** A store in which every cookie but the session cookie is well formed:
    nothing is asked of the session cookie itself, whatever was written to
    it before. *)
Definition othersWellFormed (jar : Jar) : Prop :=
  forall c, In c jar -> cookieName c <> SESSION_COOKIE_NAME -> wellFormed c.

(** A cookie of another site feature, and a store that holds it beside a
    session cookie. *)
Definition themeCookie : Cookie :=
  {| cookieName := lit "theme"; cookieValue := lit "dark" |}.

Definition sessionJar : Jar :=
  [themeCookie;
   {| cookieName := SESSION_COOKIE_NAME; cookieValue := lit "old id" |}].

End Cookies.

(** ** lib/api.ts *)
Module Api.

(** Values that [JSON.parse] yields. An object keeps its members in source
    order; on a repeated key the last member is the property's value. *)
Inductive json : Type :=
| JNull
| JBool (b : bool)
| JNum (q : Q)
| JStr (s : JSString)
| JArr (items : list json)
| JObj (members : list (JSString * json)).

(** The body of a response, read as JSON: the parsed value, or the message
    of the [SyntaxError] the parser raises. *)
Inductive Body : Type :=
| Parsed (j : json)
| Unparsable (parseMessage : JSString).

(** A [Response] of the Fetch API, as far as the client reads it. *)
Record Response : Type := {
  status : Z;
  body : Body
}.

(** [res.json()]: resolves to the parsed body, or rejects. *)
Definition json_body (res : Response) : Completion json :=
  match body res with
  | Parsed j => Return j
  | Unparsable m => Throw (SyntaxError m)
  end.

(** [res.ok]: the status is in the range 200-299. *)
Definition ok (res : Response) : bool :=
  ((200 <=? status res) && (status res <=? 299))%Z.

(** Truthiness of a JSON value. *)
Definition truthy (v : json) : bool :=
  match v with
  | JNull => false
  | JBool b => b
  | JNum q => negb (Qeq_bool q 0)
  | JStr s => negb (falsy s)
  | JArr _ | JObj _ => true
  end.

(** The value of the last member named [key], if any. *)
Fixpoint member (key : JSString) (members : list (JSString * json)) : option json :=
  match members with
  | [] => None
  | (k, v) :: rest =>
      match member key rest with
      | Some v' => Some v'
      | None => if str_eqb k key then Some v else None
      end
  end.

(** Reading the property [key] of a value: [None] stands for [undefined];
    reading a property of [null] throws. Strings, numbers, booleans and
    arrays have no property of the names read here. *)
Inductive PropertyRead : Type :=
| Got (v : option json)
| OfNull.

Definition getProperty (v : json) (key : JSString) : PropertyRead :=
  match v with
  | JNull => OfNull
  | JObj members => Got (member key members)
  | _ => Got None
  end.

Record Emoji : Type := {
  emoji : JSString;
  codepoint : JSString;
  name : JSString
}.

Record EmojiCategory : Type := {
  category_id : JSString;
  category_name : JSString;
  emojis : list Emoji
}.

Record CapturedEmoji : Type := {
  captured_emoji : JSString;
  captured_codepoint : JSString;
  image_data : JSString;
  custom : option bool
}.

Record Settings : Type := {
  padding : Q;
  keep_background : bool;
  keep_clothes : bool;
  keep_accessories : bool
}.

Record CaptureParams : Type := {
  param_image : JSString;
  param_padding : option Q;
  param_keep_background : option bool;
  param_keep_clothes : option bool;
  param_keep_accessories : option bool
}.

Record PreviewResult : Type := {
  preview_success : bool;
  preview_emoji : JSString;
  preview_codepoint : JSString;
  preview_image : JSString
}.

Record ExportResult : Type := {
  success : bool;
  captured_count : N;
  total_emojis : N;
  font_url : JSString;
  last_generation : JSString
}.

Record GalleryResponse : Type := {
  captured : list CapturedEmoji;
  total : N;
  custom_emojis : list Emoji;
  last_capture_edit : option JSString;
  gallery_last_generation : option JSString
}.

(** A request the client issues: one constructor per exported function of
    the module that calls [fetch]. *)
Inductive Call : Type :=
| PreviewCapture (sessionId emoji : JSString) (params : CaptureParams)
| SaveCapture (sessionId emoji image : JSString)
| DeleteCapture (sessionId emoji : JSString)
| ClearSession (sessionId : JSString)
| ExportFont (sessionId fontName : JSString)
| GetGallery (sessionId : JSString)
| GetSettings (sessionId : JSString)
| SaveSettings (sessionId : JSString) (settings : Settings).

Definition API_BASE : JSString := lit "/api".

Definition getFontUrl (sessionId : JSString) : JSString :=
  API_BASE ++ lit "/" ++ sessionId ++ lit "/font.woff2".

Definition defaultRateLimitMessage : JSString :=
  lit "Too many requests. Please wait a moment and try again.".

(** V8's message for a conversion to a string that finds no primitive. *)
Definition primitiveConversionMessage : JSString :=
  lit "Cannot convert object to primitive value".

Section HandleResponse.

(** [Number.prototype.toString], and the message of the engine's TypeError
    for a property read of [null]: both the platform's. *)
Variable numberToString : Q -> JSString.
Variable nullReadMessage : JSString.

(** [String(v)], which [new Error(v)] and a template literal apply to a
    value. [None] stands for the TypeError of a conversion that finds no
    primitive: in a parsed object an own member named [toString] hides
    [Object.prototype.toString]; a JSON value is no function, so the
    conversion turns to [valueOf], and neither a member of that name nor
    [Object.prototype.valueOf], which returns the object, gives a
    primitive. An array is joined, with the conversion of its elements. *)
Fixpoint toString (v : json) : option JSString :=
  match v with
  | JNull => Some (lit "null")
  | JBool true => Some (lit "true")
  | JBool false => Some (lit "false")
  | JNum q => Some (numberToString q)
  | JStr s => Some s
  | JArr items =>
      (fix join (l : list json) : option JSString :=
         match l with
         | [] => Some []
         | x :: rest =>
             match (match x with JNull => Some [] | _ => toString x end) with
             | None => None
             | Some first =>
                 match rest with
                 | [] => Some first
                 | _ :: _ =>
                     option_map (fun others => first ++ lit "," ++ others)
                       (join rest)
                 end
             end
         end) items
  | JObj members =>
      match member (lit "toString") members with
      | Some _ => None
      | None => Some (lit "[object Object]")
      end
  end.

(** [error.detail || errorMessage], as the string [new Error] makes of it. *)
Definition detailOr (detail : option json) (errorMessage : JSString)
  : option JSString :=
  match detail with
  | Some d => if truthy d then toString d else Some errorMessage
  | None => Some errorMessage
  end.

(** [throw new Error(error.detail || errorMessage)] *)
Definition throwNewError (detail : option json) (errorMessage : JSString)
  : Completion json :=
  match detailOr detail errorMessage with
  | Some message => Throw (Error message)
  | None => Throw (TypeError primitiveConversionMessage)
  end.

Definition handleResponse (res : Response) (errorMessage : JSString)
  : Completion json :=
  if (status res =? 429)%Z then Throw (RateLimitError defaultRateLimitMessage)
  else if negb (ok res) then
    (* const error = await res.json().catch(() => ({})) *)
    let error := match json_body res with
                 | Return j => j
                 | Throw _ => JObj []
                 end in
    match getProperty error (lit "detail") with
    | OfNull => Throw (TypeError nullReadMessage)
    | Got detail => throwNewError detail errorMessage
    end
  else json_body res.

Definition createSession (res : Response) : Completion json :=
  handleResponse res (lit "Failed to create session").

Definition validateSession (res : Response) : Completion json :=
  handleResponse res (lit "Failed to validate session").

End HandleResponse.

(** An instance of the platform's [Number.prototype.toString], exact on the
    non-negative integers. *)
Definition refNumberToString (q : Q) : JSString :=
  match Qnum q, Qden q with
  | Z0, _ => lit "0"
  | Zpos n, 1%positive => decimal (Npos n)
  | _, _ => lit "NaN"
  end.

(** V8's message for a property read of [null]. *)
Definition refNullReadMessage : JSString :=
  lit "Cannot read properties of null (reading 'detail')".

(** A 204 response: no content, so [res.json()] rejects. *)
Definition noContent : Response :=
  {| status := 204;
     body := Unparsable (lit "Unexpected end of JSON input") |}.

(** A 500 response whose body is the JSON text [null]. *)
Definition nullBody500 : Response :=
  {| status := 500; body := Parsed JNull |}.

(** A 404 response in the back end's shape: [{"detail": "Session not found"}]. *)
Definition notFound404 : Response :=
  {| status := 404;
     body := Parsed (JObj [(lit "detail", JStr (lit "Session not found"))]) |}.

(** A 400 response whose [detail] is an object with a member named
    [toString]: [{"detail": {"toString": 1}}]. *)
Definition ownToString400 : Response :=
  {| status := 400;
     body := Parsed (JObj [(lit "detail", JObj [(lit "toString", JNum 1%Q)])]) |}.

(** *** The requests

    What each exported function hands to [fetch]: the URL as the function
    writes it, before [fetch] parses it ([request_url]; the path that is
    then requested is [requestedPath] below), the method (GET when none is
    given) and, for a request with a JSON body, the value handed to
    [JSON.stringify]; such a request carries the header
    [Content-Type: application/json]. *)
Inductive Method : Type := GET | POST | PUT | DELETE.

Inductive Payload : Type :=
| ParamsPayload (params : CaptureParams)
| ImagePayload (image : JSString)
| FontNamePayload (font_name : JSString)
| SettingsPayload (settings : Settings).

Record FetchRequest : Type := {
  request_url : JSString;
  request_method : Method;
  request_body : option Payload
}.

Definition jsonContentType (r : FetchRequest) : bool :=
  match request_body r with Some _ => true | None => false end.

Definition createSessionRequest : FetchRequest :=
  {| request_url := API_BASE ++ lit "/session";
     request_method := POST; request_body := None |}.

Definition validateSessionRequest (sessionId : JSString) : FetchRequest :=
  {| request_url := API_BASE ++ lit "/session/" ++ sessionId ++ lit "/validate";
     request_method := GET; request_body := None |}.

Definition listEmojisRequest : FetchRequest :=
  {| request_url := API_BASE ++ lit "/emojis";
     request_method := GET; request_body := None |}.

(** [`${API_BASE}/${sessionId}/capture/${encodeURIComponent(emoji)}`] *)
Definition captureUrl (sessionId emoji : JSString) : option JSString :=
  option_map (fun encoded => API_BASE ++ lit "/" ++ sessionId ++ lit "/capture/" ++ encoded)
    (encodeURIComponent emoji).

(** The request of each session-scoped call, with the URL as it is handed
    to [fetch]; [None] when building the URL throws, so that [fetch] is
    not called. *)
Definition requestOf (c : Call) : option FetchRequest :=
  match c with
  | GetGallery sessionId =>
      Some {| request_url := API_BASE ++ lit "/" ++ sessionId ++ lit "/gallery";
              request_method := GET; request_body := None |}
  | PreviewCapture sessionId emoji params =>
      option_map
        (fun url => {| request_url := url ++ lit "/preview";
                       request_method := POST;
                       request_body := Some (ParamsPayload params) |})
        (captureUrl sessionId emoji)
  | SaveCapture sessionId emoji image =>
      option_map
        (fun url => {| request_url := url;
                       request_method := POST;
                       request_body := Some (ImagePayload image) |})
        (captureUrl sessionId emoji)
  | DeleteCapture sessionId emoji =>
      option_map
        (fun url => {| request_url := url;
                       request_method := DELETE; request_body := None |})
        (captureUrl sessionId emoji)
  | ClearSession sessionId =>
      Some {| request_url := API_BASE ++ lit "/" ++ sessionId ++ lit "/captures";
              request_method := DELETE; request_body := None |}
  | ExportFont sessionId fontName =>
      Some {| request_url := API_BASE ++ lit "/" ++ sessionId ++ lit "/export";
              request_method := POST;
              request_body := Some (FontNamePayload fontName) |}
  | GetSettings sessionId =>
      Some {| request_url := API_BASE ++ lit "/" ++ sessionId ++ lit "/settings";
              request_method := GET; request_body := None |}
  | SaveSettings sessionId settings =>
      Some {| request_url := API_BASE ++ lit "/" ++ sessionId ++ lit "/settings";
              request_method := PUT;
              request_body := Some (SettingsPayload settings) |}
  end.

(** *** The path that a request addresses

    [request_url] is the string handed to [fetch], which parses it as a
    URL against the address of the document. Each string above starts
    with a single slash, so it gives the path of the URL, and the parser
    removes the dot segments of a path (URL Standard, path state).
    [requestedPath] is the path that results. It is defined for the
    strings of unreserved characters, percent signs and slashes that start
    with a single slash: the parser changes nothing else in them. *)
Definition SLASH : N := 0x2F.

(** A single-dot segment is [.] or [%2e], a double-dot segment is [..],
    [.%2e], [%2e.] or [%2e%2e], in either case of the letter. *)
Definition isSingleDot (segment : JSString) : bool :=
  existsb (str_eqb (map lowerAscii segment)) [lit "."; lit "%2e"].

Definition isDoubleDot (segment : JSString) : bool :=
  existsb (str_eqb (map lowerAscii segment))
    [lit ".."; lit ".%2e"; lit "%2e."; lit "%2e%2e"].

(** The path state over the segments of the input, with the path built so
    far in reverse: a double-dot segment removes the last segment of the
    path, if any, a single-dot segment adds nothing, and either of them in
    the last place leaves an empty segment. *)
Fixpoint pathState (segments path : list JSString) : list JSString :=
  match segments with
  | [] => rev path
  | segment :: rest =>
      match rest with
      | [] =>
          rev (if isDoubleDot segment then [] :: tail path
               else if isSingleDot segment then [] :: path
               else segment :: path)
      | _ :: _ =>
          pathState rest
            (if isDoubleDot segment then tail path
             else if isSingleDot segment then path
             else segment :: path)
      end
  end.

Definition isPathUnit (u : N) : bool :=
  isUriUnescaped u || (u =? PERCENT) || (u =? SLASH).

Definition requestedPath (url : JSString) : option JSString :=
  match url with
  | first :: second :: _ =>
      if (first =? SLASH) && negb (second =? SLASH) && forallb isPathUnit url
      then Some (flat_map (cons SLASH)
                   (pathState (tail (Cookies.splitOn SLASH url)) []))
      else None
  | _ => None
  end.

(** A segment that the parser leaves as it is. *)
Definition plainSegment (segment : JSString) : Prop :=
  (forall u, In u segment -> isUriUnescaped u = true \/ u = PERCENT)
  /\ isSingleDot segment = false /\ isDoubleDot segment = false.

(** A session id of unreserved characters that is no dot segment, as the
    back end makes them. *)
Definition tokenId (sessionId : JSString) : Prop :=
  forallb isUriUnescaped sessionId = true
  /\ sessionId <> lit "." /\ sessionId <> lit "..".

(** [getImagesZipUrl(sessionId, name)]: [name] is optional, and an empty
    name is left out as an absent one is. *)
Definition getImagesZipUrl (sessionId : JSString) (name : option JSString)
  : option JSString :=
  let base := API_BASE ++ lit "/" ++ sessionId ++ lit "/images.zip" in
  match name with
  | Some n =>
      if falsy n then Some base
      else option_map (fun encoded => base ++ lit "?name=" ++ encoded)
             (encodeURIComponent n)
  | None => Some base
  end.

(** *** The responses of the endpoints that do not use [handleResponse] *)
Section Endpoints.

Variable numberToString : Q -> JSString.
Variable nullReadMessage : JSString.

(** [previewCapture], [saveCapture] and [exportFont]:
    [if (!res.ok) { const error = await res.json();
                    throw new Error(error.detail || fallback); }
     return res.json();] *)
Definition detailOrThrow (res : Response) (fallback : JSString)
  : Completion json :=
  if negb (ok res) then
    match json_body res with
    | Throw e => Throw e
    | Return error =>
        match getProperty error (lit "detail") with
        | OfNull => Throw (TypeError nullReadMessage)
        | Got detail => throwNewError numberToString detail fallback
        end
    end
  else json_body res.

(** [listEmojis], [getGallery], [deleteCapture], [clearSession],
    [getSettings] and [saveSettings]:
    [if (!res.ok) throw new Error(message); return res.json();] *)
Definition okOrThrow (res : Response) (errorMessage : JSString)
  : Completion json :=
  if negb (ok res) then Throw (Error errorMessage) else json_body res.

Definition listEmojis (res : Response) : Completion json :=
  okOrThrow res (lit "Failed to fetch emojis").

(** What each session-scoped call resolves to, or rejects with, on the
    response [res] of its request. *)
Definition responseOf (c : Call) (res : Response) : Completion json :=
  match c with
  | GetGallery _ => okOrThrow res (lit "Failed to fetch gallery")
  | PreviewCapture _ _ _ => detailOrThrow res (lit "Preview failed")
  | SaveCapture _ _ _ => detailOrThrow res (lit "Save failed")
  | DeleteCapture _ _ => okOrThrow res (lit "Failed to delete capture")
  | ClearSession _ => okOrThrow res (lit "Failed to clear session")
  | ExportFont _ _ => detailOrThrow res (lit "Export failed")
  | GetSettings _ => okOrThrow res (lit "Failed to fetch settings")
  | SaveSettings _ _ => okOrThrow res (lit "Failed to save settings")
  end.

End Endpoints.

(** A 429 response in the shape of the back end's rate limiter. *)
Definition tooMany429 : Response :=
  {| status := 429;
     body := Parsed (JObj [(lit "detail", JStr (lit "Rate limit exceeded"))]) |}.

(** A 502 response of a proxy: an HTML page, which is no JSON. *)
Definition badGateway502 : Response :=
  {| status := 502; body := Unparsable (lit "Unexpected token '<'") |}.

End Api.

(** ** components/ExportView.tsx *)
Module ExportView.
Import Api.

(** The font state that [App] owns and hands to the view with its setters
    ([fontUrl], [fontLoaded], [fontFamilyId], [localLastGeneration]). *)
Record FontState : Type := {
  fontUrl : option JSString;
  fontLoaded : bool;
  fontFamilyId : option JSString;
  localLastGeneration : option JSString
}.

Definition setFontUrl (v : option JSString) (f : FontState) : FontState :=
  {| fontUrl := v; fontLoaded := fontLoaded f;
     fontFamilyId := fontFamilyId f; localLastGeneration := localLastGeneration f |}.
Definition setFontLoaded (v : bool) (f : FontState) : FontState :=
  {| fontUrl := fontUrl f; fontLoaded := v;
     fontFamilyId := fontFamilyId f; localLastGeneration := localLastGeneration f |}.
Definition setFontFamilyId (v : option JSString) (f : FontState) : FontState :=
  {| fontUrl := fontUrl f; fontLoaded := fontLoaded f;
     fontFamilyId := v; localLastGeneration := localLastGeneration f |}.
Definition setLastGeneration (v : option JSString) (f : FontState) : FontState :=
  {| fontUrl := fontUrl f; fontLoaded := fontLoaded f;
     fontFamilyId := fontFamilyId f; localLastGeneration := v |}.

(** The view's own signals that the handlers below write. *)
Record Signals : Type := {
  fontName : JSString;
  isExporting : bool;
  error : option JSString
}.

Definition setIsExporting (v : bool) (g : Signals) : Signals :=
  {| fontName := fontName g; isExporting := v; error := error g |}.
Definition setError (v : option JSString) (g : Signals) : Signals :=
  {| fontName := fontName g; isExporting := isExporting g; error := v |}.

(** The value of [new Date(s).getTime()]: a time in milliseconds, or [NaN]
    when [s] is not a date. *)
Inductive TimeValue : Type :=
| Millis (t : Z)
| NaN.

(** [a > b] on time values: false as soon as one side is [NaN]. *)
Definition gt (a b : TimeValue) : bool :=
  match a, b with
  | Millis x, Millis y => (y <? x)%Z
  | _, _ => false
  end.

(** [!v] for [v : string | null]. *)
Definition absent (v : option JSString) : bool :=
  match v with
  | None => true
  | Some s => falsy s
  end.

Record ButtonState : Type := {
  text : JSString;
  disabled : bool
}.

Section ButtonState.

(** [new Date(s).getTime()], the platform's date parser. *)
Variable getTime : JSString -> TimeValue.

(** [new Date(v).getTime()] for [v : string | null]; [new Date(null)] is
    the epoch. *)
Definition timeOf (v : option JSString) : TimeValue :=
  match v with
  | Some s => getTime s
  | None => Millis 0
  end.

Definition buttonState (lastGeneration lastCaptureEdit : option JSString)
  : ButtonState :=
  let lastGen := lastGeneration in
  let lastEdit := lastCaptureEdit in
  if absent lastGen then {| text := lit "Generate Font"; disabled := false |}
  else if absent lastEdit then {| text := lit "Regenerate Font"; disabled := true |}
  else
    let genTime := timeOf lastGen in
    let editTime := timeOf lastEdit in
    if gt editTime genTime
    then {| text := lit "Regenerate Font"; disabled := false |}
    else {| text := lit "Regenerate Font"; disabled := true |}.

(** [edit] is a time strictly after [gen]. *)
Definition laterThan (edit gen : JSString) : Prop :=
  exists te tg, getTime edit = Millis te /\ getTime gen = Millis tg /\ (tg < te)%Z.


Definition upToDateShown (g : Signals)
    (lastGeneration lastCaptureEdit : option JSString) : bool :=
  disabled (buttonState lastGeneration lastCaptureEdit) && negb (isExporting g).

End ButtonState.

(** An instance of the date parser, for timestamps written as milliseconds
    since the epoch in decimal digits; anything else is not a date. *)
Definition refGetTime (s : JSString) : TimeValue :=
  if forallb isDigit s && negb (falsy s) then Millis (digitsValue s) else NaN.

(** What the view does besides writing signals. *)
Inductive Effect : Type :=
| Request (c : Call)
| FontFaceLoad (family url : JSString).

(** [loadFont(url)]: [now1] and [now2] are the two readings of [Date.now()]
    and [loaded] is the outcome of [font.load()]. *)
Definition loadFont (url : JSString) (now1 now2 : N) (loaded : Completion unit)
    (f : FontState) : FontState * list Effect * Completion unit :=
  let newFontFamilyId := lit "tomoji-preview-" ++ decimal now1 in
  let f := setFontFamilyId (Some newFontFamilyId) f in
  let cacheBustedUrl := url ++ lit "?t=" ++ decimal now2 in
  let effects := [FontFaceLoad newFontFamilyId cacheBustedUrl] in
  match loaded with
  | Return _ => (setFontLoaded true f, effects, Return tt)
  | Throw e => (f, effects, Throw e)
  end.

(** What [handleExport] awaits: the outcome of [exportFont], the clock, and
    the outcome of loading the font. *)
Record ExportEnv : Type := {
  exported : Completion ExportResult;
  now1 : N;
  now2 : N;
  loaded : Completion unit
}.

(** [onMount]: a font that exists already is loaded, unless one is loaded. *)
Definition onMount (sessionId : JSString) (env : ExportEnv) (f : FontState)
  : FontState * list Effect :=
  if fontLoaded f then (f, [])
  else
    let url := getFontUrl sessionId in
    match loadFont url (now1 env) (now2 env) (loaded env) f with
    | (f, effects, Return _) => (setFontUrl (Some url) f, effects)
    | (f, effects, Throw _) => (f, effects)
    end.

Definition handleExport (sessionId : JSString) (capturedCount : N)
    (env : ExportEnv) (g : Signals) (f : FontState)
  : Signals * FontState * list Effect :=
  if capturedCount =? 0 then
    (setError (Some (lit
       "No emojis captured yet. Go to Gallery and capture some emojis first!")) g,
     f, [])
  else if falsy sessionId then
    (setError (Some (lit "Session not found. Please refresh the page.")) g, f, [])
  else
    let g := setError None (setIsExporting true g) in
    let f := setFontLoaded false f in
    let call := Request (ExportFont sessionId (fontName g)) in
    match exported env with
    | Return result =>
        let f := setLastGeneration (Some (last_generation result)) f in
        let url := getFontUrl sessionId in
        let f := setFontUrl (Some url) f in
        match loadFont url (now1 env) (now2 env) (loaded env) f with
        | (f, effects, Return _) =>
            (setIsExporting false g, f, call :: effects)
        | (f, effects, Throw err) =>
            (setIsExporting false
               (setError (Some (str_or (message err) (lit "Export failed"))) g),
             f, call :: effects)
        end
    | Throw err =>
        (setIsExporting false
           (setError (Some (str_or (message err) (lit "Export failed"))) g),
         f, [call])
    end.

End ExportView.

(** ** components/CaptureModal.tsx: custom glyph extraction *)
Module CaptureModal.

Section Extract.

(** [new Intl.Segmenter("en", { granularity: "grapheme" }).segment(str)],
    read as the list of the [segment] fields it yields. The segmenter is the
    platform's. *)
Variable segment : JSString -> list JSString.

(** The Unicode property [Extended_Pictographic] of a code point (a table of
    the Unicode Character Database). *)
Variable Extended_Pictographic : N -> bool.

(** [/\p{Extended_Pictographic}/u.test(s)]: some code point of [s] has the
    property. *)
Definition emojiRegex_test (s : JSString) : bool :=
  existsb Extended_Pictographic (codePoints s).

(** The [for (const segment of segments)] loop of [extractFirstEmoji]. *)
Fixpoint firstEmojiSegment (segments : list JSString) : JSString :=
  match segments with
  | [] => []
  | g :: rest => if emojiRegex_test g then g else firstEmojiSegment rest
  end.

Definition extractFirstEmoji (str : JSString) : JSString :=
  if falsy str then [] else firstEmojiSegment (segment str).

Definition isValidEmoji (str : JSString) : bool :=
  negb (str_eqb str []) && str_eqb str (extractFirstEmoji str).

End Extract.

(** *** The component's signals and handlers *)

Inductive CaptureState : Type := Webcam | Preview | Processing.

(** The properties the component reads; [onNext] records whether the
    callback is given. *)
Record Props : Type := {
  sessionId : JSString;
  emoji : Api.Emoji;
  existingCapture : option Api.CapturedEmoji;
  isCustom : bool;
  settings : Api.Settings;
  onNext : bool
}.

(** The component's signals, and whether the countdown's interval handle
    [countdownInterval] is set. *)
Record Signals : Type := {
  state : CaptureState;
  processedImage : option JSString;
  error : option JSString;
  capturedFrame : option JSString;
  viewingExisting : bool;
  customEmojiInput : JSString;
  countdown : option Z;
  countdownInterval : bool
}.

Definition setState (v : CaptureState) (g : Signals) : Signals :=
  {| state := v; processedImage := processedImage g; error := error g;
     capturedFrame := capturedFrame g; viewingExisting := viewingExisting g;
     customEmojiInput := customEmojiInput g; countdown := countdown g;
     countdownInterval := countdownInterval g |}.
Definition setProcessedImage (v : option JSString) (g : Signals) : Signals :=
  {| state := state g; processedImage := v; error := error g;
     capturedFrame := capturedFrame g; viewingExisting := viewingExisting g;
     customEmojiInput := customEmojiInput g; countdown := countdown g;
     countdownInterval := countdownInterval g |}.
Definition setError (v : option JSString) (g : Signals) : Signals :=
  {| state := state g; processedImage := processedImage g; error := v;
     capturedFrame := capturedFrame g; viewingExisting := viewingExisting g;
     customEmojiInput := customEmojiInput g; countdown := countdown g;
     countdownInterval := countdownInterval g |}.
Definition setCapturedFrame (v : option JSString) (g : Signals) : Signals :=
  {| state := state g; processedImage := processedImage g; error := error g;
     capturedFrame := v; viewingExisting := viewingExisting g;
     customEmojiInput := customEmojiInput g; countdown := countdown g;
     countdownInterval := countdownInterval g |}.
Definition setViewingExisting (v : bool) (g : Signals) : Signals :=
  {| state := state g; processedImage := processedImage g; error := error g;
     capturedFrame := capturedFrame g; viewingExisting := v;
     customEmojiInput := customEmojiInput g; countdown := countdown g;
     countdownInterval := countdownInterval g |}.
Definition setCustomEmojiInput (v : JSString) (g : Signals) : Signals :=
  {| state := state g; processedImage := processedImage g; error := error g;
     capturedFrame := capturedFrame g; viewingExisting := viewingExisting g;
     customEmojiInput := v; countdown := countdown g;
     countdownInterval := countdownInterval g |}.
Definition setCountdown (v : option Z) (g : Signals) : Signals :=
  {| state := state g; processedImage := processedImage g; error := error g;
     capturedFrame := capturedFrame g; viewingExisting := viewingExisting g;
     customEmojiInput := customEmojiInput g; countdown := v;
     countdownInterval := countdownInterval g |}.
Definition setCountdownInterval (v : bool) (g : Signals) : Signals :=
  {| state := state g; processedImage := processedImage g; error := error g;
     capturedFrame := capturedFrame g; viewingExisting := viewingExisting g;
     customEmojiInput := customEmojiInput g; countdown := countdown g;
     countdownInterval := v |}.

(** The signals of a freshly created component. *)
Definition initialSignals (props : Props) : Signals :=
  {| state := match existingCapture props with Some _ => Preview | None => Webcam end;
     processedImage := option_map Api.image_data (existingCapture props);
     error := None;
     capturedFrame := None;
     viewingExisting := match existingCapture props with Some _ => true | None => false end;
     customEmojiInput := Api.emoji (emoji props);
     countdown := None;
     countdownInterval := false |}.

(** What a handler does besides writing signals: requests to the back end,
    calls of the parent's callbacks, and the countdown's timer. *)
Inductive Effect : Type :=
| Request (c : Api.Call)
| OnComplete
| OnNext
| OnClose
| OnSettingsChange (newSettings : Api.Settings)
| StartInterval
| ClearInterval.

(** The error an attempt to start the webcam ends with. *)
Record MediaError : Type := {
  errorName : JSString;
  errorMessage : JSString
}.

(** What the handlers read from their surroundings: whether the video
    element is mounted, the frame [captureFrame] grabs from it, the browser,
    and how each awaited operation settles. *)
Record Env : Type := {
  videoRef : bool;
  frame : JSString;
  isFirefox : bool;
  isSecure : bool;
  streamActive : bool;
  webcamStarted : option MediaError;
  previewed : Completion Api.PreviewResult;
  saved : Completion unit;
  deleted : Completion unit
}.

Definition isOneOf (s : JSString) (names : list JSString) : bool :=
  existsb (str_eqb s) names.

(** The message [initWebcam] shows for a failure to start the webcam. *)
Definition webcamErrorMessage (env : Env) (err : MediaError) : JSString :=
  if isOneOf (errorName err)
       [lit "NotAllowedError"; lit "PermissionDeniedError"; lit "SecurityError"]
  then
    if negb (isSecure env) then
      lit "Camera access requires HTTPS. Please access this site over a secure connection."
    else if isFirefox env then
      lit "Camera permission denied. On Firefox, tap the lock icon in the address bar and allow camera access, then reload the page."
    else
      lit "Camera permission denied. Please grant camera access in your browser settings."
  else if isOneOf (errorName err) [lit "NotFoundError"; lit "DevicesNotFoundError"] then
    lit "No camera found. Please connect a camera or use the upload option."
  else if isOneOf (errorName err) [lit "NotReadableError"; lit "TrackStartError"] then
    lit "Camera is in use by another application. Please close other apps using the camera."
  else if str_eqb (errorName err) (lit "AbortError") then
    lit "Camera access was interrupted. Please try again."
  else if str_eqb (errorName err) (lit "OverconstrainedError") then
    lit "Camera doesn't support the requested settings. Please try again or use the upload option."
  else
    lit "Failed to access webcam: "
    ++ str_or (errorMessage err) (lit "Unknown error")
    ++ lit ". Try using the upload option instead.".

Definition initWebcam (env : Env) (g : Signals) : Signals :=
  if videoRef env then
    match webcamStarted env with
    | None => g
    | Some err => setError (Some (webcamErrorMessage env err)) g
    end
  else g.

(** [error()?.match(/camera|webcam/i)], as a truth value. *)
Definition errorMentionsCamera (g : Signals) : bool :=
  match error g with
  | Some e => includesCI (lit "camera") e || includesCI (lit "webcam") e
  | None => false
  end.

Section Handlers.

Variable segment : JSString -> list JSString.
Variable Extended_Pictographic : N -> bool.

Definition handleEmojiInput (value : JSString) (g : Signals) : Signals :=
  let emoji := extractFirstEmoji segment Extended_Pictographic value in
  setCustomEmojiInput emoji g.

Definition currentEmoji (props : Props) (g : Signals) : JSString :=
  if isCustom props && negb (bool_decide (is_Some (existingCapture props)))
  then customEmojiInput g
  else Api.emoji (emoji props).

Definition captureDisabled (props : Props) (g : Signals) : bool :=
  isCustom props && negb (bool_decide (is_Some (existingCapture props)))
  && negb (isValidEmoji segment Extended_Pictographic (customEmojiInput g)).

Definition handlePaddingChange (props : Props) (value : Q) : list Effect :=
  let newSettings :=
    {| Api.padding := value;
       Api.keep_background := Api.keep_background (settings props);
       Api.keep_clothes := Api.keep_clothes (settings props);
       Api.keep_accessories := Api.keep_accessories (settings props) |} in
  [OnSettingsChange newSettings].

Definition handleKeepBackgroundChange (props : Props) (value : bool) : list Effect :=
  [OnSettingsChange
     {| Api.padding := Api.padding (settings props);
        Api.keep_background := value;
        Api.keep_clothes := Api.keep_clothes (settings props);
        Api.keep_accessories := Api.keep_accessories (settings props) |}].

Definition handleKeepClothesChange (props : Props) (value : bool) : list Effect :=
  [OnSettingsChange
     {| Api.padding := Api.padding (settings props);
        Api.keep_background := Api.keep_background (settings props);
        Api.keep_clothes := value;
        Api.keep_accessories := Api.keep_accessories (settings props) |}].

Definition handleKeepAccessoriesChange (props : Props) (value : bool) : list Effect :=
  [OnSettingsChange
     {| Api.padding := Api.padding (settings props);
        Api.keep_background := Api.keep_background (settings props);
        Api.keep_clothes := Api.keep_clothes (settings props);
        Api.keep_accessories := value |}].

(** The slider's [onInput]: [n] is [parseInt(e.currentTarget.value)]. *)
Definition onPaddingInput (props : Props) (n : Z) : list Effect :=
  handlePaddingChange props (n # 100).

(** The parameters both preview requests send. *)
Definition previewParams (props : Props) (image : JSString) : Api.CaptureParams :=
  {| Api.param_image := image;
     Api.param_padding := Some (Api.padding (settings props));
     Api.param_keep_background := Some (Api.keep_background (settings props));
     Api.param_keep_clothes := Some (Api.keep_clothes (settings props));
     Api.param_keep_accessories := Some (Api.keep_accessories (settings props)) |}.

(** The [.then] and [.catch] callbacks of the preview request. *)
Definition previewSettled (env : Env) (g : Signals) : Signals :=
  match previewed env with
  | Return result =>
      setState Preview (setProcessedImage (Some (Api.preview_image result)) g)
  | Throw err =>
      setState Webcam
        (setCapturedFrame None
           (setError (Some (str_or (message err) (lit "Face detection failed"))) g))
  end.

Definition handleCapture (env : Env) (props : Props) (g : Signals)
  : Signals * list Effect :=
  if negb (videoRef env) then (g, [])
  else
    let frame := frame env in
    let request :=
      Request (Api.PreviewCapture (sessionId props) (currentEmoji props g)
                 (previewParams props frame)) in
    let g := setError None (setState Processing (setCapturedFrame (Some frame) g)) in
    (previewSettled env g, [request]).

(** [handleUpload(file)]: [read] is [reader.result] when the file is read,
    and [None] when the reader fails. *)
Definition handleUpload (env : Env) (read : option JSString) (props : Props)
    (g : Signals) : Signals * list Effect :=
  let g := setError None g in
  match read with
  | Some base64 =>
      let request :=
        Request (Api.PreviewCapture (sessionId props) (currentEmoji props g)
                   (previewParams props base64)) in
      let g := setState Processing (setCapturedFrame (Some base64) g) in
      (previewSettled env g, [request])
  | None =>
      (setState Webcam
         (setCapturedFrame None (setError (Some (lit "Failed to read file")) g)),
       [])
  end.

(** [handleFileSelect]: [file] is [input.files?.[0]] with what reading it
    gives. *)
Definition handleFileSelect (env : Env) (file : option (option JSString))
    (props : Props) (g : Signals) : Signals * list Effect :=
  match file with
  | Some read => handleUpload env read props g
  | None => (g, [])
  end.

Definition handleDelayedCapture (g : Signals) : Signals * list Effect :=
  (setCountdownInterval true (setCountdown (Some 3%Z) g),
   (if countdownInterval g then [ClearInterval] else []) ++ [StartInterval]).

(** The interval's callback, once a second. *)
Definition countdownTick (env : Env) (props : Props) (g : Signals)
  : Signals * list Effect :=
  let expired :=
    match countdown g with
    | None => true
    | Some prev => (prev <=? 1)%Z
    end in
  if expired then
    let '(g, effects) := handleCapture env props (setCountdownInterval false g) in
    (setCountdown None g, ClearInterval :: effects)
  else
    (setCountdown (option_map (fun prev => (prev - 1)%Z) (countdown g)) g, []).

Definition cancelCountdown (g : Signals) : Signals * list Effect :=
  if countdownInterval g
  then (setCountdown None (setCountdownInterval false g), [ClearInterval])
  else (setCountdown None g, []).

(** [onMount]: the webcam starts unless an existing capture is shown. *)
Definition onMount (env : Env) (props : Props) (g : Signals) : Signals :=
  match existingCapture props with
  | Some _ => g
  | None => initWebcam env g
  end.

(** The effect that runs when the component is given another emoji. *)
Definition emojiChanged (props : Props) (g : Signals) : Signals :=
  let g :=
    match existingCapture props with
    | Some existing =>
        setViewingExisting true
          (setProcessedImage (Some (Api.image_data existing)) (setState Preview g))
    | None =>
        setViewingExisting false (setProcessedImage None (setState Webcam g))
    end in
  setError None (setCapturedFrame None g).

Definition handleRetake (env : Env) (g : Signals) : Signals * list Effect :=
  let g :=
    setViewingExisting false
      (setError None
         (setState Webcam (setCapturedFrame None (setProcessedImage None g)))) in
  if negb (streamActive env) then (initWebcam env g, []) else (g, []).

Definition handleAccept (env : Env) (props : Props) (g : Signals)
  : Signals * list Effect :=
  match processedImage g with
  | None => (g, [])
  | Some image =>
      if falsy image then (g, [])
      else
        let emoji := currentEmoji props g in
        if falsy (trim emoji) then (setError (Some (lit "Please enter an emoji")) g, [])
        else
          let request := Request (Api.SaveCapture (sessionId props) emoji image) in
          match saved env with
          | Return _ => (g, [request; OnComplete])
          | Throw err =>
              (setError (Some (str_or (message err) (lit "Failed to save capture"))) g,
               [request])
          end
  end.

Definition handleAcceptAndNext (env : Env) (props : Props) (g : Signals)
  : Signals * list Effect :=
  match processedImage g with
  | None => (g, [])
  | Some image =>
      if falsy image then (g, [])
      else
        let emoji := currentEmoji props g in
        if falsy (trim emoji) then (setError (Some (lit "Please enter an emoji")) g, [])
        else
          let request := Request (Api.SaveCapture (sessionId props) emoji image) in
          match saved env with
          | Return _ => (g, request :: (if onNext props then [OnNext] else []))
          | Throw err =>
              (setError (Some (str_or (message err) (lit "Failed to save capture"))) g,
               [request])
          end
  end.

Definition handleDelete (env : Env) (props : Props) (g : Signals)
  : Signals * list Effect :=
  let request := Request (Api.DeleteCapture (sessionId props) (currentEmoji props g)) in
  match deleted env with
  | Return _ => (g, [request; OnComplete])
  | Throw _ => (setError (Some (lit "Failed to delete capture")) g, [request])
  end.

(** [handleKeyDown]: [onFormElement] says that the event's target is an
    input or a text area. *)
Definition handleKeyDown (env : Env) (onFormElement : bool) (key : JSString)
    (props : Props) (g : Signals) : Signals * list Effect :=
  if onFormElement then (g, [])
  else if str_eqb key (lit "Enter") || str_eqb key (lit " ") then
    match state g with
    | Webcam =>
        if negb (errorMentionsCamera g) then handleCapture env props g else (g, [])
    | Preview =>
        if negb (viewingExisting g) then
          if onNext props then handleAcceptAndNext env props g
          else handleAccept env props g
        else (g, [])
    | Processing => (g, [])
    end
  else if str_eqb key (lit "Delete") || str_eqb key (lit "Backspace") then
    match state g with
    | Preview => if viewingExisting g then handleDelete env props g else (g, [])
    | _ => (g, [])
    end
  else (g, []).

(** The keys that the keyboard handler reads as "capture" or "accept". *)
Definition acceptKey (key : JSString) : Prop :=
  key = lit "Enter" \/ key = lit " ".

(** Everything that can run one of the component's handlers. *)
Inductive Action : Type :=
| Mount
| EmojiChanged
| ClickClose
| ClickCapture
| ClickDelayedCapture
| Tick
| ClickCancelCountdown
| SelectFile (file : option (option JSString))
| ClickAccept
| ClickNext
| ClickRetake
| ClickDelete
| KeyDown (onFormElement : bool) (key : JSString)
| EmojiInput (value : JSString)
| PaddingInput (n : Z)
| KeepBackgroundChange (value : bool)
| KeepClothesChange (value : bool)
| KeepAccessoriesChange (value : bool).

Definition step (env : Env) (props : Props) (a : Action) (g : Signals)
  : Signals * list Effect :=
  match a with
  | Mount => (onMount env props g, [])
  | EmojiChanged => (emojiChanged props g, [])
  | ClickClose => (g, [OnClose])
  | ClickCapture => handleCapture env props g
  | ClickDelayedCapture => handleDelayedCapture g
  | Tick => countdownTick env props g
  | ClickCancelCountdown => cancelCountdown g
  | SelectFile file => handleFileSelect env file props g
  | ClickAccept => handleAccept env props g
  | ClickNext => handleAcceptAndNext env props g
  | ClickRetake => handleRetake env g
  | ClickDelete => handleDelete env props g
  | KeyDown onFormElement key => handleKeyDown env onFormElement key props g
  | EmojiInput value => (handleEmojiInput value g, [])
  | PaddingInput n => (g, onPaddingInput props n)
  | KeepBackgroundChange value => (g, handleKeepBackgroundChange props value)
  | KeepClothesChange value => (g, handleKeepClothesChange props value)
  | KeepAccessoriesChange value => (g, handleKeepAccessoriesChange props value)
  end.

End Handlers.

(** *** Runs of the component

    A run is a sequence of handlers, each under the surroundings and the
    properties of its moment ([App] may hand the component other properties
    from one step to the next). The effects are listed with the properties
    they were issued under. *)
Section Runs.

Variable segment : JSString -> list JSString.
Variable Extended_Pictographic : N -> bool.

Fixpoint run (script : list (Env * Props * Action)) (g : Signals)
  : Signals * list (Props * Effect) :=
  match script with
  | [] => (g, [])
  | (env, props, a) :: rest =>
      let '(g1, effects) := step segment Extended_Pictographic env props a g in
      let '(g2, later) := run rest g1 in
      (g2, map (pair props) effects ++ later)
  end.

End Runs.

(** The component as [handleAddCustomEmoji] opens it, and the properties of
    the add-custom flow. *)
Definition customProps : Props :=
  {| sessionId := lit "a1b2c3d4";
     emoji := {| Api.emoji := []; Api.codepoint := []; Api.name := lit "custom" |};
     existingCapture := None;
     isCustom := true;
     settings := {| Api.padding := 0; Api.keep_background := false;
                    Api.keep_clothes := false; Api.keep_accessories := true |};
     onNext := true |}.

Definition deniedEnv : Env :=
  {| videoRef := true;
     frame := lit "data:image/png;base64,AAAA";
     isFirefox := false;
     isSecure := true;
     streamActive := false;
     webcamStarted :=
       Some {| errorName := lit "NotAllowedError"; errorMessage := [] |};
     previewed := Throw (Error []);
     saved := Return tt;
     deleted := Return tt |}.

(** *** A reference segmenter

    A segmenter given by a pairwise rule: [joins u v] says that no boundary
    falls between the adjacent code units [u] and [v]. *)
Section PairwiseSegmenter.

Variable joins : N -> N -> bool.

Fixpoint segmentBy (s : JSString) : list JSString :=
  match s with
  | [] => []
  | u :: rest =>
      match segmentBy rest with
      | g :: gs =>
          match rest with
          | v :: _ => if joins u v then (u :: g) :: gs else [u] :: g :: gs
          | [] => [[u]]
          end
      | [] => [[u]]
      end
  end.

(** [linked g]: no boundary falls inside [g]. *)
Fixpoint linked (g : JSString) : Prop :=
  match g with
  | u :: rest =>
      match rest with
      | v :: _ => joins u v = true /\ linked rest
      | [] => True
      end
  | [] => True
  end.

End PairwiseSegmenter.

(** No boundary inside a surrogate pair, before a variation selector 16 or a
    zero width joiner, nor after a zero width joiner. *)
Definition refJoins (u v : N) : bool :=
  (is_high_surrogate u && is_low_surrogate v)
  || (v =? 0xFE0F) || (v =? 0x200D) || (u =? 0x200D).

Definition refSegment : JSString -> list JSString := segmentBy refJoins.

(** A few blocks of pictographic code points. *)
Definition refPictographic (c : N) : bool :=
  ((0x1F300 <=? c) && (c <=? 0x1FAFF))
  || ((0x2600 <=? c) && (c <=? 0x27BF))
  || (c =? 0xA9) || (c =? 0xAE).

(** U+1F600 GRINNING FACE, the surrogate pair D83D DE00. *)
Definition grinningFace : JSString := [0xD83D; 0xDE00].

End CaptureModal.

(** ** components/Gallery.tsx *)
Module Gallery.
Import Api.

(** The inner loop of [firstUncapturedEmoji], over one category. *)
Fixpoint firstUncapturedIn (captured : gset JSString) (l : list Emoji)
  : option Emoji :=
  match l with
  | [] => None
  | e :: rest =>
      if bool_decide (emoji e ∈ captured) then firstUncapturedIn captured rest
      else Some e
  end.

Fixpoint firstUncapturedEmoji (captured : gset JSString)
    (categories : list EmojiCategory) : option Emoji :=
  match categories with
  | [] => None
  | category :: rest =>
      match firstUncapturedIn captured (emojis category) with
      | Some e => Some e
      | None => firstUncapturedEmoji captured rest
      end
  end.

End Gallery.

(** ** App.tsx *)
Module App.
Import Api.

Inductive SessionState : Type := Loading | Valid | Invalid | RateLimited.

(** The signals of [App] that the handlers below read or write; [font]
    groups the four signals of the font state, and [pendingSave] is the
    settings that the timer [settingsSaveTimeout] is to save. *)
Record State : Type := {
  selectedEmoji : option Emoji;
  isCustomCapture : bool;
  sessionState : SessionState;
  validatedSessionId : option JSString;
  showClearConfirm : bool;
  clearing : bool;
  font : ExportView.FontState;
  settings : Settings;
  settingsLoaded : bool;
  pendingSave : option Settings
}.

Definition setSelectedEmoji (v : option Emoji) (st : State) : State :=
  {| selectedEmoji := v; isCustomCapture := isCustomCapture st;
     sessionState := sessionState st;
     validatedSessionId := validatedSessionId st;
     showClearConfirm := showClearConfirm st; clearing := clearing st;
     font := font st; settings := settings st;
     settingsLoaded := settingsLoaded st; pendingSave := pendingSave st |}.
Definition setIsCustomCapture (v : bool) (st : State) : State :=
  {| selectedEmoji := selectedEmoji st; isCustomCapture := v;
     sessionState := sessionState st;
     validatedSessionId := validatedSessionId st;
     showClearConfirm := showClearConfirm st; clearing := clearing st;
     font := font st; settings := settings st;
     settingsLoaded := settingsLoaded st; pendingSave := pendingSave st |}.
Definition setSessionState (v : SessionState) (st : State) : State :=
  {| selectedEmoji := selectedEmoji st;
     isCustomCapture := isCustomCapture st; sessionState := v;
     validatedSessionId := validatedSessionId st;
     showClearConfirm := showClearConfirm st; clearing := clearing st;
     font := font st; settings := settings st;
     settingsLoaded := settingsLoaded st; pendingSave := pendingSave st |}.
Definition setValidatedSessionId (v : option JSString) (st : State) : State :=
  {| selectedEmoji := selectedEmoji st;
     isCustomCapture := isCustomCapture st; sessionState := sessionState st;
     validatedSessionId := v; showClearConfirm := showClearConfirm st;
     clearing := clearing st; font := font st; settings := settings st;
     settingsLoaded := settingsLoaded st; pendingSave := pendingSave st |}.
Definition setShowClearConfirm (v : bool) (st : State) : State :=
  {| selectedEmoji := selectedEmoji st;
     isCustomCapture := isCustomCapture st; sessionState := sessionState st;
     validatedSessionId := validatedSessionId st; showClearConfirm := v;
     clearing := clearing st; font := font st; settings := settings st;
     settingsLoaded := settingsLoaded st; pendingSave := pendingSave st |}.
Definition setClearing (v : bool) (st : State) : State :=
  {| selectedEmoji := selectedEmoji st;
     isCustomCapture := isCustomCapture st; sessionState := sessionState st;
     validatedSessionId := validatedSessionId st;
     showClearConfirm := showClearConfirm st; clearing := v; font := font st;
     settings := settings st; settingsLoaded := settingsLoaded st;
     pendingSave := pendingSave st |}.
Definition setFont (v : ExportView.FontState) (st : State) : State :=
  {| selectedEmoji := selectedEmoji st;
     isCustomCapture := isCustomCapture st; sessionState := sessionState st;
     validatedSessionId := validatedSessionId st;
     showClearConfirm := showClearConfirm st; clearing := clearing st;
     font := v; settings := settings st; settingsLoaded := settingsLoaded st;
     pendingSave := pendingSave st |}.
Definition setSettings (v : Settings) (st : State) : State :=
  {| selectedEmoji := selectedEmoji st;
     isCustomCapture := isCustomCapture st; sessionState := sessionState st;
     validatedSessionId := validatedSessionId st;
     showClearConfirm := showClearConfirm st; clearing := clearing st;
     font := font st; settings := v; settingsLoaded := settingsLoaded st;
     pendingSave := pendingSave st |}.
Definition setSettingsLoaded (v : bool) (st : State) : State :=
  {| selectedEmoji := selectedEmoji st;
     isCustomCapture := isCustomCapture st; sessionState := sessionState st;
     validatedSessionId := validatedSessionId st;
     showClearConfirm := showClearConfirm st; clearing := clearing st;
     font := font st; settings := settings st; settingsLoaded := v;
     pendingSave := pendingSave st |}.
Definition setPendingSave (v : option Settings) (st : State) : State :=
  {| selectedEmoji := selectedEmoji st;
     isCustomCapture := isCustomCapture st; sessionState := sessionState st;
     validatedSessionId := validatedSessionId st;
     showClearConfirm := showClearConfirm st; clearing := clearing st;
     font := font st; settings := settings st;
     settingsLoaded := settingsLoaded st; pendingSave := v |}.

Definition defaultSettings : Settings :=
  {| padding := 0;
     keep_background := false;
     keep_clothes := false;
     keep_accessories := true |}.

(** The signals of a freshly created [App]. *)
Definition initialState : State :=
  {| selectedEmoji := None;
     isCustomCapture := false;
     sessionState := Loading;
     validatedSessionId := None;
     showClearConfirm := false;
     clearing := false;
     font := {| ExportView.fontUrl := None;
                ExportView.fontLoaded := false;
                ExportView.fontFamilyId := None;
                ExportView.localLastGeneration := None |};
     settings := defaultSettings;
     settingsLoaded := false;
     pendingSave := None |}.

(** What a handler does besides writing signals. *)
Inductive Effect : Type :=
| Request (c : Call)
| RefetchGallery.

(** [loadSettings(sid)]: [got] is how [getSettings] settles. *)
Definition loadSettings (sid : JSString) (got : Completion Settings) (st : State)
  : State * list Effect :=
  match got with
  | Return loadedSettings =>
      (setSettingsLoaded true (setSettings loadedSettings st),
       [Request (GetSettings sid)])
  | Throw _ => (setSettingsLoaded true st, [Request (GetSettings sid)])
  end.

(** [handleSettingsChange]: the signal is written at once, and the save is
    left to a timer that replaces the one pending. *)
Definition handleSettingsChange (newSettings : Settings) (st : State) : State :=
  setPendingSave (Some newSettings) (setSettings newSettings st).

(** The timer of [handleSettingsChange], half a second later. *)
Definition saveTimerFires (sessionId : JSString) (st : State)
  : State * list Effect :=
  match pendingSave st with
  | Some newSettings =>
      (setPendingSave None st, [Request (SaveSettings sessionId newSettings)])
  | None => (st, [])
  end.

(** [allEmojis()] and [capturedSet()], from what the two resources hold. *)
Definition allEmojis (emojisData : option (list EmojiCategory)) : list Emoji :=
  match emojisData with
  | Some categories => flat_map emojis categories
  | None => []
  end.

Definition capturedSet (galleryData : option GalleryResponse) : gset JSString :=
  match galleryData with
  | Some gallery => list_to_set (map captured_emoji (captured gallery))
  | None => ∅
  end.

Definition hasUncapturedEmoji (emojisData : option (list EmojiCategory))
    (galleryData : option GalleryResponse) : bool :=
  existsb (fun e => negb (bool_decide (emoji e ∈ capturedSet galleryData)))
    (allEmojis emojisData).

Definition handleEmojiClick (e : Emoji) (st : State) : State :=
  setIsCustomCapture false (setSelectedEmoji (Some e) st).

Definition handleAddCustomEmoji (st : State) : State :=
  setIsCustomCapture true
    (setSelectedEmoji
       (Some {| emoji := []; codepoint := []; name := lit "custom" |}) st).

Definition handleCaptureComplete (st : State) : State * list Effect :=
  (setIsCustomCapture false (setSelectedEmoji None st), [RefetchGallery]).

Definition handleCaptureClose (st : State) : State :=
  setIsCustomCapture false (setSelectedEmoji None st).


(** [handleClearAll]: [cleared] is how [clearSession] settles. The handler
    completes with the same outcome, its [finally] block run. *)
Definition handleClearAll (sessionId : JSString) (cleared : Completion unit)
    (st : State) : State * list Effect * Completion unit :=
  let st := setClearing true st in
  match cleared with
  | Return _ =>
      let f := font st in
      let f := ExportView.setFontUrl None f in
      let f := ExportView.setFontLoaded false f in
      let f := ExportView.setFontFamilyId None f in
      let f := ExportView.setLastGeneration None f in
      let st := setFont f st in
      (setShowClearConfirm false (setClearing false st),
       [Request (ClearSession sessionId); RefetchGallery], Return tt)
  | Throw err =>
      (setShowClearConfirm false (setClearing false st),
       [Request (ClearSession sessionId)], Throw err)
  end.

(** [emojis.findIndex(p)]: the index of the first element that satisfies
    [p], or -1. *)
Fixpoint findIndexFrom (p : Emoji -> bool) (l : list Emoji) (i : Z) : Z :=
  match l with
  | [] => (-1)%Z
  | e :: rest => if p e then i else findIndexFrom p rest (i + 1)%Z
  end.

Definition findIndex (p : Emoji -> bool) (l : list Emoji) : Z :=
  findIndexFrom p l 0%Z.

(** [emojis[i]] for a number [i]: [undefined] outside the array. *)
Definition at_index (l : list Emoji) (i : Z) : option Emoji :=
  if (i <? 0)%Z then None else l !! Z.to_nat i.

(** How the loop of [handleNext] ends. *)
Inductive Scan : Type :=
| Found (nextEmoji : Emoji)
| NoneLeft
| ReadOfUndefined.

(** [for (let i = ...; i <= emojis.length; i++)], with [remaining] the
    number of iterations still to run. The remainder [%] truncates. *)
Fixpoint scanFrom (emojis : list Emoji) (captured : gset JSString)
    (currentIndex : Z) (i : Z) (remaining : nat) : Scan :=
  match remaining with
  | O => NoneLeft
  | S remaining' =>
      let nextIndex := Z.rem (currentIndex + i) (Z.of_nat (length emojis)) in
      match at_index emojis nextIndex with
      | None => ReadOfUndefined
      | Some nextEmoji =>
          if bool_decide (emoji nextEmoji ∈ captured)
          then scanFrom emojis captured currentIndex (i + 1)%Z remaining'
          else Found nextEmoji
      end
  end.

(** V8's message for a property read of [undefined]. *)
Definition undefinedReadMessage : JSString :=
  lit "Cannot read properties of undefined (reading 'emoji')".

(** [handleNext], after [await refetchGallery()]: [galleryData] is what the
    gallery resource holds by then. *)
Definition handleNext (emojisData : option (list EmojiCategory))
    (galleryData : option GalleryResponse) (st : State)
  : State * list Effect * Completion unit :=
  let emojis := allEmojis emojisData in
  let captured := capturedSet galleryData in
  match selectedEmoji st with
  | None => (st, [RefetchGallery], Return tt)
  | Some currentEmoji =>
      let currentIndex :=
        findIndex (fun e => str_eqb (emoji e) (emoji currentEmoji)) emojis in
      match scanFrom emojis captured currentIndex 1 (length emojis) with
      | Found nextEmoji =>
          (setSelectedEmoji (Some nextEmoji) st, [RefetchGallery], Return tt)
      | NoneLeft => (setSelectedEmoji None st, [RefetchGallery], Return tt)
      | ReadOfUndefined =>
          (st, [RefetchGallery], Throw (TypeError undefinedReadMessage))
      end
  end.

(** Three emojis, the first and the last captured, the first one selected. *)
Definition emojiOf (text label : string) : Emoji :=
  {| emoji := lit text; codepoint := lit label; name := lit label |}.

Definition captureOf (text label : string) : CapturedEmoji :=
  {| captured_emoji := lit text; captured_codepoint := lit label;
     image_data := lit "data:image/png;base64,AAAA"; custom := None |}.

Definition exampleEmojis : option (list EmojiCategory) :=
  Some [{| category_id := lit "faces"; category_name := lit "Faces";
           emojis := [emojiOf ":D" "1f600"; emojiOf ":)" "1f603";
                      emojiOf ";)" "1f609"] |}].

Definition exampleGallery : option GalleryResponse :=
  Some {| captured := [captureOf ":D" "1f600"; captureOf ";)" "1f609"];
          total := 3;
          custom_emojis := [];
          last_capture_edit := None;
          gallery_last_generation := None |}.

Definition exampleState : State :=
  setSelectedEmoji (Some (emojiOf ":D" "1f600")) initialState.

(** *** The settings that [App] holds *)


(** The events that run a handler of [App]. [SettingsChange] is the capture
    modal calling [onSettingsChange]. *)
Inductive Event : Type :=
| SettingsLoaded (sid : JSString) (got : Completion Settings)
| SettingsChange (newSettings : Settings)
| SaveTimer (sid : JSString)
| EmojiClick (e : Emoji)
| AddCustomEmoji
| CaptureComplete
| CaptureClose
| ClearAll (sid : JSString) (cleared : Completion unit)
| Next (emojisData : option (list EmojiCategory))
       (galleryData : option GalleryResponse).

Definition step (ev : Event) (st : State) : State :=
  match ev with
  | SettingsLoaded sid got => fst (loadSettings sid got st)
  | SettingsChange newSettings => handleSettingsChange newSettings st
  | SaveTimer sid => fst (saveTimerFires sid st)
  | EmojiClick e => handleEmojiClick e st
  | AddCustomEmoji => handleAddCustomEmoji st
  | CaptureComplete => fst (handleCaptureComplete st)
  | CaptureClose => handleCaptureClose st
  | ClearAll sid cleared => fst (fst (handleClearAll sid cleared st))
  | Next emojisData galleryData => fst (fst (handleNext emojisData galleryData st))
  end.







(** The state after a sequence of events. *)
Definition run (events : list Event) (st : State) : State :=
  fold_left (fun st ev => step ev st) events st.




Definition quarterPadding : Settings :=
  {| padding := 25 # 100;
     keep_background := false;
     keep_clothes := false;
     keep_accessories := true |}.

(** *** The view, derived from the address

    [view()] reads [location.pathname]; [setView] hands a path to
    [navigate], which makes it the pathname. *)
Inductive View : Type := ViewGallery | ViewExport | ViewAbout.

Definition view (pathname : JSString) : View :=
  let path := pathname in
  if endsWith path (lit "/export") then ViewExport
  else if endsWith path (lit "/about") then ViewAbout
  else ViewGallery.

(** The string a [View] is in the source. *)
Definition viewName (v : View) : JSString :=
  match v with
  | ViewGallery => lit "gallery"
  | ViewExport => lit "export"
  | ViewAbout => lit "about"
  end.

Definition setView (sessionId : JSString) (newView : View) : JSString :=
  match newView with
  | ViewGallery => lit "/" ++ sessionId
  | _ => lit "/" ++ sessionId ++ lit "/" ++ viewName newView
  end.

(** *** Validating the session of the address *)

(** What [validateAndSetSession] starts: the validation request, and
    [loadSettings], which it does not await. *)
Inductive SessionEffect : Type :=
| ValidateSession (sessionId : JSString)
| LoadSettings (sessionId : JSString).

(** [validateAndSetSession]: [validated] is how [validateSession] settles,
    and [jar] is the cookie store. Reading [result.valid] of [null] throws
    inside the [try] block, and is caught with the other errors. *)
Definition validateAndSetSession (currentSessionId : JSString)
    (validated : Completion json) (st : State) (jar : Cookies.Jar)
  : State * Cookies.Jar * list SessionEffect :=
  if bool_decide (validatedSessionId st = Some currentSessionId)
     && match sessionState st with Valid => true | _ => false end
  then (st, jar, [])
  else
    let st := setSessionState Loading st in
    let request := ValidateSession currentSessionId in
    match validated with
    | Return result =>
        match getProperty result (lit "valid") with
        | OfNull => (setSessionState Invalid st, jar, [request])
        | Got valid =>
            if negb (match valid with Some v => truthy v | None => false end)
            then (setSessionState Invalid st, jar, [request])
            else
              (setSessionState Valid
                 (setValidatedSessionId (Some currentSessionId) st),
               Cookies.setSessionCookie currentSessionId jar,
               [request; LoadSettings currentSessionId])
        end
    | Throw error =>
        if instanceofRateLimitError error
        then (setSessionState RateLimited st, jar, [request])
        else (setSessionState Invalid st, jar, [request])
    end.

(** *** What [App] hands to its components *)

(** [capturedMap()]: a [Map] filled by [set] in the order of the captures,
    so that a later capture of an emoji replaces an earlier one. *)
Definition capturedMap (galleryData : option GalleryResponse)
  : gmap JSString CapturedEmoji :=
  match galleryData with
  | Some gallery =>
      foldl (fun map c => <[captured_emoji c := c]> map) ∅ (captured gallery)
  | None => ∅
  end.

(** The properties of [<CaptureModal>], rendered while an emoji is
    selected. *)
Definition modalProps (sessionId : JSString)
    (emojisData : option (list EmojiCategory))
    (galleryData : option GalleryResponse) (st : State)
  : option CaptureModal.Props :=
  match selectedEmoji st with
  | Some selected =>
      Some {| CaptureModal.sessionId := sessionId;
              CaptureModal.emoji := selected;
              CaptureModal.existingCapture :=
                capturedMap galleryData !! emoji selected;
              CaptureModal.isCustom := isCustomCapture st;
              CaptureModal.settings := settings st;
              CaptureModal.onNext := hasUncapturedEmoji emojisData galleryData |}
  | None => None
  end.

(** The properties [capturedCount], [lastCaptureEdit] and [lastGeneration]
    of [<ExportView>]. *)
Definition capturedCountProp (galleryData : option GalleryResponse) : N :=
  match galleryData with
  | Some gallery => N.of_nat (length (captured gallery))
  | None => 0
  end.

Definition lastCaptureEditProp (galleryData : option GalleryResponse)
  : option JSString :=
  match galleryData with
  | Some gallery => last_capture_edit gallery
  | None => None
  end.

(** [localLastGeneration() ?? galleryData()?.last_generation ?? null] *)
Definition lastGenerationProp (galleryData : option GalleryResponse) (st : State)
  : option JSString :=
  match ExportView.localLastGeneration (font st) with
  | Some v => Some v
  | None =>
      match galleryData with
      | Some gallery => gallery_last_generation gallery
      | None => None
      end
  end.

(** The export button of the view, pressed: [handleExport] with the
    properties above, its writes to the font state landing in [App]. *)
Definition exportPressed (sessionId : JSString)
    (galleryData : option GalleryResponse) (env : ExportView.ExportEnv)
    (g : ExportView.Signals) (st : State)
  : ExportView.Signals * State * list ExportView.Effect :=
  let '(g', f', effects) :=
    ExportView.handleExport sessionId (capturedCountProp galleryData) env g
      (font st) in
  (g', setFont f' st, effects).

(** A gallery in which one emoji was captured twice, and a state reached
    from the add-custom flow. *)
Definition retakenGallery : option GalleryResponse :=
  Some {| captured := [captureOf ":D" "first"; captureOf ";)" "1f609";
                       captureOf ":D" "second"];
          total := 3;
          custom_emojis := [];
          last_capture_edit := Some (lit "2000");
          gallery_last_generation := Some (lit "1000") |}.

Definition customState : State := handleAddCustomEmoji initialState.


Definition exampleExportSignals : ExportView.Signals :=
  {| ExportView.fontName := lit "Tomoji";
     ExportView.isExporting := false;
     ExportView.error := None |}.


(** [validateAndSetSession] on the response [res] of the validation
    request: [validateSession] hands it to [handleResponse]. *)
Definition validateOnResponse (numberToString : Q -> JSString)
    (nullReadMessage : JSString) (currentSessionId : JSString)
    (res : Response) (st : State) (jar : Cookies.Jar)
  : State * Cookies.Jar * list SessionEffect :=
  validateAndSetSession currentSessionId
    (validateSession numberToString nullReadMessage res) st jar.

(** The response of the back end for a session that exists. *)
Definition validResponse : Response :=
  {| status := 200;
     body := Parsed (JObj [(lit "valid", JBool true);
                           (lit "session_id", JStr (lit "a1b2c3d4"))]) |}.


End App.

(** ** lib/webcam.ts *)
Module Webcam.
Import CaptureModal.

Inductive FacingMode : Type := User | Environment.

(** The constraints handed to [getUserMedia], each with [audio: false]. *)
Inductive MediaStreamConstraints : Type :=
| IdealSize (width height : N) (facingMode : FacingMode)
| FacingOnly (facingMode : FacingMode)
| AnyVideo.

Definition constraintsList (facingMode : FacingMode)
  : list MediaStreamConstraints :=
  [IdealSize 640 480 facingMode; FacingOnly facingMode; AnyVideo].

Definition fallbackError : MediaError :=
  {| errorName := lit "Error"; errorMessage := lit "Failed to access camera" |}.

Section TryGetUserMedia.

Variable MediaStream : Type.

(** How [navigator.mediaDevices.getUserMedia] settles for each constraints
    object: with a stream, or with an error. *)
Variable getUserMedia : MediaStreamConstraints -> MediaError + MediaStream.

(** The loop of [tryGetUserMedia] over the constraints still to try, and
    [throw lastError || new Error(...)] after it. The second component
    lists the calls of [getUserMedia], in order. *)
Fixpoint tryEach (remaining : list MediaStreamConstraints)
    (lastError : option MediaError)
  : (MediaError + MediaStream) * list MediaStreamConstraints :=
  match remaining with
  | [] => (inl (default fallbackError lastError), [])
  | constraints :: rest =>
      match getUserMedia constraints with
      | inr stream => (inr stream, [constraints])
      | inl err =>
          let '(result, tried) := tryEach rest (Some err) in
          (result, constraints :: tried)
      end
  end.

Definition tryGetUserMedia (facingMode : FacingMode)
  : (MediaError + MediaStream) * list MediaStreamConstraints :=
  tryEach (constraintsList facingMode) None.

End TryGetUserMedia.

(** A device that cannot give the ideal size, and one whose camera is
    denied. *)
Definition sizeUnsupported (c : MediaStreamConstraints) : MediaError + N :=
  match c with
  | IdealSize _ _ _ =>
      inl {| errorName := lit "OverconstrainedError"; errorMessage := [] |}
  | FacingOnly _ => inr 7
  | AnyVideo => inr 8
  end.

Definition cameraDenied (c : MediaStreamConstraints) : MediaError + N :=
  match c with
  | AnyVideo =>
      inl {| errorName := lit "NotAllowedError";
             errorMessage := lit "Permission denied" |}
  | _ => inl {| errorName := lit "NotAllowedError"; errorMessage := [] |}
  end.

End Webcam.

(** ** components/SessionRedirect.tsx *)
Module SessionRedirect.
Import Api Cookies.

(** What [initSession] leaves behind: the [rateLimited] signal, the path
    handed to [navigate] if any, the cookie store, and the requests it
    issued, in order. *)
Record Outcome : Type := {
  rateLimited : bool;
  navigated : option JSString;
  cookies : Jar;
  requests : list FetchRequest
}.

Section InitSession.

Variable numberToString : Q -> JSString.
Variable nullReadMessage : JSString.

(** The text a template literal interpolates for a property read off a
    JSON value; the argument [None] is [undefined], the result [None] the
    TypeError of a value with no conversion to a string. *)
Definition template (v : option json) : option JSString :=
  match v with
  | Some j => toString numberToString j
  | None => Some (lit "undefined")
  end.

(** The second [try] block: [created] is how [createSession] settles.
    Destructuring [null] throws, and the [catch] block swallows every error
    but a [RateLimitError]. *)
Definition createAndNavigate (created : Completion json) (jar : Jar)
    (issued : list FetchRequest) : Outcome :=
  let issued := issued ++ [createSessionRequest] in
  match created with
  | Return response =>
      match getProperty response (lit "session_id") with
      | OfNull =>
          {| rateLimited := false; navigated := None;
             cookies := jar; requests := issued |}
      | Got session_id =>
          match template session_id with
          | Some text =>
              {| rateLimited := false;
                 navigated := Some (lit "/" ++ text);
                 cookies := setSessionCookie text jar;
                 requests := issued |}
          | None =>
              {| rateLimited := false; navigated := None;
                 cookies := jar; requests := issued |}
          end
      end
  | Throw err =>
      {| rateLimited := instanceofRateLimitError err; navigated := None;
         cookies := jar; requests := issued |}
  end.

(** [initSession]: [validated] is how [validateSession] settles, when it is
    called. [setRateLimited(false)] comes first, so the signal is false
    unless the run sets it. *)
Definition initSession (validated created : Completion json) (jar : Jar)
  : Outcome :=
  match getSessionCookie jar with
  | Some existingSessionId =>
      if falsy existingSessionId then createAndNavigate created jar []
      else
        let issued := [validateSessionRequest existingSessionId] in
        match validated with
        | Return result =>
            match getProperty result (lit "valid") with
            | Got (Some valid) =>
                if truthy valid then
                  {| rateLimited := false;
                     navigated := Some (lit "/" ++ existingSessionId);
                     cookies := jar; requests := issued |}
                else createAndNavigate created jar issued
            | Got None => createAndNavigate created jar issued
            | OfNull => createAndNavigate created jar issued
            end
        | Throw err =>
            if instanceofRateLimitError err then
              {| rateLimited := true; navigated := None;
                 cookies := jar; requests := issued |}
            else createAndNavigate created jar issued
        end
  | None => createAndNavigate created jar []
  end.

(** [initSession] on the responses of its two requests. *)
Definition initSessionOn (validation creation : Response) (jar : Jar) : Outcome :=
  initSession (validateSession numberToString nullReadMessage validation)
    (createSession numberToString nullReadMessage creation) jar.

End InitSession.

(** [validated] resolves to a value with a truthy [valid]. *)
Definition saysValid (validated : Completion json) : Prop :=
  exists result v,
    validated = Return result
    /\ getProperty result (lit "valid") = Got (Some v) /\ truthy v = true.

(** The response of the back end to the creation of a session. *)
Definition createdResponse : Response :=
  {| status := 200;
     body := Parsed (JObj [(lit "session_id", JStr (lit "a1b2c3d4"))]) |}.

Definition validJson : json :=
  JObj [(lit "valid", JBool true); (lit "session_id", JStr (lit "a1b2c3d4"))].

End SessionRedirect.

(** ** The font assembler *)
Module FontAssembler.

(** Modelled from the spec: the font assembler of section 4.3 and the data
    of section 3 (the back end's font builder is not among the sources).
    A glyph identity is a sequence of one or more scalar values with a name
    and a hex key; a bitmap has its dimensions, a pixel format and, for
    each position, the four channels of the pixel there. *)
Record GlyphIdentity : Type := {
  scalars : list N;
  glyphName : JSString;
  hexKey : JSString
}.

Inductive PixelFormat : Type := RGBA | OtherFormat.

Record Bitmap : Type := {
  width : N;
  height : N;
  format : PixelFormat;
  pixelAt : N -> N -> N * N * N * N
}.

(** Modelled from the spec: the canonical bitmap size of section 6 (the
    source uses 127 pixels per side). *)
Definition CANONICAL_SIZE : N := 127.

Abbreviation Entry := (GlyphIdentity * Bitmap)%type.

Inductive Glyph : Type :=
| Notdef
| CapturedGlyph (identity : GlyphIdentity) (bitmap : Bitmap).

Inductive AssemblyError : Type :=
| EmptyCaptureSet
| InvalidBitmap (glyph : GlyphIdentity).

(** Modelled from the spec: the font structure of section 4.3, as far as
    glyph indices go. The glyph of index [i] is the element [i] of
    [glyphOrder]; [cmap] maps a scalar value to a glyph index. *)
Record FontStructure : Type := {
  glyphOrder : list Glyph;
  cmap : list (N * nat)
}.

(** Modelled from the spec: a bitmap is malformed when its pixel format is
    wrong, when a dimension is zero, or when it is not of the canonical
    size (sections 4.3 and 7). *)
Definition wellSized (b : Bitmap) : bool :=
  match format b with
  | RGBA =>
      (width b =? CANONICAL_SIZE) && (height b =? CANONICAL_SIZE)
      && negb (width b =? 0) && negb (height b =? 0)
  | OtherFormat => false
  end.

(** Modelled from the spec: step 1 of section 4.3. Each entry gets the next
    index in input order, and the cmap maps the first scalar value of its
    identity to that index. *)
Fixpoint addEntries (next : nat) (entries : list Entry) (font : FontStructure)
  : AssemblyError + FontStructure :=
  match entries with
  | [] => inr font
  | (identity, bitmap) :: rest =>
      if wellSized bitmap then
        addEntries (S next) rest
          {| glyphOrder := glyphOrder font ++ [CapturedGlyph identity bitmap];
             cmap := cmap font
                     ++ match scalars identity with
                        | lead :: _ => [(lead, next)]
                        | [] => []
                        end |}
      else inl (InvalidBitmap identity)
  end.

(** Modelled from the spec: [assemble] of section 4.3. Glyph index 0 is
    reserved for the notdef glyph; an empty entry list fails with
    [EmptyCaptureSet], and a malformed bitmap fails the whole assembly. *)
Definition assemble (entries : list Entry) : AssemblyError + FontStructure :=
  match entries with
  | [] => inl EmptyCaptureSet
  | _ :: _ => addEntries 1 entries {| glyphOrder := [Notdef]; cmap := [] |}
  end.

(** Modelled from the spec: the order of [list(session)] in section 4.2,
    registry order for the standard glyphs, then insertion order for the
    custom glyphs. *)
Definition listSession (standard custom : list Entry) : list Entry :=
  standard ++ custom.

(** Two captures, for U+1F600 and U+1F603. *)
Definition blankBitmap : Bitmap :=
  {| width := CANONICAL_SIZE; height := CANONICAL_SIZE; format := RGBA;
     pixelAt := fun _ _ => (0, 0, 0, 0) |}.

Definition grinning : Entry :=
  ({| scalars := [0x1F600]; glyphName := lit "u1F600"; hexKey := lit "1f600" |},
   blankBitmap).

Definition smiley : Entry :=
  ({| scalars := [0x1F603]; glyphName := lit "u1F603"; hexKey := lit "1f603" |},
   blankBitmap).

End FontAssembler.

(* ===================================================================== *)
(** * Part II: properties                                                 *)
(* ===================================================================== *)

(** [H] says that a value is a member of a list of values, each of another
    constructor: there is no such member. *)
Ltac no_member H :=
  repeat (destruct H as [H|H]; [discriminate H|]); destruct H.

(** ** JavaScript strings *)
Module JSFacts.

Lemma falsy_nil (s : JSString) : falsy s = true <-> s = [].
Proof. destruct s; simpl; split; congruence. Qed.

Lemma str_eqb_eq (a b : JSString) : str_eqb a b = true <-> a = b.
Proof. unfold str_eqb. apply bool_decide_eq_true. Qed.

Lemma falsy_false (s : JSString) : falsy s = false <-> s <> [].
Proof. destruct s; simpl; split; congruence. Qed.

(** *** What [encodeURIComponent] writes *)

Lemma unescaped_not_delimiter (u : N) :
  isUriUnescaped u = true -> uriDelimiter u = false.
Proof.
  intros H. destruct (uriDelimiter u) eqn:E; [|reflexivity].
  unfold uriDelimiter in E. simpl in E.
  rewrite !orb_true_iff, !N.eqb_eq in E.
  destruct E as [->|[->|[->|[->|[->|E]]]]]; try discriminate H. discriminate E.
Qed.

Lemma delimiter_cases (u : N) :
  uriDelimiter u = true ->
  u = 0x2F \/ u = 0x3F \/ u = 0x23 \/ u = 0x26 \/ u = 0x3D.
Proof.
  unfold uriDelimiter. simpl. rewrite !orb_true_iff, !N.eqb_eq.
  intros [H|[H|[H|[H|[H|H]]]]]; try discriminate H; tauto.
Qed.

Lemma hexDigit_not_delimiter (n : N) : uriDelimiter (hexDigit n) = false.
Proof.
  destruct (uriDelimiter (hexDigit n)) eqn:E; [|reflexivity].
  apply delimiter_cases in E. unfold hexDigit in E.
  destruct (n <? 10) eqn:L; [apply N.ltb_lt in L | apply N.ltb_ge in L]; lia.
Qed.

Lemma percentEncode_not_delimiter (octet u : N) :
  In u (percentEncode octet) -> uriDelimiter u = false.
Proof.
  intros [<-|[<-|[<-|[]]]];
    [reflexivity | apply hexDigit_not_delimiter | apply hexDigit_not_delimiter].
Qed.

Lemma octets_not_delimiter (octets : list N) (u : N) :
  In u (flat_map percentEncode octets) -> uriDelimiter u = false.
Proof.
  rewrite in_flat_map. intros (octet & _ & H).
  now apply percentEncode_not_delimiter in H.
Qed.

Lemma encodeURIComponent_bounded (n : nat) (s encoded : JSString) :
  (length s <= n)%nat -> encodeURIComponent s = Some encoded ->
  forall u, In u encoded -> uriDelimiter u = false.
Proof.
  revert s encoded. induction n as [|n IH]; intros s encoded Hlen.
  - destruct s; [|simpl in Hlen; lia]. intros [= <-] u [].
  - destruct s as [|c rest]; [intros [= <-] u []|].
    simpl in Hlen. cbn [encodeURIComponent].
    destruct (isUriUnescaped c) eqn:Eu.
    { destruct (encodeURIComponent rest) as [t|] eqn:Er; [|discriminate].
      intros [= <-] u [<-|Hu]; [now apply unescaped_not_delimiter|].
      apply (IH rest t); [lia | exact Er | exact Hu]. }
    destruct (is_low_surrogate c); [discriminate|].
    destruct (is_high_surrogate c).
    + destruct rest as [|v rest']; [discriminate|].
      destruct (is_low_surrogate v); [|discriminate].
      destruct (encodeURIComponent rest') as [t|] eqn:Er; [|discriminate].
      intros [= <-] u Hu. apply in_app_iff in Hu. destruct Hu as [Hu|Hu].
      * now apply octets_not_delimiter in Hu.
      * apply (IH rest' t); [simpl in Hlen; lia | exact Er | exact Hu].
    + destruct (encodeURIComponent rest) as [t|] eqn:Er; [|discriminate].
      intros [= <-] u Hu. apply in_app_iff in Hu. destruct Hu as [Hu|Hu].
      * now apply octets_not_delimiter in Hu.
      * apply (IH rest t); [lia | exact Er | exact Hu].
Qed.

(** The encoded text holds none of the delimiters of a URL. *)
Lemma encodeURIComponent_no_delimiter (s encoded : JSString) :
  encodeURIComponent s = Some encoded ->
  forall u, In u encoded -> uriDelimiter u = false.
Proof. apply (encodeURIComponent_bounded (length s)). lia. Qed.


(** *** Prefixes and suffixes *)

Lemma startsWith_spec (s prefix : JSString) :
  startsWith s prefix = true <-> exists rest, s = prefix ++ rest.
Proof.
  revert s. induction prefix as [|p prefix IH]; intros s; simpl.
  - split; [intros _; now exists s | reflexivity].
  - destruct s as [|c s].
    + split; [discriminate | intros [rest H]; discriminate H].
    + rewrite andb_true_iff, N.eqb_eq, IH. split.
      * intros [-> [rest ->]]. now exists rest.
      * intros [rest [= -> ->]]. split; [reflexivity | now exists rest].
Qed.

Lemma endsWith_spec (s suffix : JSString) :
  endsWith s suffix = true <-> exists before, s = before ++ suffix.
Proof.
  unfold endsWith. rewrite startsWith_spec. split.
  - intros [rest H]. exists (rev rest).
    rewrite <- (rev_involutive s), H, rev_app_distr. now rewrite rev_involutive.
  - intros [before ->]. exists (rev before). apply rev_app_distr.
Qed.


(** *** [encodeURIComponent] is injective *)

(** Quotients and remainders as unknowns of their own, for [lia]. *)
Ltac hide_div :=
  repeat match goal with
         | H : context [N.div ?x ?y] |- _ =>
             let q := fresh "q" in remember (N.div x y) as q eqn:Hq; clear Hq
         | |- context [N.div ?x ?y] =>
             let q := fresh "q" in remember (N.div x y) as q eqn:Hq; clear Hq
         | H : context [N.modulo ?x ?y] |- _ =>
             let r := fresh "r" in remember (N.modulo x y) as r eqn:Hr; clear Hr
         | |- context [N.modulo ?x ?y] =>
             let r := fresh "r" in remember (N.modulo x y) as r eqn:Hr; clear Hr
         end.

Lemma div_mod_eq (a b d : N) :
  d <> 0 -> a / d = b / d -> a mod d = b mod d -> a = b.
Proof.
  intros Hd Hq Hr. rewrite (N.div_mod a d Hd), (N.div_mod b d Hd). congruence.
Qed.

Lemma hexDigit_inj (a b : N) : hexDigit a = hexDigit b -> a = b.
Proof.
  unfold hexDigit. destruct (N.ltb_spec a 10), (N.ltb_spec b 10); lia.
Qed.

Lemma percentEncode_inj (a b : N) : percentEncode a = percentEncode b -> a = b.
Proof.
  intros [= H1 H2]. apply hexDigit_inj in H1, H2.
  now apply (div_mod_eq a b 16).
Qed.

Lemma octets_inj (l1 l2 : list N) (t1 t2 : JSString) :
  length l1 = length l2 ->
  flat_map percentEncode l1 ++ t1 = flat_map percentEncode l2 ++ t2 ->
  l1 = l2 /\ t1 = t2.
Proof.
  revert l2. induction l1 as [|a l1 IH]; intros [|b l2] Hlen H;
    try discriminate Hlen.
  - now split.
  - cbn [flat_map] in H. rewrite <- !app_assoc in H.
    cbn [percentEncode app] in H. injection H as H1 H2 H.
    apply hexDigit_inj in H1, H2.
    assert (a = b) as -> by now apply (div_mod_eq a b 16).
    destruct (IH l2) as [-> ->]; [now injection Hlen | exact H | now split].
Qed.

(** The four forms of a UTF-8 sequence, by the range of the code point. *)
Lemma utf8_cases (cp : N) :
  (cp < 0x80 /\ utf8 cp = [cp])
  \/ (0x80 <= cp < 0x800 /\ cp / 64 < 32
      /\ utf8 cp = [0xC0 + cp / 64; 0x80 + cp mod 64])
  \/ (0x800 <= cp < 0x10000 /\ cp / 4096 < 16
      /\ utf8 cp = [0xE0 + cp / 4096; 0x80 + (cp / 64) mod 64; 0x80 + cp mod 64])
  \/ (0x10000 <= cp
      /\ utf8 cp = [0xF0 + cp / 262144; 0x80 + (cp / 4096) mod 64;
                    0x80 + (cp / 64) mod 64; 0x80 + cp mod 64]).
Proof.
  unfold utf8.
  destruct (cp <? 0x80) eqn:A; [apply N.ltb_lt in A; now left|].
  apply N.ltb_ge in A.
  destruct (cp <? 0x800) eqn:B.
  { apply N.ltb_lt in B. right; left. split; [lia|]. split; [|reflexivity].
    apply N.Div0.div_lt_upper_bound. lia. }
  apply N.ltb_ge in B.
  destruct (cp <? 0x10000) eqn:C.
  { apply N.ltb_lt in C. right; right; left. split; [lia|]. split; [|reflexivity].
    apply N.Div0.div_lt_upper_bound. lia. }
  apply N.ltb_ge in C. right; right; right. now split.
Qed.

Lemma utf8_inj_three (a b : N) :
  a / 4096 = b / 4096 -> (a / 64) mod 64 = (b / 64) mod 64 ->
  a mod 64 = b mod 64 -> a = b.
Proof.
  intros H1 H2 H3. apply (div_mod_eq a b 64); [discriminate| |exact H3].
  apply (div_mod_eq _ _ 64); [discriminate| |exact H2].
  rewrite !N.Div0.div_div. exact H1.
Qed.

Lemma utf8_inj_four (a b : N) :
  a / 262144 = b / 262144 -> (a / 4096) mod 64 = (b / 4096) mod 64 ->
  (a / 64) mod 64 = (b / 64) mod 64 -> a mod 64 = b mod 64 -> a = b.
Proof.
  intros H0 H1 H2 H3. apply utf8_inj_three; try assumption.
  apply (div_mod_eq _ _ 64); [discriminate| |exact H1].
  rewrite !N.Div0.div_div. exact H0.
Qed.

(** The percent-encoded octets of a code point begin with a percent sign,
    and the code point can be read back from the front of a text. *)
Lemma encoded_point_head (cp : N) :
  exists rest, flat_map percentEncode (utf8 cp) = PERCENT :: rest.
Proof.
  destruct (utf8_cases cp) as [(_ & ->) | [(_ & _ & ->) | [(_ & _ & ->) | (_ & ->)]]];
    cbn [flat_map percentEncode app]; now eexists.
Qed.

Lemma encoded_point_inj (a b : N) (t1 t2 : JSString) :
  flat_map percentEncode (utf8 a) ++ t1 = flat_map percentEncode (utf8 b) ++ t2 ->
  a = b /\ t1 = t2.
Proof.
  intros H.
  assert (Hlen : length (utf8 a) = length (utf8 b)).
  { destruct (utf8_cases a)
      as [(A & Ea) | [(A & A' & Ea) | [(A & A' & Ea) | (A & Ea)]]];
    destruct (utf8_cases b)
      as [(B & Eb) | [(B & B' & Eb) | [(B & B' & Eb) | (B & Eb)]]];
    rewrite Ea, Eb in H |- *; try reflexivity; exfalso;
    cbn [flat_map percentEncode app] in H; injection H as H1 H2 _;
    apply hexDigit_inj in H1, H2;
    match type of H1 with ?x / 16 = ?y / 16 =>
      assert (x = y) by (now apply (div_mod_eq x y 16)) end;
    clear H1 H2 Ea Eb; hide_div; lia. }
  destruct (octets_inj _ _ _ _ Hlen H) as [Hu Ht]. split; [|exact Ht].
  destruct (utf8_cases a)
    as [(A & Ea) | [(A & A' & Ea) | [(A & A' & Ea) | (A & Ea)]]];
  destruct (utf8_cases b)
    as [(B & Eb) | [(B & B' & Eb) | [(B & B' & Eb) | (B & Eb)]]];
  rewrite Ea, Eb in Hu; try discriminate Hu; clear Ea Eb H Hlen.
  - now injection Hu.
  - injection Hu as H1 H2.
    apply (div_mod_eq a b 64); [discriminate | |]; hide_div; lia.
  - injection Hu as H1 H2 H3. apply utf8_inj_three; hide_div; lia.
  - injection Hu as H1 H2 H3 H4. apply utf8_inj_four; hide_div; lia.
Qed.

(** What [encodeURIComponent] writes for the front of a string. *)
Lemma encodeURIComponent_head (s t : JSString) :
  encodeURIComponent s = Some t ->
  (s = [] /\ t = [])
  \/ (exists u rest t1,
        s = u :: rest /\ isUriUnescaped u = true
        /\ encodeURIComponent rest = Some t1 /\ t = u :: t1)
  \/ (exists cp consumed rest t1,
        s = consumed ++ rest /\ unitsOf consumed cp
        /\ encodeURIComponent rest = Some t1
        /\ t = flat_map percentEncode (utf8 cp) ++ t1).
Proof.
  destruct s as [|u rest]; intros H; [injection H as <-; now left|]. right.
  cbn [encodeURIComponent] in H. destruct (isUriUnescaped u) eqn:Eu.
  { destruct (encodeURIComponent rest) as [t1|] eqn:Er; [|discriminate H].
    injection H as <-. left. now exists u, rest, t1. }
  right. destruct (is_low_surrogate u) eqn:El; [discriminate H|].
  destruct (is_high_surrogate u) eqn:Eh.
  - destruct rest as [|v rest]; [discriminate H|].
    destruct (is_low_surrogate v) eqn:Ev; [|discriminate H].
    destruct (encodeURIComponent rest) as [t1|] eqn:Er; [|discriminate H].
    injection H as <-.
    exists (0x10000 + (u - 0xD800) * 0x400 + (v - 0xDC00)), [u; v], rest, t1.
    split; [reflexivity|]. split; [|now split].
    right. now exists u, v.
  - destruct (encodeURIComponent rest) as [t1|] eqn:Er; [|discriminate H].
    injection H as <-. exists u, [u], rest, t1.
    split; [reflexivity|]. split; [|now split]. now left.
Qed.

Lemma percent_is_escaped : isUriUnescaped PERCENT = false.
Proof. reflexivity. Qed.

Lemma unitsOf_inj (consumed consumed' : JSString) (cp : N) :
  unitsOf consumed cp -> unitsOf consumed' cp ->
  validUnits consumed -> validUnits consumed' -> consumed = consumed'.
Proof.
  intros [(-> & _ & _) | (u & v & -> & Hu & Hv & E)]
         [(-> & _ & _) | (u' & v' & -> & Hu' & Hv' & E')] Hc Hc';
    unfold is_high_surrogate, is_low_surrogate in *;
    rewrite ?andb_true_iff, ?N.leb_le in *.
  - reflexivity.
  - exfalso. pose proof (Hc cp (or_introl eq_refl)). lia.
  - exfalso. pose proof (Hc' cp (or_introl eq_refl)). lia.
  - assert (u = u') as -> by lia. assert (v = v') as -> by lia. reflexivity.
Qed.

Lemma unitsOf_length (consumed : JSString) (cp : N) :
  unitsOf consumed cp -> (1 <= length consumed)%nat.
Proof. intros [(-> & _) | (u & v & -> & _)]; simpl; lia. Qed.

Lemma validUnits_app (a b : JSString) :
  validUnits (a ++ b) -> validUnits a /\ validUnits b.
Proof.
  intros H. split; intros u Hu; apply H; apply in_app_iff; [now left | now right].
Qed.

Lemma escape_is_no_unescaped (u cp : N) (t1 t2 : JSString) :
  isUriUnescaped u = true ->
  u :: t1 <> flat_map percentEncode (utf8 cp) ++ t2.
Proof.
  intros Hu E. destruct (encoded_point_head cp) as [x Hx]. rewrite Hx in E.
  injection E as -> _. rewrite percent_is_escaped in Hu. discriminate Hu.
Qed.

Lemma escape_is_not_empty (cp : N) (t : JSString) :
  [] <> flat_map percentEncode (utf8 cp) ++ t.
Proof.
  intros E. destruct (encoded_point_head cp) as [x Hx]. rewrite Hx in E.
  discriminate E.
Qed.

Lemma encodeURIComponent_inj_bounded (n : nat) (s s' t : JSString) :
  (length s <= n)%nat -> validUnits s -> validUnits s' ->
  encodeURIComponent s = Some t -> encodeURIComponent s' = Some t -> s = s'.
Proof.
  revert s s' t. induction n as [|n IH]; intros s s' t Hlen Hv Hv' Hs Hs';
  destruct (encodeURIComponent_head s t Hs)
    as [[-> ->] | [(u & r & t1 & -> & Hu & Hr & ->)
                 | (cp & c & r & t1 & -> & Hc & Hr & ->)]];
  destruct (encodeURIComponent_head s' _ Hs')
    as [[-> E] | [(u' & r' & t1' & -> & Hu' & Hr' & E)
                | (cp' & c' & r' & t1' & -> & Hc' & Hr' & E)]];
  try reflexivity; try discriminate E;
  try (exfalso; now apply escape_is_not_empty in E);
  try (exfalso; symmetry in E; now apply escape_is_not_empty in E);
  try (exfalso; now apply (escape_is_no_unescaped u cp') in E);
  try (exfalso; symmetry in E; now apply (escape_is_no_unescaped u' cp) in E);
  try (simpl in Hlen; lia);
  try (pose proof (unitsOf_length c cp Hc); rewrite length_app in Hlen; lia).
  - injection E as -> ->. f_equal.
    apply (IH r r' t1'); try assumption; [simpl in Hlen; lia | |].
    + now apply (validUnits_app [u']).
    + now apply (validUnits_app [u']).
  - apply encoded_point_inj in E. destruct E as [-> ->].
    apply validUnits_app in Hv, Hv'. destruct Hv as [Hvc Hvr], Hv' as [Hvc' Hvr'].
    rewrite (unitsOf_inj c c' cp' Hc Hc' Hvc Hvc'). f_equal.
    apply (IH r r' t1'); try assumption.
    pose proof (unitsOf_length c cp' Hc). rewrite length_app in Hlen. lia.
Qed.

(** Two strings of 16-bit code units that encode to one text are the same
    string. *)
Lemma encodeURIComponent_inj (s s' t : JSString) :
  validUnits s -> validUnits s' ->
  encodeURIComponent s = Some t -> encodeURIComponent s' = Some t -> s = s'.
Proof. apply (encodeURIComponent_inj_bounded (length s)). lia. Qed.


(** *** The units that [encodeURIComponent] writes *)

Lemma lowerAscii_inv (u c : N) :
  lowerAscii u = c -> u = c \/ (u + 0x20 = c /\ 0x41 <= u /\ u <= 0x5A).
Proof.
  unfold lowerAscii. destruct ((0x41 <=? u) && (u <=? 0x5A)) eqn:E.
  - apply andb_true_iff in E. rewrite !N.leb_le in E. intros <-. now right.
  - now left.
Qed.

Lemma hexDigit_unescaped (n : N) : n < 16 -> isUriUnescaped (hexDigit n) = true.
Proof.
  intros Hn. unfold isUriUnescaped, hexDigit.
  destruct (N.ltb_spec n 10) as [L|L].
  - apply orb_true_iff. left. apply orb_true_iff. right.
    unfold isDigit. apply andb_true_iff. rewrite !N.leb_le. lia.
  - apply orb_true_iff. left. apply orb_true_iff. left. apply orb_true_iff. left.
    apply andb_true_iff. rewrite !N.leb_le. lia.
Qed.

Lemma percentEncode_units (octet u : N) :
  octet < 256 -> In u (percentEncode octet) ->
  isUriUnescaped u = true \/ u = PERCENT.
Proof.
  intros Ho [<-|[<-|[<-|[]]]]; [now right | left | left];
    apply hexDigit_unescaped.
  - apply N.Div0.div_lt_upper_bound. exact Ho.
  - apply N.mod_lt. discriminate.
Qed.

Lemma utf8_octets (cp o : N) : cp < 0x110000 -> In o (utf8 cp) -> o < 256.
Proof.
  intros Hcp Ho.
  pose proof (N.mod_lt cp 64 ltac:(discriminate)) as M1.
  pose proof (N.mod_lt (cp / 64) 64 ltac:(discriminate)) as M2.
  pose proof (N.mod_lt (cp / 4096) 64 ltac:(discriminate)) as M3.
  assert (M4 : cp / 262144 < 5) by (apply N.Div0.div_lt_upper_bound; lia).
  destruct (utf8_cases cp)
    as [(A & E) | [(A & A' & E) | [(A & A' & E) | (A & E)]]];
    rewrite E in Ho; clear E; simpl in Ho;
    repeat (destruct Ho as [<-|Ho]; [hide_div; lia|]); destruct Ho.
Qed.

Lemma escape_units (cp u : N) :
  cp < 0x110000 -> In u (flat_map percentEncode (utf8 cp)) ->
  isUriUnescaped u = true \/ u = PERCENT.
Proof.
  intros Hcp. rewrite in_flat_map. intros (o & Ho & Hu).
  apply (percentEncode_units o u); [|exact Hu].
  now apply (utf8_octets cp o).
Qed.

Lemma encodeURIComponent_units_bounded (n : nat) (s encoded : JSString) :
  (length s <= n)%nat -> validUnits s -> encodeURIComponent s = Some encoded ->
  forall u, In u encoded -> isUriUnescaped u = true \/ u = PERCENT.
Proof.
  revert s encoded. induction n as [|n IH]; intros s encoded Hlen Hv.
  - destruct s; [|simpl in Hlen; lia]. intros [= <-] u [].
  - destruct s as [|c rest]; [intros [= <-] u []|].
    simpl in Hlen. cbn [encodeURIComponent].
    assert (Hc : c < 0x10000) by (apply Hv; now left).
    assert (Hrest : validUnits rest) by (intros x Hx; apply Hv; now right).
    destruct (isUriUnescaped c) eqn:Eu.
    { destruct (encodeURIComponent rest) as [t|] eqn:Er; [|discriminate].
      intros [= <-] u [<-|Hu]; [now left|].
      apply (IH rest t); [lia | exact Hrest | exact Er | exact Hu]. }
    destruct (is_low_surrogate c); [discriminate|].
    destruct (is_high_surrogate c) eqn:Eh.
    + destruct rest as [|v rest']; [discriminate|].
      destruct (is_low_surrogate v) eqn:Ev; [|discriminate].
      destruct (encodeURIComponent rest') as [t|] eqn:Er; [|discriminate].
      intros [= <-] u Hu. apply in_app_iff in Hu. destruct Hu as [Hu|Hu].
      * apply (escape_units _ u) in Hu; [exact Hu|].
        unfold is_high_surrogate in Eh. unfold is_low_surrogate in Ev.
        apply andb_true_iff in Eh, Ev. rewrite !N.leb_le in Eh, Ev. lia.
      * apply (IH rest' t); [simpl in Hlen; lia | | exact Er | exact Hu].
        intros x Hx. apply Hrest. now right.
    + destruct (encodeURIComponent rest) as [t|] eqn:Er; [|discriminate].
      intros [= <-] u Hu. apply in_app_iff in Hu. destruct Hu as [Hu|Hu].
      * apply (escape_units c u) in Hu; [exact Hu | lia].
      * apply (IH rest t); [lia | exact Hrest | exact Er | exact Hu].
Qed.

(** The encoded text holds unreserved characters and percent signs only. *)
Lemma encodeURIComponent_units (s encoded : JSString) :
  validUnits s -> encodeURIComponent s = Some encoded ->
  forall u, In u encoded -> isUriUnescaped u = true \/ u = PERCENT.
Proof. apply (encodeURIComponent_units_bounded (length s)). lia. Qed.

(** An escape never spells the octet 2E of the dot. *)
Lemma escape_front (cp : N) (t1 : JSString) :
  (cp < 0x80 -> isUriUnescaped cp = false) ->
  exists h l tail,
    flat_map percentEncode (utf8 cp) ++ t1 = PERCENT :: h :: l :: tail
    /\ ~ (h = 0x32 /\ (l = 0x45 \/ l = 0x65)).
Proof.
  intros Hcp.
  destruct (utf8_cases cp)
    as [(A & E) | [(A & A' & E) | [(A & A' & E) | (A & E)]]];
    rewrite E; clear E; cbn [flat_map percentEncode app];
    do 3 eexists; (split; [reflexivity|]); intros [H1 H2].
  - assert (cp = 0x2E) as ->.
    { rewrite (N.div_mod cp 16) by discriminate.
      pose proof (N.mod_lt cp 16 ltac:(discriminate)) as M.
      unfold hexDigit in H1, H2.
      destruct (N.ltb_spec (cp / 16) 10), (N.ltb_spec (cp mod 16) 10);
        hide_div; lia. }
    specialize (Hcp A). discriminate Hcp.
  - assert (L : 12 <= (0xC0 + cp / 64) / 16)
      by (apply N.div_le_lower_bound; [discriminate | hide_div; lia]).
    unfold hexDigit in H1.
    destruct (N.ltb_spec ((0xC0 + cp / 64) / 16) 10); hide_div; lia.
  - assert (L : 12 <= (0xE0 + cp / 4096) / 16)
      by (apply N.div_le_lower_bound; [discriminate | hide_div; lia]).
    unfold hexDigit in H1.
    destruct (N.ltb_spec ((0xE0 + cp / 4096) / 16) 10); hide_div; lia.
  - assert (L : 12 <= (0xF0 + cp / 262144) / 16)
      by (apply N.div_le_lower_bound; [discriminate | hide_div; lia]).
    unfold hexDigit in H1.
    destruct (N.ltb_spec ((0xF0 + cp / 262144) / 16) 10); hide_div; lia.
Qed.

(** What [encodeURIComponent] writes first: nothing, an unreserved
    character of the string, or an escape. *)
Lemma encodeURIComponent_front (s t : JSString) :
  encodeURIComponent s = Some t ->
  (s = [] /\ t = [])
  \/ (exists u rest t1,
        s = u :: rest /\ isUriUnescaped u = true
        /\ encodeURIComponent rest = Some t1 /\ t = u :: t1)
  \/ (exists h l tail,
        t = PERCENT :: h :: l :: tail
        /\ ~ (h = 0x32 /\ (l = 0x45 \/ l = 0x65))).
Proof.
  destruct s as [|u rest]; intros H; [injection H as <-; now left|]. right.
  cbn [encodeURIComponent] in H. destruct (isUriUnescaped u) eqn:Eu.
  { destruct (encodeURIComponent rest) as [t1|] eqn:Er; [|discriminate H].
    injection H as <-. left. now exists u, rest, t1. }
  right. destruct (is_low_surrogate u) eqn:El; [discriminate H|].
  destruct (is_high_surrogate u) eqn:Eh.
  - destruct rest as [|v rest]; [discriminate H|].
    destruct (is_low_surrogate v) eqn:Ev; [|discriminate H].
    destruct (encodeURIComponent rest) as [t1|] eqn:Er; [|discriminate H].
    injection H as <-. apply escape_front. lia.
  - destruct (encodeURIComponent rest) as [t1|] eqn:Er; [|discriminate H].
    injection H as <-. apply escape_front. intros _. exact Eu.
Qed.

Lemma encodeURIComponent_nil (s : JSString) :
  encodeURIComponent s = Some [] -> s = [].
Proof.
  intros H. destruct (encodeURIComponent_front s [] H)
    as [[-> _] | [(u & rest & t1 & _ & _ & _ & E) | (h & l & tail & E & _)]];
    [reflexivity | discriminate E | discriminate E].
Qed.

(** A text that starts with an unreserved character encodes a string that
    starts with it. *)
Lemma encodeURIComponent_unescaped_front (s t : JSString) (u : N) :
  isUriUnescaped u = true -> encodeURIComponent s = Some (u :: t) ->
  exists rest, s = u :: rest /\ encodeURIComponent rest = Some t.
Proof.
  intros Hu H. destruct (encodeURIComponent_front s (u :: t) H)
    as [[_ E] | [(u' & rest & t1 & -> & _ & Er & E) | (h & l & tail & E & _)]].
  - discriminate E.
  - injection E as -> ->. now exists rest.
  - injection E as -> _. discriminate Hu.
Qed.

(** No text starts with the escape of a dot. *)
Lemma encodeURIComponent_no_dot_escape (s tail : JSString) (l : N) :
  encodeURIComponent s = Some (PERCENT :: 0x32 :: l :: tail) ->
  l = 0x45 \/ l = 0x65 -> False.
Proof.
  intros H Hl. destruct (encodeURIComponent_front s _ H)
    as [[_ E] | [(u' & rest & t1 & _ & Hu & _ & E) | (h & l' & tail' & E & Hno)]].
  - discriminate E.
  - injection E as <- _. discriminate Hu.
  - injection E as <- <- _. apply Hno. now split.
Qed.
End JSFacts.

(** ** lib/cookies.ts: the session cookie *)
Module CookiesFacts.
Import Cookies.

(** *** Splitting at a separator *)

Lemma splitFirst_app sep (a b : JSString) :
  ~ In sep a -> splitFirst sep (a ++ sep :: b) = (a, Some b).
Proof.
  induction a as [|c a IH]; intros Hnot; simpl.
  - now rewrite N.eqb_refl.
  - destruct (c =? sep) eqn:E.
    + apply N.eqb_eq in E. exfalso. apply Hnot. now left.
    + rewrite IH; [reflexivity|]. intros H. apply Hnot. now right.
Qed.

Lemma splitOn_app sep (a b : JSString) :
  ~ In sep a -> splitOn sep (a ++ sep :: b) = a :: splitOn sep b.
Proof.
  induction a as [|c a IH]; intros Hnot; simpl.
  - now rewrite N.eqb_refl.
  - destruct (c =? sep) eqn:E.
    + apply N.eqb_eq in E. exfalso. apply Hnot. now left.
    + rewrite IH; [reflexivity|]. intros H. apply Hnot. now right.
Qed.

(** A name is determined by the text up to the first equals sign. *)
Lemma first_split_unique sep (a a' b b' : JSString) :
  ~ In sep a -> ~ In sep a' -> a ++ sep :: b = a' ++ sep :: b' -> a = a'.
Proof.
  intros Ha Ha' E.
  pose proof (splitFirst_app sep a b Ha) as S.
  rewrite E, (splitFirst_app sep a' b' Ha') in S. now injection S.
Qed.

(** *** Trimming *)

Lemma head_rev_last (s : JSString) : head (rev s) = last s.
Proof.
  induction s as [|a s IH]; [reflexivity|].
  simpl rev. destruct s as [|b s]; [reflexivity|].
  change (last (a :: b :: s)) with (last (b :: s)). rewrite <- IH.
  destruct (rev (b :: s)) as [|x r] eqn:E; [|reflexivity].
  apply (f_equal (@length N)) in E. rewrite length_rev in E. discriminate E.
Qed.

Lemma isWSP_isWhiteSpace u : isWSP u = true -> isWhiteSpace u = true.
Proof.
  unfold isWSP. rewrite orb_true_iff, !N.eqb_eq. intros [-> | ->]; reflexivity.
Qed.

Lemma dropWSP_id (s : JSString) :
  (forall u, head s = Some u -> isWhiteSpace u = false) -> dropWSP s = s.
Proof.
  destruct s as [|u s]; [reflexivity|]. intros H. simpl.
  destruct (isWSP u) eqn:E; [|reflexivity].
  apply isWSP_isWhiteSpace in E. rewrite (H u eq_refl) in E. discriminate E.
Qed.

Lemma trimWSP_id (s : JSString) :
  (forall u, head s = Some u -> isWhiteSpace u = false) ->
  (forall u, last s = Some u -> isWhiteSpace u = false) ->
  trimWSP s = s.
Proof.
  intros Hh Hl. unfold trimWSP. rewrite (dropWSP_id s Hh).
  rewrite dropWSP_id; [apply rev_involutive|].
  intros u. rewrite head_rev_last. apply Hl.
Qed.

(** *** What the assignment stores *)

Lemma name_has_no_separator :
  ~ In SEMICOLON SESSION_COOKIE_NAME /\ ~ In EQUALS SESSION_COOKIE_NAME
  /\ ~ In SPACE SESSION_COOKIE_NAME.
Proof.
  repeat split; vm_compute; intros H;
    repeat (destruct H as [H|H]; [discriminate H|]); exact H.
Qed.

(** *** The conversion to a [USVString] *)

Lemma toUSVString_plain_prefix (a b : JSString) :
  (forall u, In u a -> u < 0xD800) ->
  toUSVString (a ++ b) = a ++ toUSVString b.
Proof.
  induction a as [|u a IH]; intros Ha; [reflexivity|].
  assert (Hu : u < 0xD800) by (apply Ha; now left).
  change ((u :: a) ++ b) with (u :: (a ++ b)). cbn [toUSVString].
  replace (is_high_surrogate u) with false
    by (symmetry; unfold is_high_surrogate; apply andb_false_iff; left;
        apply N.leb_gt; exact Hu).
  replace (is_low_surrogate u) with false
    by (symmetry; unfold is_low_surrogate; apply andb_false_iff; left;
        apply N.leb_gt; lia).
  rewrite IH; [reflexivity|]. intros v Hv. apply Ha. now right.
Qed.

Lemma toUSVString_app_fixed (n : nat) :
  forall (a rest : JSString),
    (length a <= n)%nat -> toUSVString a = a ->
    (forall c tail, rest = c :: tail -> is_low_surrogate c = false) ->
    toUSVString (a ++ rest) = a ++ toUSVString rest.
Proof.
  induction n as [|n IH]; intros a rest Hlen Ha Hrest;
    (destruct a as [|u a]; [reflexivity|]); simpl in Hlen; [lia|].
  change ((u :: a) ++ rest) with (u :: (a ++ rest)).
  cbn [toUSVString] in Ha |- *.
  destruct (is_high_surrogate u) eqn:Eh.
  - destruct a as [|v a].
    + injection Ha as <-. discriminate Eh.
    + change ((v :: a) ++ rest) with (v :: (a ++ rest)). cbv iota.
      destruct (is_low_surrogate v) eqn:El.
      * injection Ha as Ha. rewrite (IH a rest); [reflexivity | | exact Ha | exact Hrest].
        simpl in Hlen. lia.
      * injection Ha as <- _. discriminate Eh.
  - destruct (is_low_surrogate u) eqn:El.
    + injection Ha as <- _. discriminate El.
    + injection Ha as Ha. rewrite (IH a rest); [reflexivity | lia | exact Ha | exact Hrest].
Qed.

Lemma existsb_none {A : Type} (f : A -> bool) (l : list A) :
  (forall x, In x l -> f x = false) -> existsb f l = false.
Proof.
  induction l as [|x l IH]; intros H; [reflexivity|]. simpl.
  rewrite (H x (or_introl eq_refl)). apply IH. intros y Hy. apply H. now right.
Qed.

Lemma name_units_plain (u : N) :
  In u (SESSION_COOKIE_NAME ++ [EQUALS]) -> u < 0xD800.
Proof.
  vm_compute. intros H.
  repeat (destruct H as [<-|H]; [reflexivity|]). destruct H.
Qed.

(** The text [setSessionCookie] assigns, as the user agent receives it. *)
Lemma session_text_converted (rest : JSString) :
  toUSVString (SESSION_COOKIE_NAME ++ EQUALS :: rest)
  = SESSION_COOKIE_NAME ++ EQUALS :: toUSVString rest.
Proof.
  change (SESSION_COOKIE_NAME ++ EQUALS :: rest)
    with (SESSION_COOKIE_NAME ++ [EQUALS] ++ rest).
  rewrite app_assoc, (toUSVString_plain_prefix _ _ name_units_plain).
  now rewrite <- app_assoc.
Qed.

Lemma setSessionCookie_stores (sessionId : JSString) (jar : Jar) :
  plainId sessionId ->
  setSessionCookie sessionId jar
  = store {| cookieName := SESSION_COOKIE_NAME; cookieValue := sessionId |} jar.
Proof.
  intros (Hne & Hsemi & Hhead & Hlast & Hctl & Husv & Hsize).
  destruct name_has_no_separator as (Nsemi & Neq & _).
  unfold setSessionCookie, assignCookie.
  change (lit "=") with [EQUALS].
  change (lit "; path=/; max-age=") with (SEMICOLON :: lit " path=/; max-age=").
  set (attributes := lit " path=/; max-age=" ++ decimal COOKIE_MAX_AGE
                     ++ lit "; SameSite=Lax").
  replace (SESSION_COOKIE_NAME ++ [EQUALS] ++ sessionId
           ++ (SEMICOLON :: lit " path=/; max-age=")
           ++ decimal COOKIE_MAX_AGE ++ lit "; SameSite=Lax")
    with (SESSION_COOKIE_NAME ++ EQUALS :: (sessionId ++ SEMICOLON :: attributes))
    by reflexivity.
  rewrite session_text_converted.
  rewrite (toUSVString_app_fixed (length sessionId) sessionId
             (SEMICOLON :: attributes) (le_n _) Husv)
    by (intros c tail [= <- _]; reflexivity).
  replace (toUSVString (SEMICOLON :: attributes)) with (SEMICOLON :: attributes)
    by (vm_compute; reflexivity).
  replace (existsb isControl
             (SESSION_COOKIE_NAME ++ EQUALS :: sessionId ++ SEMICOLON :: attributes))
    with false.
  2:{ symmetry. change (EQUALS :: sessionId ++ SEMICOLON :: attributes)
        with ([EQUALS] ++ sessionId ++ SEMICOLON :: attributes).
      rewrite !existsb_app, (existsb_none isControl sessionId Hctl).
      vm_compute. reflexivity. }
  replace (SESSION_COOKIE_NAME ++ EQUALS :: sessionId ++ SEMICOLON :: attributes)
    with ((SESSION_COOKIE_NAME ++ EQUALS :: sessionId) ++ SEMICOLON :: attributes)
    by (now rewrite <- app_assoc).
  rewrite splitOn_app.
  2:{ rewrite in_app_iff. intros [H|[H|H]]; [now apply Nsemi | discriminate H | now apply Hsemi]. }
  unfold nameAndValue.
  rewrite (splitFirst_app EQUALS SESSION_COOKIE_NAME sessionId Neq).
  rewrite (trimWSP_id sessionId Hhead Hlast).
  replace (trimWSP SESSION_COOKIE_NAME) with SESSION_COOKIE_NAME
    by (vm_compute; reflexivity).
  change (falsy SESSION_COOKIE_NAME) with false. cbn [andb].
  replace (4096 <? octetLength SESSION_COOKIE_NAME + octetLength sessionId)
    with false by (symmetry; apply N.ltb_ge; exact Hsize).
  replace (maxAgeOf (splitOn SEMICOLON attributes))
    with (Some 604800%Z) by (vm_compute; reflexivity).
  reflexivity.
Qed.

Lemma store_split (c : Cookie) (jar : Jar) :
  exists before after,
    store c jar = before ++ c :: after
    /\ forall c', In c' before -> In c' jar /\ cookieName c' <> cookieName c.
Proof.
  induction jar as [|c' jar IH]; simpl.
  - exists [], []. split; [reflexivity | intros ? []].
  - unfold str_eqb. destruct (bool_decide (cookieName c' = cookieName c)) eqn:E.
    + exists [], jar. split; [reflexivity | intros ? []].
    + apply bool_decide_eq_false in E.
      destruct IH as (before & after & Hs & Hb).
      exists (c' :: before), after. split; [simpl; now rewrite Hs|].
      intros x [<-|Hx]; [split; [now left | exact E]|].
      destruct (Hb x Hx). split; [now right | assumption].
Qed.

(** *** What the regular expression finds *)

Lemma stripPrefix_app (prefix rest : JSString) :
  stripPrefix prefix (prefix ++ rest) = Some rest.
Proof.
  induction prefix as [|p prefix IH]; simpl; [now destruct rest|].
  now rewrite N.eqb_refl.
Qed.

Lemma stripPrefix_Some (prefix s rest : JSString) :
  stripPrefix prefix s = Some rest -> s = prefix ++ rest.
Proof.
  revert s. induction prefix as [|p prefix IH]; intros s; simpl.
  - destruct s; now intros [= ->].
  - destruct s as [|c s]; [discriminate|].
    destruct (c =? p) eqn:E; [|discriminate].
    apply N.eqb_eq in E. subst c. intros H. now rewrite (IH s H).
Qed.

Lemma takeUntil_app stop (value rest : JSString) :
  ~ In stop value -> rest = [] \/ head rest = Some stop ->
  takeUntil stop (value ++ rest) = value.
Proof.
  induction value as [|c value IH]; intros Hnot Hrest; simpl.
  - destruct Hrest as [->|Hh]; [reflexivity|].
    destruct rest as [|r rest]; [reflexivity|]. injection Hh as ->.
    simpl. now rewrite N.eqb_refl.
  - destruct (c =? stop) eqn:E.
    + apply N.eqb_eq in E. exfalso. apply Hnot. now left.
    + rewrite IH; [reflexivity| |assumption]. intros H. apply Hnot. now right.
Qed.

Lemma matchNameValue_session (sessionId rest : JSString) :
  sessionId <> [] -> ~ In SEMICOLON sessionId ->
  rest = [] \/ head rest = Some SEMICOLON ->
  matchNameValue
    (pairOf {| cookieName := SESSION_COOKIE_NAME; cookieValue := sessionId |}
     ++ rest)
  = Some sessionId.
Proof.
  intros Hne Hsemi Hrest. unfold matchNameValue, pairOf. cbn [cookieName cookieValue].
  change (falsy SESSION_COOKIE_NAME) with false. cbv iota.
  replace ((SESSION_COOKIE_NAME ++ EQUALS :: sessionId) ++ rest)
    with ((SESSION_COOKIE_NAME ++ [EQUALS]) ++ sessionId ++ rest)
    by (now rewrite <- !app_assoc).
  rewrite stripPrefix_app, takeUntil_app by assumption.
  destruct sessionId; [congruence | reflexivity].
Qed.

Lemma pairOf_named (c : Cookie) :
  cookieName c <> [] -> pairOf c = cookieName c ++ EQUALS :: cookieValue c.
Proof. unfold pairOf. now destruct (cookieName c). Qed.

Lemma matchNameValue_other (c : Cookie) (rest : JSString) :
  cookieName c <> [] ->
  ~ In EQUALS (cookieName c) -> cookieName c <> SESSION_COOKIE_NAME ->
  matchNameValue (pairOf c ++ rest) = None.
Proof.
  intros Hne Heq Hname. unfold matchNameValue.
  destruct (stripPrefix _ _) as [r|] eqn:E; [|reflexivity].
  exfalso. apply Hname. apply stripPrefix_Some in E.
  rewrite (pairOf_named c Hne) in E. rewrite <- !app_assoc in E. simpl in E.
  destruct name_has_no_separator as (_ & Neq & _).
  exact (first_split_unique EQUALS _ _ _ _ Heq Neq E).
Qed.

Lemma matchFrom_at_start (s value : JSString) :
  matchNameValue s = Some value -> matchFrom true s = Some value.
Proof.
  intros H. destruct s as [|x s]; [discriminate H|].
  cbn [matchFrom]. unfold matchHere. now rewrite H.
Qed.

Lemma matchFrom_after_space (s value : JSString) :
  matchNameValue s = Some value -> matchFrom false (SPACE :: s) = Some value.
Proof. intros H. cbn [matchFrom]. unfold matchHere. now rewrite N.eqb_refl, H. Qed.

Lemma matchFrom_space_other (s : JSString) :
  matchNameValue s = None -> matchFrom false (SPACE :: s) = matchFrom false s.
Proof. intros H. cbn [matchFrom]. unfold matchHere. now rewrite N.eqb_refl, H. Qed.

Lemma matchFrom_start_other (x : N) (s : JSString) :
  matchNameValue (x :: s) = None -> x <> SPACE ->
  matchFrom true (x :: s) = matchFrom false s.
Proof.
  intros H Hx. cbn [matchFrom]. unfold matchHere. rewrite H.
  apply N.eqb_neq in Hx. now rewrite Hx.
Qed.

Lemma matchFrom_skip (u rest : JSString) :
  ~ In SPACE u -> matchFrom false (u ++ rest) = matchFrom false rest.
Proof.
  induction u as [|c u IH]; intros Hnot; [reflexivity|].
  simpl app. cbn [matchFrom]. unfold matchHere.
  destruct (c =? SPACE) eqn:E.
  - apply N.eqb_eq in E. exfalso. apply Hnot. now left.
  - apply IH. intros H. apply Hnot. now right.
Qed.

Lemma pairOf_no_space (c : Cookie) :
  wellFormed c -> ~ In SPACE (pairOf c ++ [SEMICOLON]).
Proof.
  intros (Hne & _ & Hn & Hv). rewrite (pairOf_named c Hne).
  rewrite !in_app_iff. simpl. intros [[H|[H|H]]|[H|[]]];
    [now apply Hn | discriminate H | now apply Hv | discriminate H].
Qed.

Section Search.

Variable sessionId : JSString.
Variable after : Jar.
Hypothesis id_not_empty : sessionId <> [].
Hypothesis id_no_semicolon : ~ In SEMICOLON sessionId.

Local Abbreviation session :=
  {| cookieName := SESSION_COOKIE_NAME; cookieValue := sessionId |}.

Lemma readCookies_session :
  matchNameValue (readCookies (session :: after)) = Some sessionId.
Proof.
  cbn [readCookies]. apply matchNameValue_session; try assumption.
  destruct after; [now left | now right].
Qed.

Lemma readCookies_cons (c : Cookie) (before : Jar) :
  readCookies (c :: before ++ session :: after)
  = pairOf c ++ [SEMICOLON] ++ SPACE :: readCookies (before ++ session :: after).
Proof.
  cbn [readCookies]. destruct (before ++ session :: after) eqn:E; [|reflexivity].
  now destruct before.
Qed.

Lemma matchFrom_past_cookies (before : Jar) :
  (forall c, In c before -> wellFormed c /\ cookieName c <> SESSION_COOKIE_NAME) ->
  matchFrom false (SPACE :: readCookies (before ++ session :: after))
  = Some sessionId.
Proof.
  induction before as [|c before IH]; intros Hb.
  - apply matchFrom_after_space, readCookies_session.
  - destruct (Hb c (or_introl eq_refl)) as [Hwf Hname].
    change ((c :: before) ++ session :: after)
      with (c :: before ++ session :: after).
    rewrite readCookies_cons.
    rewrite matchFrom_space_other
      by (apply matchNameValue_other; [apply Hwf | apply Hwf | assumption]).
    rewrite app_assoc, matchFrom_skip by now apply pairOf_no_space.
    apply IH. intros c' Hc'. apply Hb. now right.
Qed.

Lemma matchFrom_finds_session (before : Jar) :
  (forall c, In c before -> wellFormed c /\ cookieName c <> SESSION_COOKIE_NAME) ->
  matchFrom true (readCookies (before ++ session :: after)) = Some sessionId.
Proof.
  destruct before as [|c before]; intros Hb.
  - apply matchFrom_at_start, readCookies_session.
  - destruct (Hb c (or_introl eq_refl)) as [Hwf Hname].
    change ((c :: before) ++ session :: after)
      with (c :: before ++ session :: after).
    rewrite readCookies_cons.
    pose proof (matchNameValue_other c
                  ([SEMICOLON] ++ SPACE :: readCookies (before ++ session :: after))
                  (proj1 Hwf) (proj1 (proj2 Hwf)) Hname) as Hnone.
    pose proof (pairOf_no_space c Hwf) as Hsp.
    rewrite app_assoc in Hnone |- *.
    destruct (pairOf c ++ [SEMICOLON]) as [|x u] eqn:Ep.
    { destruct (pairOf c); discriminate Ep. }
    cbn [app] in Hnone |- *.
    rewrite matchFrom_start_other;
      [|exact Hnone | intros ->; apply Hsp; now left].
    rewrite matchFrom_skip by (intros H; apply Hsp; now right).
    apply matchFrom_past_cookies. intros c' Hc'. apply Hb. now right.
Qed.

End Search.

Lemma round_trip_others (jar : Jar) (sessionId : JSString) :
  othersWellFormed jar -> plainId sessionId ->
  getSessionCookie (setSessionCookie sessionId jar) = Some sessionId.
Proof.
  intros Hjar Hid. rewrite (setSessionCookie_stores sessionId jar Hid).
  destruct Hid as (Hne & Hsemi & _).
  destruct (store_split {| cookieName := SESSION_COOKIE_NAME;
                           cookieValue := sessionId |} jar)
    as (before & after & -> & Hb).
  unfold getSessionCookie. apply matchFrom_finds_session; try assumption.
  intros c Hc. destruct (Hb c Hc) as [Hin Hn].
  split; [now apply Hjar | exact Hn].
Qed.

(** C10 (amended). Let the cookies of the store other than the session
    cookie be well formed. For a session id that is not empty, holds no
    semicolon and no control character, has no white space at either end
    and no surrogate without its pair, and with which the cookie takes no
    more than 4096 octets, [getSessionCookie] after [setSessionCookie id]
    returns [id]. *)
Theorem session_cookie_round_trip (jar : Jar) (sessionId : JSString) :
  othersWellFormed jar ->
  plainId sessionId ->
  getSessionCookie (setSessionCookie sessionId jar) = Some sessionId.
Proof. apply round_trip_others. Qed.

(** Two round trips that fail for an id that is not empty, holds no
    semicolon and has no white space at either end: the assignment of an
    id with a control character is ignored, so that nothing is read back
    from an empty store; and the expression finds its first match in the
    value of a cookie listed before the session cookie. *)
Lemma session_cookie_round_trip_fails :
  ~ (controlId <> [] -> ~ In SEMICOLON controlId ->
     (forall u, head controlId = Some u -> isWhiteSpace u = false) ->
     (forall u, last controlId = Some u -> isWhiteSpace u = false) ->
     getSessionCookie (setSessionCookie controlId []) = Some controlId)
  /\ ~ (exampleId <> [] -> ~ In SEMICOLON exampleId ->
        (forall u, head exampleId = Some u -> isWhiteSpace u = false) ->
        (forall u, last exampleId = Some u -> isWhiteSpace u = false) ->
        getSessionCookie (setSessionCookie exampleId spoofedJar)
        = Some exampleId).
Proof.
  split; intros H.
  - assert (E : getSessionCookie (setSessionCookie controlId []) = Some controlId).
    { apply H.
      - discriminate.
      - vm_compute. intros F.
        repeat (destruct F as [F|F]; [discriminate F|]). exact F.
      - intros u F. vm_compute in F. injection F as <-. reflexivity.
      - intros u F. vm_compute in F. injection F as <-. reflexivity. }
    vm_compute in E. discriminate E.
  - assert (E : getSessionCookie (setSessionCookie exampleId spoofedJar)
                = Some exampleId).
    { apply H.
      - vm_compute. discriminate.
      - vm_compute. intros F.
        repeat (destruct F as [F|F]; [discriminate F|]). exact F.
      - intros u F. vm_compute in F. injection F as <-. reflexivity.
      - intros u F. vm_compute in F. injection F as <-. reflexivity. }
    vm_compute in E. discriminate E.
Qed.

Example control_id_not_stored :
  setSessionCookie controlId [] = []
  /\ getSessionCookie (setSessionCookie controlId []) = None.
Proof. split; vm_compute; reflexivity. Qed.

Example spoofed_session_read :
  getSessionCookie (setSessionCookie exampleId spoofedJar) = Some (lit "evil").
Proof. vm_compute. reflexivity. Qed.

(** An id with a surrogate without its pair is read back changed. *)
Example lone_surrogate_replaced :
  getSessionCookie (setSessionCookie [0x61; 0xD800] []) = Some [0x61; 0xFFFD].
Proof. vm_compute. reflexivity. Qed.

Lemma exampleId_plain : plainId exampleId.
Proof.
  repeat split.
  - vm_compute. discriminate.
  - vm_compute. intros H.
    repeat (destruct H as [H|H]; [discriminate H|]). exact H.
  - intros u H. vm_compute in H. injection H as <-. reflexivity.
  - intros u H. vm_compute in H. injection H as <-. reflexivity.
  - intros u H. vm_compute in H.
    repeat (destruct H as [<-|H]; [reflexivity|]). destruct H.
  - vm_compute. discriminate.
Qed.

Lemma exampleJar_others : othersWellFormed exampleJar.
Proof.
  intros c [<-|[]] _. repeat split; vm_compute; intros H;
    repeat (destruct H as [H|H]; [discriminate H|]); try discriminate H; exact H.
Qed.

Example clear_after_set :
  getSessionCookie (clearSessionCookie (setSessionCookie exampleId exampleJar))
  = None.
Proof. vm_compute. reflexivity. Qed.

(** Outside the theorem's premises: an empty id is not read back, and an id
    is cut at its first semicolon. *)
Example empty_id_not_read_back : getSessionCookie (setSessionCookie [] []) = None.
Proof. vm_compute. reflexivity. Qed.

Example id_cut_at_semicolon :
  getSessionCookie (setSessionCookie (lit "ab;cd") []) = Some (lit "ab").
Proof. vm_compute. reflexivity. Qed.

(** The round trip in a store that holds another cookie. *)
Lemma session_cookie_round_trip_example :
  getSessionCookie (setSessionCookie exampleId exampleJar) = Some exampleId.
Proof.
  apply (session_cookie_round_trip exampleJar exampleId).
  - apply exampleJar_others.
  - apply exampleId_plain.
Defined.

(** *** The store around the session cookie *)

Lemma splitOn_head sep (s : JSString) :
  exists pieces, splitOn sep s = takeUntil sep s :: pieces.
Proof.
  induction s as [|c s (pieces & IH)]; simpl; [now exists []|].
  destruct (c =? sep); [now eexists|]. rewrite IH. now eexists.
Qed.

Lemma takeUntil_prefix stop (a b : JSString) :
  ~ In stop a -> takeUntil stop (a ++ b) = a ++ takeUntil stop b.
Proof.
  induction a as [|c a IH]; intros Hnot; simpl; [reflexivity|].
  destruct (c =? stop) eqn:E.
  - apply N.eqb_eq in E. exfalso. apply Hnot. now left.
  - rewrite IH; [reflexivity|]. intros H. apply Hnot. now right.
Qed.

(** Whatever follows [tomoji_session=] in the assigned text, the assignment
    touches the session cookie only: it is ignored, or it evicts the
    session cookie, or it stores a value in it. *)
Lemma assignCookie_session (rest : JSString) (jar : Jar) :
  assignCookie (SESSION_COOKIE_NAME ++ EQUALS :: rest) jar = jar
  \/ assignCookie (SESSION_COOKIE_NAME ++ EQUALS :: rest) jar
     = evict SESSION_COOKIE_NAME jar
  \/ exists value,
       assignCookie (SESSION_COOKIE_NAME ++ EQUALS :: rest) jar
       = store {| cookieName := SESSION_COOKIE_NAME; cookieValue := value |} jar.
Proof.
  destruct name_has_no_separator as (Nsemi & Neq & _).
  unfold assignCookie. rewrite session_text_converted.
  destruct (existsb isControl _); [now left|].
  destruct (splitOn_head SEMICOLON
              (SESSION_COOKIE_NAME ++ EQUALS :: toUSVString rest))
    as (attributes & ->).
  rewrite (takeUntil_prefix SEMICOLON _ _ Nsemi).
  change (takeUntil SEMICOLON (EQUALS :: toUSVString rest))
    with (EQUALS :: takeUntil SEMICOLON (toUSVString rest)).
  unfold nameAndValue.
  rewrite (splitFirst_app EQUALS SESSION_COOKIE_NAME _ Neq).
  replace (trimWSP SESSION_COOKIE_NAME) with SESSION_COOKIE_NAME
    by (vm_compute; reflexivity).
  change (falsy SESSION_COOKIE_NAME) with false. cbn [andb].
  destruct (4096 <? _); [now left|].
  destruct (maxAgeOf attributes) as [delta|]; [|right; right; now eexists].
  destruct (delta <=? 0)%Z; [right; now left | right; right; now eexists].
Qed.

Lemma setSessionCookie_cases (sessionId : JSString) (jar : Jar) :
  setSessionCookie sessionId jar = jar
  \/ setSessionCookie sessionId jar = evict SESSION_COOKIE_NAME jar
  \/ exists value,
       setSessionCookie sessionId jar
       = store {| cookieName := SESSION_COOKIE_NAME; cookieValue := value |} jar.
Proof. apply assignCookie_session. Qed.

Lemma clearSessionCookie_evicts (jar : Jar) :
  clearSessionCookie jar = evict SESSION_COOKIE_NAME jar.
Proof.
  unfold clearSessionCookie, assignCookie.
  replace (toUSVString (SESSION_COOKIE_NAME ++ lit "=; path=/; max-age=0"))
    with (SESSION_COOKIE_NAME ++ lit "=; path=/; max-age=0")
    by (vm_compute; reflexivity).
  replace (existsb isControl (SESSION_COOKIE_NAME ++ lit "=; path=/; max-age=0"))
    with false by (vm_compute; reflexivity).
  replace (splitOn SEMICOLON (SESSION_COOKIE_NAME ++ lit "=; path=/; max-age=0"))
    with [SESSION_COOKIE_NAME ++ [EQUALS]; lit " path=/"; lit " max-age=0"]
    by (vm_compute; reflexivity).
  replace (nameAndValue (SESSION_COOKIE_NAME ++ [EQUALS]))
    with (SESSION_COOKIE_NAME, @nil N) by (vm_compute; reflexivity).
  change (falsy SESSION_COOKIE_NAME) with false. cbn [andb].
  replace (4096 <? octetLength SESSION_COOKIE_NAME + octetLength [])
    with false by (vm_compute; reflexivity).
  replace (maxAgeOf [lit " path=/"; lit " max-age=0"]) with (Some 0%Z)
    by (vm_compute; reflexivity).
  reflexivity.
Qed.

Lemma In_evict (name : JSString) (c : Cookie) (jar : Jar) :
  In c (evict name jar) <-> In c jar /\ cookieName c <> name.
Proof.
  unfold evict. rewrite <- !list_elem_of_In, list_elem_of_filter. tauto.
Qed.

Lemma In_store_other (c0 c : Cookie) (jar : Jar) :
  cookieName c <> cookieName c0 -> In c (store c0 jar) <-> In c jar.
Proof.
  intros Hname. induction jar as [|c' jar IH]; simpl.
  - split; [intros [<-|[]]; congruence | intros []].
  - unfold str_eqb. destruct (bool_decide (cookieName c' = cookieName c0)) eqn:E.
    + apply bool_decide_eq_true in E. simpl.
      split; (intros [<-|H]; [congruence | now right]).
    + simpl. rewrite IH. reflexivity.
Qed.

Lemma othersWellFormed_evict (jar : Jar) :
  othersWellFormed jar -> othersWellFormed (evict SESSION_COOKIE_NAME jar).
Proof. intros H c Hc. apply In_evict in Hc. now apply H. Qed.

Lemma othersWellFormed_store (value : JSString) (jar : Jar) :
  othersWellFormed jar ->
  othersWellFormed
    (store {| cookieName := SESSION_COOKIE_NAME; cookieValue := value |} jar).
Proof.
  intros H c Hc Hname. apply In_store_other in Hc; [now apply H | exact Hname].
Qed.

Lemma othersWellFormed_set (sessionId : JSString) (jar : Jar) :
  othersWellFormed jar -> othersWellFormed (setSessionCookie sessionId jar).
Proof.
  intros H.
  destruct (setSessionCookie_cases sessionId jar) as [-> | [-> | (v & ->)]];
    [exact H | now apply othersWellFormed_evict
     | now apply othersWellFormed_store].
Qed.

(** The pairs of cookies of other names hold no match of the expression. *)
Lemma matchFrom_no_session (jar : Jar) :
  (forall c, In c jar -> wellFormed c /\ cookieName c <> SESSION_COOKIE_NAME) ->
  matchFrom false (SPACE :: readCookies jar) = None
  /\ matchFrom true (readCookies jar) = None.
Proof.
  induction jar as [|c jar IH]; intros Hjar; [split; reflexivity|].
  destruct (Hjar c (or_introl eq_refl)) as [Hwf Hname].
  destruct IH as [IH _]; [intros c' Hc'; apply Hjar; now right|].
  pose proof (pairOf_no_space c Hwf) as Hsp.
  assert (Hpair : ~ In SPACE (pairOf c))
    by (intros H; apply Hsp; apply in_app_iff; now left).
  assert (Hrest : forall rest, matchNameValue (pairOf c ++ rest) = None)
    by (intros rest; apply matchNameValue_other;
        [apply Hwf | apply Hwf | exact Hname]).
  assert (Htail : matchFrom false (readCookies (c :: jar)) = None).
  { cbn [readCookies]. rewrite matchFrom_skip by exact Hpair.
    destruct jar as [|c' jar]; [reflexivity|].
    change (SEMICOLON :: SPACE :: readCookies (c' :: jar))
      with ([SEMICOLON] ++ SPACE :: readCookies (c' :: jar)).
    rewrite matchFrom_skip; [exact IH|]. intros [H|[]]. discriminate H. }
  split.
  - rewrite matchFrom_space_other; [exact Htail|].
    cbn [readCookies]. apply Hrest.
  - pose proof (Hrest match jar with
                      | [] => []
                      | _ :: _ => SEMICOLON :: SPACE :: readCookies jar
                      end) as Hnone.
    change (matchNameValue (readCookies (c :: jar)) = None) in Hnone.
    destruct (readCookies (c :: jar)) as [|x u] eqn:E; [reflexivity|].
    rewrite matchFrom_start_other; [| exact Hnone |].
    { cbn [matchFrom] in Htail.
      now destruct (matchHere false (x :: u)). }
    intros ->. apply Hpair. cbn [readCookies] in E.
    destruct (pairOf c) as [|y p] eqn:Ep.
    { rewrite (pairOf_named c (proj1 Hwf)) in Ep.
      destruct (cookieName c); discriminate Ep. }
    injection E as <- _. now left.
Qed.

(** X1. In a store that holds no cookie named [tomoji_session], beside
    well-formed cookies, [getSessionCookie] returns null. *)
Theorem getSessionCookie_absent (jar : Jar) :
  (forall c, In c jar -> wellFormed c /\ cookieName c <> SESSION_COOKIE_NAME) ->
  getSessionCookie jar = None.
Proof. intros H. apply (matchFrom_no_session jar H). Qed.

Lemma getSessionCookie_absent_example : getSessionCookie exampleJar = None.
Proof.
  apply (getSessionCookie_absent exampleJar).
  intros c [<-|[]]. split; [|vm_compute; discriminate].
  repeat split; vm_compute; intros H;
    repeat (destruct H as [H|H]; [discriminate H|]); try discriminate H; exact H.
Defined.

(** X2. After [clearSessionCookie], [getSessionCookie] returns null,
    whatever the session cookie held before, when the other cookies of the
    store are well formed. *)
Theorem clearSessionCookie_then_get (jar : Jar) :
  othersWellFormed jar ->
  getSessionCookie (clearSessionCookie jar) = None.
Proof.
  intros H. rewrite clearSessionCookie_evicts.
  apply (matchFrom_no_session (evict SESSION_COOKIE_NAME jar)).
  intros c Hc. apply In_evict in Hc. destruct Hc as [Hin Hname].
  split; [now apply H | exact Hname].
Qed.

Lemma themeCookie_wellFormed : wellFormed themeCookie.
Proof.
  repeat split; vm_compute; intros H;
    repeat (destruct H as [H|H]; [discriminate H|]); try discriminate H; exact H.
Qed.

Lemma sessionJar_others : othersWellFormed sessionJar.
Proof.
  intros c [<-|[<-|[]]] Hname; [apply themeCookie_wellFormed|].
  now contradiction Hname.
Qed.

Lemma clearSessionCookie_then_get_example :
  getSessionCookie (clearSessionCookie sessionJar) = None.
Proof. apply (clearSessionCookie_then_get sessionJar), sessionJar_others. Defined.

(** X3. The last write wins: after [setSessionCookie b], [getSessionCookie]
    returns [b], whatever id without a semicolon was set before it (also
    one the round trip would not preserve) and also after
    [clearSessionCookie]. [b] is not empty, holds no semicolon and no
    control character, has no white space at either end and no surrogate
    without its pair, and the cookie takes no more than 4096 octets with
    it; the other cookies of the store are well formed. *)
Theorem setSessionCookie_last_wins (jar : Jar) (a b : JSString) :
  othersWellFormed jar -> ~ In SEMICOLON a -> plainId b ->
  getSessionCookie (setSessionCookie b (setSessionCookie a jar)) = Some b
  /\ getSessionCookie (setSessionCookie b (clearSessionCookie jar)) = Some b.
Proof.
  intros Hjar _ Hb. split; apply round_trip_others; try assumption.
  - now apply othersWellFormed_set.
  - rewrite clearSessionCookie_evicts. now apply othersWellFormed_evict.
Qed.

Lemma setSessionCookie_last_wins_example :
  getSessionCookie
    (setSessionCookie exampleId (setSessionCookie (lit " x y ") sessionJar))
  = Some exampleId
  /\ getSessionCookie (setSessionCookie exampleId (clearSessionCookie sessionJar))
     = Some exampleId.
Proof.
  apply (setSessionCookie_last_wins sessionJar (lit " x y ") exampleId).
  - apply sessionJar_others.
  - vm_compute. intros H.
    repeat (destruct H as [H|H]; [discriminate H|]). exact H.
  - apply exampleId_plain.
Defined.

(** X4. [setSessionCookie] and [clearSessionCookie] leave the cookies of
    every other name in the store, and add none: for any id, a cookie
    whose name is not [tomoji_session] is in the store afterwards exactly
    when it was there before. *)
Theorem session_cookie_writes_keep_others
    (sessionId : JSString) (jar : Jar) (c : Cookie) :
  cookieName c <> SESSION_COOKIE_NAME ->
  (In c (setSessionCookie sessionId jar) <-> In c jar)
  /\ (In c (clearSessionCookie jar) <-> In c jar).
Proof.
  intros Hname. split.
  - destruct (setSessionCookie_cases sessionId jar) as [-> | [-> | (v & ->)]].
    + reflexivity.
    + rewrite In_evict. tauto.
    + now apply In_store_other.
  - rewrite clearSessionCookie_evicts, In_evict. tauto.
Qed.

Lemma session_cookie_writes_keep_others_example :
  (In themeCookie (setSessionCookie exampleId sessionJar)
   <-> In themeCookie sessionJar)
  /\ (In themeCookie (clearSessionCookie sessionJar) <-> In themeCookie sessionJar).
Proof.
  apply (session_cookie_writes_keep_others exampleId sessionJar themeCookie).
  vm_compute. discriminate.
Defined.

(** The value the expression captures is never empty. *)
Lemma matchNameValue_nonempty (s value : JSString) :
  matchNameValue s = Some value -> value <> [].
Proof.
  unfold matchNameValue. destruct (stripPrefix _ s) as [rest|]; [|discriminate].
  destruct (takeUntil SEMICOLON rest) as [|c v]; [discriminate|].
  intros [= <-]. discriminate.
Qed.

Lemma matchFrom_nonempty (atStart : bool) (s value : JSString) :
  matchFrom atStart s = Some value -> value <> [].
Proof.
  revert atStart. induction s as [|c s IH]; intros atStart.
  - cbn [matchFrom]. unfold matchHere.
    destruct atStart; [|discriminate].
    destruct (matchNameValue []) as [v|] eqn:E; [|discriminate].
    intros [= <-]. now apply matchNameValue_nonempty in E.
  - cbn [matchFrom]. unfold matchHere.
    destruct (if atStart then matchNameValue (c :: s) else None) as [v|] eqn:E.
    + intros [= <-]. destruct atStart; [|discriminate E].
      now apply matchNameValue_nonempty in E.
    + destruct (c =? SPACE).
      * destruct (matchNameValue s) as [v|] eqn:E'.
        -- intros [= <-]. now apply matchNameValue_nonempty in E'.
        -- apply IH.
      * apply IH.
Qed.

Lemma getSessionCookie_nonempty (jar : Jar) (sessionId : JSString) :
  getSessionCookie jar = Some sessionId -> sessionId <> [].
Proof. apply matchFrom_nonempty. Qed.

End CookiesFacts.

(** ** lib/api.ts: the response handler *)
Module ApiFacts.
Import Api.

Section HandleResponseFacts.

Variable numberToString : Q -> JSString.
Variable nullReadMessage : JSString.

Local Abbreviation handle := (handleResponse numberToString nullReadMessage).

Lemma ok_not_429 res : ok res = true -> status res <> 429%Z.
Proof. unfold ok. intros H%andb_true_iff. lia. Qed.

Lemma handleResponse_429 res errorMessage :
  status res = 429%Z ->
  handle res errorMessage = Throw (RateLimitError defaultRateLimitMessage).
Proof. intros H. unfold handleResponse. now rewrite H. Qed.

(** [new Error] never makes a [RateLimitError]. *)
Lemma throwNewError_throws detail errorMessage :
  exists e, throwNewError numberToString detail errorMessage = Throw e
            /\ instanceofRateLimitError e = false.
Proof.
  unfold throwNewError.
  destruct (detailOr numberToString detail errorMessage);
    eexists; split; reflexivity.
Qed.

Lemma throwNewError_not_rate_limit detail errorMessage m :
  throwNewError numberToString detail errorMessage
  <> Throw (RateLimitError m).
Proof.
  unfold throwNewError.
  destruct (detailOr numberToString detail errorMessage); discriminate.
Qed.

Lemma handleResponse_rate_limit_iff res errorMessage :
  (exists m, handle res errorMessage = Throw (RateLimitError m))
  <-> status res = 429%Z.
Proof.
  split.
  - intros [m H]. unfold handleResponse, json_body in H.
    destruct (status res =? 429)%Z eqn:E; [lia|].
    destruct (negb (ok res)).
    + destruct (getProperty _ _); try discriminate H.
      now apply throwNewError_not_rate_limit in H.
    + destruct (body res); discriminate H.
  - intros H. eexists. now apply handleResponse_429.
Qed.

Lemma handleResponse_ok res errorMessage :
  ok res = true -> handle res errorMessage = json_body res.
Proof.
  intros Hok. pose proof (ok_not_429 res Hok) as Hs.
  unfold handleResponse. rewrite Hok. simpl.
  destruct (status res =? 429)%Z eqn:E; [lia | reflexivity].
Qed.

(** The body the error branch reads [detail] from. *)
Lemma handleResponse_not_ok res errorMessage :
  status res <> 429%Z -> ok res = false ->
  handle res errorMessage =
  match getProperty (match json_body res with Return j => j | Throw _ => JObj [] end)
          (lit "detail") with
  | OfNull => Throw (TypeError nullReadMessage)
  | Got detail => throwNewError numberToString detail errorMessage
  end.
Proof.
  intros Hs Hok. unfold handleResponse. rewrite Hok. simpl.
  destruct (status res =? 429)%Z eqn:E; [lia | reflexivity].
Qed.

(** C9 (amended). [handleResponse] throws [RateLimitError] exactly when the
    status is 429. For any other response that is not ok and whose body is
    not the JSON value [null], it throws an [Error] whose message is the
    body's [detail] as a string when the body parses to a value with a
    truthy [detail] that converts to a string, and the fallback message
    when the [detail] is falsy or missing or the body is not JSON. For an ok
    response it completes as [res.json()] does: it returns the parsed body,
    and rejects with the parser's error when the body is not JSON. *)
Theorem handleResponse_by_status (res : Response) (errorMessage : JSString) :
  ((exists m, handleResponse numberToString nullReadMessage res errorMessage
              = Throw (RateLimitError m))
   <-> status res = 429%Z)
  /\ (status res <> 429%Z -> ok res = false ->
      (forall j d text, body res = Parsed j ->
         getProperty j (lit "detail") = Got (Some d) -> truthy d = true ->
         toString numberToString d = Some text ->
         handleResponse numberToString nullReadMessage res errorMessage
         = Throw (Error text))
      /\ (forall j d, body res = Parsed j ->
         getProperty j (lit "detail") = Got (Some d) -> truthy d = false ->
         handleResponse numberToString nullReadMessage res errorMessage
         = Throw (Error errorMessage))
      /\ (forall j, body res = Parsed j ->
         getProperty j (lit "detail") = Got None ->
         handleResponse numberToString nullReadMessage res errorMessage
         = Throw (Error errorMessage))
      /\ (forall m, body res = Unparsable m ->
         handleResponse numberToString nullReadMessage res errorMessage
         = Throw (Error errorMessage)))
  /\ (ok res = true ->
      (forall j, body res = Parsed j ->
         handleResponse numberToString nullReadMessage res errorMessage = Return j)
      /\ (forall m, body res = Unparsable m ->
         handleResponse numberToString nullReadMessage res errorMessage
         = Throw (SyntaxError m))).
Proof.
  split; [apply handleResponse_rate_limit_iff|]. split.
  - intros Hs Hok. rewrite (handleResponse_not_ok _ _ Hs Hok). unfold json_body.
    repeat split.
    + intros j d text -> -> Ht Hd. unfold throwNewError, detailOr.
      now rewrite Ht, Hd.
    + intros j d -> -> Ht. unfold throwNewError, detailOr. now rewrite Ht.
    + intros j -> ->. reflexivity.
    + intros m ->. reflexivity.
  - intros Hok. rewrite (handleResponse_ok _ _ Hok). unfold json_body.
    split; [intros j -> | intros m ->]; reflexivity.
Qed.

End HandleResponseFacts.

(** A 404 in the back end's shape carries its [detail]. *)
Lemma handleResponse_notFound404 :
  handleResponse refNumberToString refNullReadMessage notFound404
    (lit "Failed to validate session")
  = Throw (Error (lit "Session not found")).
Proof.
  apply (proj1 (proj1 (proj2
    (handleResponse_by_status refNumberToString refNullReadMessage notFound404
       (lit "Failed to validate session"))) ltac:(discriminate) eq_refl)
    (JObj [(lit "detail", JStr (lit "Session not found"))])
    (JStr (lit "Session not found")) (lit "Session not found"));
  reflexivity.
Defined.

(** Two responses on which the handler neither returns a parsed body nor
    throws an [Error] with the detail or the fallback: an ok response with
    no JSON body is rejected with the parser's [SyntaxError], and an error
    response whose body is [null] ends in a [TypeError]. *)
Lemma handleResponse_not_total :
  ~ (ok noContent = true ->
     exists j, handleResponse refNumberToString refNullReadMessage noContent
                 (lit "Failed to create session") = Return j)
  /\ ~ (status nullBody500 <> 429%Z -> ok nullBody500 = false ->
        exists m, handleResponse refNumberToString refNullReadMessage nullBody500
                    (lit "Failed to create session") = Throw (Error m)).
Proof.
  split.
  - intros H. destruct (H eq_refl) as [j Hj]. discriminate Hj.
  - intros H. destruct (H ltac:(discriminate) eq_refl) as [m Hm]. discriminate Hm.
Qed.

(** Outside the amended claim: a [detail] that is an object with a member
    named [toString] has no conversion to a string, and [new Error]
    throws a [TypeError]. *)
Example handleResponse_own_toString :
  handleResponse refNumberToString refNullReadMessage ownToString400
    (lit "Save failed")
  = Throw (TypeError primitiveConversionMessage).
Proof. reflexivity. Qed.

(** *** The endpoints that do not use [handleResponse] *)
Section EndpointFacts.

Variable numberToString : Q -> JSString.
Variable nullReadMessage : JSString.

Lemma detailOrThrow_not_rate_limit res fallback m :
  detailOrThrow numberToString nullReadMessage res fallback
  <> Throw (RateLimitError m).
Proof.
  unfold detailOrThrow, json_body.
  destruct (negb (ok res)), (body res) as [j|pm]; try discriminate.
  destruct (getProperty j (lit "detail")); try discriminate.
  apply throwNewError_not_rate_limit.
Qed.

Lemma okOrThrow_not_rate_limit res errorMessage m :
  okOrThrow res errorMessage <> Throw (RateLimitError m).
Proof.
  unfold okOrThrow, json_body.
  destruct (negb (ok res)), (body res); discriminate.
Qed.

Lemma not_ok_429 res : status res = 429%Z -> ok res = false.
Proof. unfold ok. intros ->. reflexivity. Qed.

Lemma detailOrThrow_throws res fallback :
  ok res = false ->
  exists e, detailOrThrow numberToString nullReadMessage res fallback = Throw e.
Proof.
  intros Hok. unfold detailOrThrow, json_body. rewrite Hok. simpl.
  destruct (body res) as [j|pm]; [|now eexists].
  destruct (getProperty j (lit "detail")) as [detail|]; [|now eexists].
  destruct (throwNewError_throws numberToString detail fallback) as [e [He _]].
  now exists e.
Qed.

(** X5. No endpoint function other than [createSession] and
    [validateSession] ever rejects with a [RateLimitError]: on a 429
    response, as on any response that is not ok, each of them rejects with
    an error of another class. *)
Theorem responseOf_never_RateLimitError (c : Call) (res : Response) :
  (forall m, responseOf numberToString nullReadMessage c res
             <> Throw (RateLimitError m))
  /\ (forall m, listEmojis res <> Throw (RateLimitError m))
  /\ (status res = 429%Z ->
      (exists e, responseOf numberToString nullReadMessage c res = Throw e
                 /\ instanceofRateLimitError e = false)
      /\ listEmojis res = Throw (Error (lit "Failed to fetch emojis"))).
Proof.
  assert (H1 : forall m, responseOf numberToString nullReadMessage c res
                         <> Throw (RateLimitError m)).
  { intros m. destruct c; cbn [responseOf];
      first [apply detailOrThrow_not_rate_limit | apply okOrThrow_not_rate_limit]. }
  split; [exact H1|]. split; [intros m; apply okOrThrow_not_rate_limit|].
  intros Hs. pose proof (not_ok_429 res Hs) as Hok. split.
  - assert (exists e, responseOf numberToString nullReadMessage c res = Throw e)
      as [e He].
    { destruct c; cbn [responseOf];
        first [now apply detailOrThrow_throws
              | unfold okOrThrow; rewrite Hok; now eexists]. }
    exists e. split; [exact He|].
    destruct e; try reflexivity. exfalso. exact (H1 _ He).
  - unfold listEmojis, okOrThrow. now rewrite Hok.
Qed.

Lemma detailOrThrow_agrees res fallback :
  detailOrThrow numberToString nullReadMessage res fallback
  = handleResponse numberToString nullReadMessage res fallback
  <-> status res <> 429%Z
      /\ (ok res = true \/ exists j, body res = Parsed j).
Proof.
  destruct (Z.eq_dec (status res) 429%Z) as [Hs|Hs].
  - rewrite (handleResponse_429 _ _ res fallback Hs). split.
    + intros H. now apply detailOrThrow_not_rate_limit in H.
    + intros [H _]. contradiction.
  - destruct (ok res) eqn:Hok.
    + rewrite (handleResponse_ok _ _ res fallback Hok).
      unfold detailOrThrow. rewrite Hok. simpl. split; [intros _|reflexivity].
      split; [exact Hs | now left].
    + rewrite (handleResponse_not_ok _ _ res fallback Hs Hok).
      unfold detailOrThrow, json_body. rewrite Hok. simpl.
      destruct (body res) as [j|pm].
      * split; [intros _; split; [exact Hs | right; now exists j] | reflexivity].
      * simpl. split; [discriminate|].
        intros [_ [H|[j H]]]; discriminate H.
Qed.

(** X6. [previewCapture], [saveCapture] and [exportFont] complete as
    [handleResponse] with their fallback message would, except on a 429
    response and on a response that is not ok and has no JSON body: they
    agree with it exactly when the status is not 429 and the response is ok
    or its body parses. *)
Theorem detail_endpoints_agree_with_handleResponse
    (sessionId emoji image fontName : JSString) (params : CaptureParams)
    (res : Response) :
  (responseOf numberToString nullReadMessage
     (PreviewCapture sessionId emoji params) res
   = handleResponse numberToString nullReadMessage res (lit "Preview failed")
   <-> status res <> 429%Z
       /\ (ok res = true \/ exists j, body res = Parsed j))
  /\ (responseOf numberToString nullReadMessage
        (SaveCapture sessionId emoji image) res
      = handleResponse numberToString nullReadMessage res (lit "Save failed")
      <-> status res <> 429%Z
          /\ (ok res = true \/ exists j, body res = Parsed j))
  /\ (responseOf numberToString nullReadMessage
        (ExportFont sessionId fontName) res
      = handleResponse numberToString nullReadMessage res (lit "Export failed")
      <-> status res <> 429%Z
          /\ (ok res = true \/ exists j, body res = Parsed j)).
Proof.
  cbn [responseOf].
  split; [apply detailOrThrow_agrees|split; apply detailOrThrow_agrees].
Qed.

End EndpointFacts.

(** On a proxy's 502 page [exportFont] rejects with the parser's error, where
    [handleResponse] would give the fallback message. *)
Example exportFont_badGateway :
  responseOf refNumberToString refNullReadMessage
    (ExportFont (lit "s1") (lit "Tomoji")) badGateway502
  = Throw (SyntaxError (lit "Unexpected token '<'"))
  /\ handleResponse refNumberToString refNullReadMessage badGateway502
       (lit "Export failed")
     = Throw (Error (lit "Export failed")).
Proof. split; reflexivity. Qed.

(** *** The URLs *)

Lemma captureUrl_Some (sessionId emoji url : JSString) :
  captureUrl sessionId emoji = Some url ->
  exists encoded,
    encodeURIComponent emoji = Some encoded
    /\ url = (API_BASE ++ lit "/" ++ sessionId ++ lit "/capture/") ++ encoded.
Proof.
  unfold captureUrl. destruct (encodeURIComponent emoji) as [encoded|]; [|discriminate].
  intros [= <-]. exists encoded. split; [reflexivity|].
  now rewrite <- !app_assoc.
Qed.

(** *** The path of a capture request *)

Lemma single_dot_cases (segment : JSString) :
  isSingleDot segment = true ->
  segment = [0x2E]
  \/ exists l, segment = [PERCENT; 0x32; l] /\ (l = 0x45 \/ l = 0x65).
Proof.
  unfold isSingleDot. cbn [existsb].
  rewrite !orb_true_iff, !JSFacts.str_eqb_eq. intros [H|[H|H]]; [| |discriminate H].
  - change (lit ".") with [0x2E] in H.
    destruct segment as [|a [|b s]]; try discriminate H. injection H as H.
    apply JSFacts.lowerAscii_inv in H. left. f_equal. lia.
  - change (lit "%2e") with [0x25; 0x32; 0x65] in H.
    destruct segment as [|a [|b [|c [|d s]]]]; try discriminate H.
    injection H as Ha Hb Hc.
    apply JSFacts.lowerAscii_inv in Ha, Hb, Hc. right. exists c.
    split; [|lia]. unfold PERCENT. repeat f_equal; lia.
Qed.

Lemma double_dot_cases (segment : JSString) :
  isDoubleDot segment = true ->
  segment = [0x2E; 0x2E]
  \/ exists l tail,
       (segment = 0x2E :: PERCENT :: 0x32 :: l :: tail
        \/ segment = PERCENT :: 0x32 :: l :: tail)
       /\ (l = 0x45 \/ l = 0x65).
Proof.
  unfold isDoubleDot. cbn [existsb].
  rewrite !orb_true_iff, !JSFacts.str_eqb_eq.
  intros [H|[H|[H|[H|H]]]]; [| | | |discriminate H].
  - change (lit "..") with [0x2E; 0x2E] in H.
    destruct segment as [|a [|b [|c s]]]; try discriminate H.
    injection H as Ha Hb. apply JSFacts.lowerAscii_inv in Ha, Hb.
    left. repeat f_equal; lia.
  - change (lit ".%2e") with [0x2E; 0x25; 0x32; 0x65] in H.
    destruct segment as [|a [|b [|c [|d [|e s]]]]]; try discriminate H.
    injection H as Ha Hb Hc Hd. apply JSFacts.lowerAscii_inv in Ha, Hb, Hc, Hd.
    right. exists d, []. split; [left|lia]. unfold PERCENT. repeat f_equal; lia.
  - change (lit "%2e.") with [0x25; 0x32; 0x65; 0x2E] in H.
    destruct segment as [|a [|b [|c [|d [|e s]]]]]; try discriminate H.
    injection H as Ha Hb Hc Hd. apply JSFacts.lowerAscii_inv in Ha, Hb, Hc, Hd.
    right. exists c, [d]. split; [right|lia]. unfold PERCENT. repeat f_equal; lia.
  - change (lit "%2e%2e") with [0x25; 0x32; 0x65; 0x25; 0x32; 0x65] in H.
    destruct segment as [|a [|b [|c tail]]]; try discriminate H.
    injection H as Ha Hb Hc _. apply JSFacts.lowerAscii_inv in Ha, Hb, Hc.
    right. exists c, tail. split; [right|lia]. unfold PERCENT. repeat f_equal; lia.
Qed.

(** The encoded text is a dot segment only for the strings [.] and [..]. *)
Lemma encoded_is_no_dot_segment (s encoded : JSString) :
  encodeURIComponent s = Some encoded ->
  s <> lit "." -> s <> lit ".." ->
  isSingleDot encoded = false /\ isDoubleDot encoded = false.
Proof.
  intros He Hs Hd. split.
  - destruct (isSingleDot encoded) eqn:E; [exfalso|reflexivity].
    apply single_dot_cases in E. destruct E as [-> | (l & -> & Hl)].
    + apply (JSFacts.encodeURIComponent_unescaped_front s [] 0x2E eq_refl) in He.
      destruct He as (rest & -> & Hr). apply JSFacts.encodeURIComponent_nil in Hr.
      subst rest. now apply Hs.
    + exact (JSFacts.encodeURIComponent_no_dot_escape s [] l He Hl).
  - destruct (isDoubleDot encoded) eqn:E; [exfalso|reflexivity].
    apply double_dot_cases in E.
    destruct E as [-> | (l & tail & [-> | ->] & Hl)].
    + apply (JSFacts.encodeURIComponent_unescaped_front s [0x2E] 0x2E eq_refl) in He.
      destruct He as (rest & -> & Hr).
      apply (JSFacts.encodeURIComponent_unescaped_front rest [] 0x2E eq_refl) in Hr.
      destruct Hr as (rest' & -> & Hr). apply JSFacts.encodeURIComponent_nil in Hr.
      subst rest'. now apply Hd.
    + apply (JSFacts.encodeURIComponent_unescaped_front s _ 0x2E eq_refl) in He.
      destruct He as (rest & _ & Hr).
      exact (JSFacts.encodeURIComponent_no_dot_escape rest tail l Hr Hl).
    + exact (JSFacts.encodeURIComponent_no_dot_escape s tail l He Hl).
Qed.

Lemma unescaped_encodes_itself (s : JSString) :
  forallb isUriUnescaped s = true -> encodeURIComponent s = Some s.
Proof.
  induction s as [|u s IH]; [reflexivity|]. cbn [forallb encodeURIComponent].
  intros H. apply andb_true_iff in H. destruct H as [Hu Hs].
  now rewrite Hu, (IH Hs).
Qed.

Lemma plainSegment_no_slash (segment : JSString) :
  plainSegment segment -> ~ In SLASH segment.
Proof. intros [H _] Hin. destruct (H SLASH Hin) as [E|E]; discriminate E. Qed.

Lemma plainSegment_encoded (s encoded : JSString) :
  validUnits s -> encodeURIComponent s = Some encoded ->
  s <> lit "." -> s <> lit ".." -> plainSegment encoded.
Proof.
  intros Hv He Hs Hd. split.
  - exact (JSFacts.encodeURIComponent_units s encoded Hv He).
  - exact (encoded_is_no_dot_segment s encoded He Hs Hd).
Qed.

Lemma plainSegment_token (sessionId : JSString) :
  tokenId sessionId -> plainSegment sessionId.
Proof.
  intros (Hu & Hs & Hd). split.
  - intros u Hin. left. rewrite forallb_forall in Hu. now apply Hu.
  - exact (encoded_is_no_dot_segment sessionId sessionId
             (unescaped_encodes_itself sessionId Hu) Hs Hd).
Qed.

Lemma plainSegment_literals :
  plainSegment (lit "api") /\ plainSegment (lit "capture")
  /\ plainSegment (lit "preview").
Proof.
  repeat split; try reflexivity; intros u Hu; vm_compute in Hu;
    repeat (destruct Hu as [<-|Hu]; [now left|]); destruct Hu.
Qed.

Lemma splitOn_none sep (s : JSString) : ~ In sep s -> Cookies.splitOn sep s = [s].
Proof.
  induction s as [|c s IH]; intros Hnot; [reflexivity|]. simpl.
  destruct (c =? sep) eqn:E.
  - apply N.eqb_eq in E. exfalso. apply Hnot. now left.
  - rewrite IH; [reflexivity|]. intros H. apply Hnot. now right.
Qed.

Lemma splitOn_join (segment : JSString) (more : list JSString) :
  ~ In SLASH segment -> (forall m, In m more -> ~ In SLASH m) ->
  Cookies.splitOn SLASH (segment ++ flat_map (cons SLASH) more) = segment :: more.
Proof.
  revert segment. induction more as [|m more IH]; intros segment Hs Hm.
  - cbn [flat_map]. rewrite app_nil_r. now apply splitOn_none.
  - cbn [flat_map]. change ((SLASH :: m) ++ flat_map (cons SLASH) more)
      with (SLASH :: (m ++ flat_map (cons SLASH) more)).
    rewrite (CookiesFacts.splitOn_app SLASH _ _ Hs). f_equal.
    apply IH; [apply Hm; now left | intros x Hx; apply Hm; now right].
Qed.

Lemma pathState_plain (segments path : list JSString) :
  segments <> [] -> (forall m, In m segments -> plainSegment m) ->
  pathState segments path = rev path ++ segments.
Proof.
  revert path. induction segments as [|segment rest IH]; intros path Hne Hp;
    [congruence|].
  destruct (Hp segment (or_introl eq_refl)) as (_ & Hs & Hd).
  cbn [pathState]. rewrite Hs, Hd. destruct rest as [|r rest].
  - reflexivity.
  - rewrite IH; [|discriminate | intros m Hm; apply Hp; now right].
    cbn [rev]. now rewrite <- app_assoc.
Qed.

(** A path without dot segments is requested as it is written. *)
Lemma requestedPath_plain (first : JSString) (more : list JSString) :
  first <> [] -> (forall m, In m (first :: more) -> plainSegment m) ->
  requestedPath (flat_map (cons SLASH) (first :: more))
  = Some (flat_map (cons SLASH) (first :: more)).
Proof.
  intros Hne Hp.
  assert (Hno : forall m, In m (first :: more) -> ~ In SLASH m)
    by (intros m Hm; apply plainSegment_no_slash, Hp, Hm).
  assert (Hsplit : Cookies.splitOn SLASH (flat_map (cons SLASH) (first :: more))
                   = [] :: first :: more).
  { cbn [flat_map]. change ((SLASH :: first) ++ flat_map (cons SLASH) more)
      with (SLASH :: (first ++ flat_map (cons SLASH) more)).
    change (Cookies.splitOn SLASH (SLASH :: (first ++ flat_map (cons SLASH) more)))
      with ([] :: Cookies.splitOn SLASH (first ++ flat_map (cons SLASH) more)).
    f_equal. apply splitOn_join;
      [apply Hno; now left | intros m Hm; apply Hno; now right]. }
  assert (Hall : forallb isPathUnit (flat_map (cons SLASH) (first :: more)) = true).
  { apply forallb_forall. intros u Hu. apply in_flat_map in Hu.
    destruct Hu as (m & Hm & [<-|Hu]); [reflexivity|].
    destruct (Hp m Hm) as (Hunits & _). unfold isPathUnit.
    destruct (Hunits u Hu) as [-> | ->]; reflexivity. }
  unfold requestedPath. rewrite Hsplit, Hall. cbn [tail].
  rewrite (pathState_plain (first :: more) []) by (discriminate || exact Hp).
  destruct first as [|c first]; [congruence|].
  assert (Hc : (c =? SLASH) = false).
  { apply N.eqb_neq. intros ->. apply (Hno (SLASH :: first) (or_introl eq_refl)).
    now left. }
  cbn [flat_map app]. rewrite Hc. reflexivity.
Qed.

Lemma capture_path (sessionId encoded : JSString) :
  (API_BASE ++ lit "/" ++ sessionId ++ lit "/capture/") ++ encoded
  = flat_map (cons SLASH) [lit "api"; sessionId; lit "capture"; encoded].
Proof.
  cbn [flat_map]. rewrite app_nil_r, <- !app_assoc. reflexivity.
Qed.

Lemma preview_path (sessionId encoded : JSString) :
  ((API_BASE ++ lit "/" ++ sessionId ++ lit "/capture/") ++ encoded)
  ++ lit "/preview"
  = flat_map (cons SLASH)
      [lit "api"; sessionId; lit "capture"; encoded; lit "preview"].
Proof.
  cbn [flat_map]. rewrite app_nil_r, <- !app_assoc. reflexivity.
Qed.

(** The capture requests of a session whose id is a token, for an emoji
    other than [.] and [..], address the path they are given. *)
Lemma capture_path_requested (sessionId emoji url : JSString) :
  tokenId sessionId -> validUnits emoji ->
  emoji <> lit "." -> emoji <> lit ".." ->
  captureUrl sessionId emoji = Some url ->
  requestedPath url = Some url
  /\ requestedPath (url ++ lit "/preview") = Some (url ++ lit "/preview").
Proof.
  intros Hid Hv Hs Hd Hu. apply captureUrl_Some in Hu.
  destruct Hu as (encoded & He & ->).
  pose proof (plainSegment_token sessionId Hid) as Pid.
  pose proof (plainSegment_encoded emoji encoded Hv He Hs Hd) as Penc.
  destruct plainSegment_literals as (Papi & Pcapture & Ppreview).
  rewrite preview_path, capture_path.
  split; apply requestedPath_plain; try discriminate;
    intros m Hm; simpl in Hm; intuition (subst; assumption).
Qed.

(** X7. For one session, whose id is a token of unreserved characters,
    and two emoji strings other than [.] and [..], [fetch] requests the
    path of each capture request as it is written, and the path of a
    preview request is never the path of a save or delete request: the
    encoded emoji holds no slash. A save and a delete of the same emoji go
    to one path and differ by the method. *)
Theorem preview_url_is_no_capture_url
    (sessionId emoji emoji' image : JSString) (params : CaptureParams)
    (preview save delete : FetchRequest) :
  tokenId sessionId ->
  validUnits emoji -> emoji <> lit "." -> emoji <> lit ".." ->
  validUnits emoji' -> emoji' <> lit "." -> emoji' <> lit ".." ->
  requestOf (PreviewCapture sessionId emoji params) = Some preview ->
  requestOf (SaveCapture sessionId emoji' image) = Some save ->
  requestOf (DeleteCapture sessionId emoji') = Some delete ->
  requestedPath (request_url preview) = Some (request_url preview)
  /\ requestedPath (request_url save) = Some (request_url save)
  /\ requestedPath (request_url preview) <> requestedPath (request_url save)
  /\ request_url save = request_url delete
  /\ request_method save <> request_method delete.
Proof.
  cbn [requestOf]. intros Hid Hv Hs Hd Hv' Hs' Hd' Hp Hsave Hdel.
  destruct (captureUrl sessionId emoji) as [u|] eqn:Eu; [|discriminate Hp].
  destruct (captureUrl sessionId emoji') as [u'|] eqn:Eu'; [|discriminate Hsave].
  injection Hp as <-. injection Hsave as <-. injection Hdel as <-.
  cbn [request_url request_method].
  destruct (capture_path_requested sessionId emoji u Hid Hv Hs Hd Eu) as [_ Rp].
  destruct (capture_path_requested sessionId emoji' u' Hid Hv' Hs' Hd' Eu')
    as [Rs _].
  rewrite Rp, Rs. repeat split; [|discriminate].
  intros [= H].
  apply captureUrl_Some in Eu, Eu'.
  destruct Eu as (e & _ & ->), Eu' as (e' & He' & ->).
  rewrite <- app_assoc in H. apply app_inv_head in H.
  pose proof (JSFacts.encodeURIComponent_no_delimiter emoji' e' He' 0x2F) as Hno.
  rewrite <- H in Hno. discriminate Hno.
  apply in_app_iff. right. now left.
Qed.

Lemma exampleToken : tokenId (lit "s1").
Proof. repeat split; [vm_compute; discriminate | vm_compute; discriminate]. Qed.

Lemma literal_units (s : string) :
  forallb (fun u => u <? 0x10000) (lit s) = true -> validUnits (lit s).
Proof.
  intros H u Hu. rewrite forallb_forall in H. apply N.ltb_lt. now apply H.
Qed.

Lemma preview_url_is_no_capture_url_example :
  exists preview save delete,
    requestOf (PreviewCapture (lit "s1") (lit "a")
                 {| param_image := []; param_padding := None;
                    param_keep_background := None; param_keep_clothes := None;
                    param_keep_accessories := None |}) = Some preview
    /\ requestOf (SaveCapture (lit "s1") (lit "a/preview") []) = Some save
    /\ requestOf (DeleteCapture (lit "s1") (lit "a/preview")) = Some delete
    /\ request_url save = lit "/api/s1/capture/a%2Fpreview"
    /\ requestedPath (request_url preview) = Some (request_url preview)
    /\ requestedPath (request_url save) = Some (request_url save)
    /\ requestedPath (request_url preview) <> requestedPath (request_url save)
    /\ request_url save = request_url delete
    /\ request_method save <> request_method delete.
Proof.
  do 3 eexists. split; [reflexivity|]. split; [reflexivity|].
  split; [reflexivity|]. split; [reflexivity|].
  eapply (preview_url_is_no_capture_url (lit "s1") (lit "a") (lit "a/preview"));
    try reflexivity; try (vm_compute; discriminate);
    try (apply literal_units; reflexivity).
  apply exampleToken.
Defined.

(** Outside these premises: the parser removes the dot segment of the
    preview of the emoji [.], which then addresses the path of the save of
    the emoji [preview]; and the saves of the emoji [.] and of the empty
    string address one path. *)
Example dot_emoji_paths_collide :
  requestedPath (lit "/api/s1/capture/./preview")
  = Some (lit "/api/s1/capture/preview")
  /\ requestedPath (lit "/api/s1/capture/.") = Some (lit "/api/s1/capture/")
  /\ requestedPath (lit "/api/s1/capture/") = Some (lit "/api/s1/capture/")
  /\ requestedPath (lit "/api/s1/capture/..") = Some (lit "/api/s1/")
  /\ option_map request_url
       (requestOf (PreviewCapture (lit "s1") (lit ".")
                     {| param_image := []; param_padding := None;
                        param_keep_background := None;
                        param_keep_clothes := None;
                        param_keep_accessories := None |}))
     = Some (lit "/api/s1/capture/./preview")
  /\ option_map request_url (requestOf (SaveCapture (lit "s1") (lit "preview") []))
     = Some (lit "/api/s1/capture/preview").
Proof. repeat split; vm_compute; reflexivity. Qed.

(** X8. [getImagesZipUrl] with a name that is not empty appends the query
    [?name=] and the encoded name, and the encoded name holds none of the
    characters [/ ? # & =]: the name adds no parameter and no fragment to
    the URL. Without a name, or with the empty name, the URL has no query. *)
Theorem getImagesZipUrl_query (sessionId name url : JSString) :
  getImagesZipUrl sessionId (Some name) = Some url ->
  getImagesZipUrl sessionId None
  = Some (API_BASE ++ lit "/" ++ sessionId ++ lit "/images.zip")
  /\ (name = [] -> getImagesZipUrl sessionId None = Some url)
  /\ (name <> [] ->
      exists encoded,
        url = (API_BASE ++ lit "/" ++ sessionId ++ lit "/images.zip")
              ++ lit "?name=" ++ encoded
        /\ forall u, In u encoded -> uriDelimiter u = false).
Proof.
  unfold getImagesZipUrl. intros H. split; [reflexivity|]. split.
  - intros ->. exact H.
  - intros Hne. destruct name as [|c name]; [congruence|]. cbn [falsy] in H.
    destruct (encodeURIComponent (c :: name)) as [encoded|] eqn:E; [|discriminate H].
    injection H as <-. exists encoded. split; [reflexivity|].
    now apply (JSFacts.encodeURIComponent_no_delimiter (c :: name)).
Qed.

Lemma getImagesZipUrl_query_example :
  getImagesZipUrl (lit "s1") (Some (lit "a&b=c"))
  = Some (lit "/api/s1/images.zip?name=a%26b%3Dc")
  /\ (getImagesZipUrl (lit "s1") None = Some (lit "/api/s1/images.zip")
      /\ (lit "a&b=c" = [] ->
          getImagesZipUrl (lit "s1") None
          = Some (lit "/api/s1/images.zip?name=a%26b%3Dc"))
      /\ (lit "a&b=c" <> [] ->
          exists encoded,
            lit "/api/s1/images.zip?name=a%26b%3Dc"
            = (API_BASE ++ lit "/" ++ lit "s1" ++ lit "/images.zip")
              ++ lit "?name=" ++ encoded
            /\ forall u, In u encoded -> uriDelimiter u = false)).
Proof.
  split; [reflexivity|].
  apply (getImagesZipUrl_query (lit "s1") (lit "a&b=c")). reflexivity.
Defined.


(** How [handleResponse] completes, by the response. *)
Lemma handleResponse_cases (numberToString : Q -> JSString)
    (nullReadMessage : JSString) (res : Response) (errorMessage : JSString) :
  (status res = 429%Z /\
   handleResponse numberToString nullReadMessage res errorMessage
   = Throw (RateLimitError defaultRateLimitMessage))
  \/ (status res <> 429%Z /\ ok res = false /\
      exists e, handleResponse numberToString nullReadMessage res errorMessage
                = Throw e
                /\ instanceofRateLimitError e = false)
  \/ (status res <> 429%Z /\ ok res = true /\
      handleResponse numberToString nullReadMessage res errorMessage
      = json_body res).
Proof.
  destruct (Z.eq_dec (status res) 429%Z) as [Hs|Hs].
  - left. split; [exact Hs|]. now apply handleResponse_429.
  - right. destruct (ok res) eqn:Hok.
    + right. split; [exact Hs|]. split; [reflexivity|].
      now apply handleResponse_ok.
    + left. split; [exact Hs|]. split; [reflexivity|].
      rewrite (handleResponse_not_ok _ _ res _ Hs Hok).
      destruct (getProperty _ _); [apply throwNewError_throws|].
      eexists; split; reflexivity.
Qed.

Lemma captureUrl_inj (sessionId emoji emoji' url : JSString) :
  validUnits emoji -> validUnits emoji' ->
  captureUrl sessionId emoji = Some url ->
  captureUrl sessionId emoji' = Some url -> emoji = emoji'.
Proof.
  intros Hv Hv' H H'. apply captureUrl_Some in H, H'.
  destruct H as (e & He & ->), H' as (e' & He' & E).
  apply app_inv_head in E. subst e'.
  exact (JSFacts.encodeURIComponent_inj emoji emoji' e Hv Hv' He He').
Qed.

(** X28. For one session, whose id is a token of unreserved characters,
    and two different emoji strings (of 16-bit code units) other than [.]
    and [..], the save requests address different paths, and so do the two
    delete requests and the two preview requests: [fetch] requests each
    path as it is written, and a request addresses the capture of the
    emoji it names and of no other. *)
Theorem capture_url_names_one_emoji
    (sessionId emoji emoji' : JSString)
    (image image' : JSString) (params params' : CaptureParams)
    (r r' : FetchRequest) :
  tokenId sessionId ->
  validUnits emoji -> emoji <> lit "." -> emoji <> lit ".." ->
  validUnits emoji' -> emoji' <> lit "." -> emoji' <> lit ".." ->
  emoji <> emoji' ->
  (requestOf (SaveCapture sessionId emoji image) = Some r ->
   requestOf (SaveCapture sessionId emoji' image') = Some r' ->
   requestedPath (request_url r) = Some (request_url r)
   /\ requestedPath (request_url r') = Some (request_url r')
   /\ request_url r <> request_url r')
  /\ (requestOf (DeleteCapture sessionId emoji) = Some r ->
      requestOf (DeleteCapture sessionId emoji') = Some r' ->
      requestedPath (request_url r) = Some (request_url r)
      /\ requestedPath (request_url r') = Some (request_url r')
      /\ request_url r <> request_url r')
  /\ (requestOf (PreviewCapture sessionId emoji params) = Some r ->
      requestOf (PreviewCapture sessionId emoji' params') = Some r' ->
      requestedPath (request_url r) = Some (request_url r)
      /\ requestedPath (request_url r') = Some (request_url r')
      /\ request_url r <> request_url r').
Proof.
  intros Hid Hv Hs Hd Hv' Hs' Hd' Hne. cbn [requestOf].
  destruct (captureUrl sessionId emoji) as [u|] eqn:Eu;
    [|repeat split; discriminate].
  destruct (captureUrl sessionId emoji') as [u'|] eqn:Eu';
    [|repeat split; discriminate].
  destruct (capture_path_requested sessionId emoji u Hid Hv Hs Hd Eu) as [R P].
  destruct (capture_path_requested sessionId emoji' u' Hid Hv' Hs' Hd' Eu')
    as [R' P'].
  assert (Hu : u <> u').
  { intros <-. apply Hne.
    exact (captureUrl_inj sessionId emoji emoji' u Hv Hv' Eu Eu'). }
  cbn [option_map].
  split; [|split]; intros [= <-] [= <-]; cbn [request_url].
  - now repeat split.
  - now repeat split.
  - repeat split; [exact P | exact P'|]. intros H. now apply app_inv_tail in H.
Qed.

Lemma grinning_units : validUnits [0xD83D; 0xDE00].
Proof. intros u [<-|[<-|[]]]; reflexivity. Qed.

Lemma capture_url_names_one_emoji_example :
  requestOf (SaveCapture (lit "s1") [0xD83D; 0xDE00] [])
  = Some {| request_url := lit "/api/s1/capture/%F0%9F%98%80";
            request_method := POST;
            request_body := Some (ImagePayload []) |}
  /\ requestOf (SaveCapture (lit "s1") (lit ":)") [])
     = Some {| request_url := lit "/api/s1/capture/%3A)";
               request_method := POST;
               request_body := Some (ImagePayload []) |}
  /\ requestedPath (lit "/api/s1/capture/%F0%9F%98%80")
     = Some (lit "/api/s1/capture/%F0%9F%98%80")
  /\ requestedPath (lit "/api/s1/capture/%3A)")
     = Some (lit "/api/s1/capture/%3A)")
  /\ lit "/api/s1/capture/%F0%9F%98%80" <> lit "/api/s1/capture/%3A)".
Proof.
  split; [reflexivity|]. split; [reflexivity|].
  apply (proj1 (capture_url_names_one_emoji (lit "s1") [0xD83D; 0xDE00] (lit ":)")
           [] []
           {| param_image := []; param_padding := None;
              param_keep_background := None; param_keep_clothes := None;
              param_keep_accessories := None |}
           {| param_image := []; param_padding := None;
              param_keep_background := None; param_keep_clothes := None;
              param_keep_accessories := None |}
           {| request_url := lit "/api/s1/capture/%F0%9F%98%80";
              request_method := POST;
              request_body := Some (ImagePayload []) |}
           {| request_url := lit "/api/s1/capture/%3A)";
              request_method := POST;
              request_body := Some (ImagePayload []) |}
           exampleToken
           grinning_units ltac:(vm_compute; discriminate)
           ltac:(vm_compute; discriminate)
           (literal_units ":)" eq_refl) ltac:(vm_compute; discriminate)
           ltac:(vm_compute; discriminate) ltac:(vm_compute; discriminate)));
    reflexivity.
Defined.

End ApiFacts.

(** ** components/ExportView.tsx *)
Module ExportViewFacts.
Import Api ExportView.

Section ButtonStateFacts.

Variable getTime : JSString -> TimeValue.

Lemma absent_false v : absent v = false <-> exists s, v = Some s /\ s <> [].
Proof.
  destruct v as [[|c s]|]; simpl; split; try discriminate.
  - intros (s & [= <-] & H). congruence.
  - intros _. eexists. split; [reflexivity | discriminate].
  - intros (s' & [= <-] & H). reflexivity.
  - intros (s & H & _). discriminate H.
Qed.

Lemma gt_laterThan edit gen :
  gt (getTime edit) (getTime gen) = true <-> laterThan getTime edit gen.
Proof.
  unfold laterThan, gt. split.
  - destruct (getTime edit) as [te|], (getTime gen) as [tg|]; try discriminate.
    intros H%Z.ltb_lt. eauto.
  - intros (te & tg & -> & -> & H). now apply Z.ltb_lt.
Qed.

(** C2. The view offers regeneration (the button reads "Regenerate Font" and
    is enabled) exactly when both timestamps are present and the last
    capture edit is strictly later than the last generation. With no
    generation timestamp it offers the first generation; with a generation
    but no recorded edit, and with an edit that is not later, regeneration
    is disabled and the view says "Up to date". *)
Theorem buttonState_stale_iff (lastGeneration lastCaptureEdit : option JSString) :
  (buttonState getTime lastGeneration lastCaptureEdit
     = {| text := lit "Regenerate Font"; disabled := false |}
   <-> exists gen edit,
         lastGeneration = Some gen /\ gen <> [] /\
         lastCaptureEdit = Some edit /\ edit <> [] /\
         laterThan getTime edit gen)
  /\ (absent lastGeneration = true ->
      buttonState getTime lastGeneration lastCaptureEdit
        = {| text := lit "Generate Font"; disabled := false |})
  /\ (absent lastGeneration = false -> absent lastCaptureEdit = true ->
      buttonState getTime lastGeneration lastCaptureEdit
        = {| text := lit "Regenerate Font"; disabled := true |})
  /\ (forall gen edit,
        lastGeneration = Some gen -> gen <> [] ->
        lastCaptureEdit = Some edit -> edit <> [] ->
        ~ laterThan getTime edit gen ->
        buttonState getTime lastGeneration lastCaptureEdit
          = {| text := lit "Regenerate Font"; disabled := true |})
  /\ (forall g, isExporting g = false ->
        upToDateShown getTime g lastGeneration lastCaptureEdit
        = disabled (buttonState getTime lastGeneration lastCaptureEdit)).
Proof.
  split; [|split; [|split; [|split]]].
  - unfold buttonState. split.
    + destruct (absent lastGeneration) eqn:Hg; [discriminate|].
      destruct (absent lastCaptureEdit) eqn:He; [discriminate|].
      apply absent_false in Hg, He.
      destruct Hg as (gen & -> & Hgen), He as (edit & -> & Hedit). simpl.
      destruct (gt (getTime edit) (getTime gen)) eqn:G; [|discriminate].
      intros _. exists gen, edit. apply gt_laterThan in G. auto.
    + intros (gen & edit & -> & Hgen & -> & Hedit & L).
      apply gt_laterThan in L.
      destruct gen; [congruence|]. destruct edit; [congruence|].
      simpl. simpl in L. now rewrite L.
  - unfold buttonState. now intros ->.
  - unfold buttonState. now intros -> ->.
  - intros gen edit -> Hgen -> Hedit L. unfold buttonState.
    destruct gen; [congruence|]. destruct edit; [congruence|]. simpl.
    match goal with |- context [gt ?a ?b] => destruct (gt a b) eqn:G end;
      [|reflexivity].
    exfalso. apply L. now apply gt_laterThan.
  - intros g Hg. unfold upToDateShown. rewrite Hg. apply andb_true_r.
Qed.

End ButtonStateFacts.

Example edit_after_generation :
  buttonState refGetTime (Some (lit "1000")) (Some (lit "2000"))
  = {| text := lit "Regenerate Font"; disabled := false |}.
Proof. vm_compute. reflexivity. Qed.

Example edit_before_generation :
  buttonState refGetTime (Some (lit "2000")) (Some (lit "1000"))
  = {| text := lit "Regenerate Font"; disabled := true |}.
Proof. vm_compute. reflexivity. Qed.

Example unreadable_edit_time :
  buttonState refGetTime (Some (lit "2000")) (Some (lit "yesterday"))
  = {| text := lit "Regenerate Font"; disabled := true |}.
Proof. vm_compute. reflexivity. Qed.

(** The requests of [handleExport]: none, or the export request followed by
    the loading of the font face. *)
Lemma handleExport_effects sessionId capturedCount env g f :
  snd (handleExport sessionId capturedCount env g f) = []
  \/ (0 < capturedCount /\ sessionId <> [] /\
      exists rest,
        snd (handleExport sessionId capturedCount env g f)
        = Request (ExportFont sessionId (fontName g)) :: rest
        /\ forall x, In x rest -> exists family url, x = FontFaceLoad family url).
Proof.
  unfold handleExport.
  destruct (capturedCount =? 0) eqn:E; [now left|].
  apply N.eqb_neq in E.
  destruct sessionId as [|c sid']; [now left|]. right.
  split; [lia|]. split; [discriminate|]. cbn [falsy].
  destruct (exported env) as [result|err].
  - unfold loadFont. destruct (loaded env); cbn [snd];
      eexists; (split; [reflexivity|]); intros x [<-|[]]; eauto.
  - cbn [snd]. eexists. split; [reflexivity|]. intros x [].
Qed.

(** C3. With no captured glyph, [handleExport] sets the error message and
    issues no request at all; whenever it does issue the export request, at
    least one capture exists (and the session id is not empty). Mounting
    the view issues no request either. *)
Theorem handleExport_needs_captures
    (sessionId : JSString) (env : ExportEnv) (g : Signals) (f : FontState) :
  handleExport sessionId 0 env g f
    = (setError (Some (lit
         "No emojis captured yet. Go to Gallery and capture some emojis first!")) g,
       f, [])
  /\ (forall capturedCount sid name,
        In (Request (ExportFont sid name))
           (snd (handleExport sessionId capturedCount env g f)) ->
        0 < capturedCount /\ sessionId <> [] /\ sid = sessionId)
  /\ (forall c, ~ In (Request c) (snd (onMount sessionId env f))).
Proof.
  split; [reflexivity|]. split.
  - intros capturedCount sid name Hin.
    destruct (handleExport_effects sessionId capturedCount env g f)
      as [E|(Hc & Hs & rest & E & Hrest)]; rewrite E in Hin.
    + destruct Hin.
    + repeat split; try assumption.
      destruct Hin as [H|H]; [now injection H|].
      destruct (Hrest _ H) as (a & b & Hx). discriminate Hx.
  - intros c. unfold onMount, loadFont.
    destruct (fontLoaded f); [intros []|].
    destruct (loaded env); cbn [snd]; intros H; no_member H.
Qed.

End ExportViewFacts.

Module CaptureModalFacts.
Import JSFacts CaptureModal.

(** *** The pairwise segmenter is a segmenter *)
Section PairwiseSegmenterFacts.

Variable joins : N -> N -> bool.

Lemma segmentBy_head u rest :
  exists g gs, segmentBy joins (u :: rest) = (u :: g) :: gs.
Proof.
  revert u. induction rest as [|v rest IH]; intros u.
  - exists [], []. reflexivity.
  - destruct (IH v) as (g & gs & E).
    change (segmentBy joins (u :: v :: rest))
      with (match segmentBy joins (v :: rest) with
            | g :: gs => if joins u v then (u :: g) :: gs else [u] :: g :: gs
            | [] => [[u]]
            end).
    rewrite E. destruct (joins u v); eauto.
Qed.

Lemma segmentBy_cons u v rest :
  segmentBy joins (u :: v :: rest) =
  match segmentBy joins (v :: rest) with
  | g :: gs => if joins u v then (u :: g) :: gs else [u] :: g :: gs
  | [] => [[u]]
  end.
Proof. reflexivity. Qed.

Lemma segmentBy_concat s : concat (segmentBy joins s) = s.
Proof.
  induction s as [|u [|v rest] IH]; try reflexivity.
  rewrite segmentBy_cons.
  destruct (segmentBy_head v rest) as (g & gs & E).
  rewrite E in IH |- *. simpl in IH.
  destruct (joins u v); simpl; congruence.
Qed.

Lemma segmentBy_linked s g :
  In g (segmentBy joins s) -> g <> [] /\ linked joins g.
Proof.
  revert g. induction s as [|u [|v rest] IH]; intros g Hin.
  - destruct Hin.
  - destruct Hin as [<-|[]]. split; [discriminate | exact I].
  - rewrite segmentBy_cons in Hin.
    destruct (segmentBy_head v rest) as (g' & gs & E).
    rewrite E in Hin, IH.
    destruct (joins u v) eqn:J.
    + destruct Hin as [<-|Hin].
      * destruct (IH (v :: g') (or_introl eq_refl)) as [_ L].
        split; [discriminate | ]. split; assumption.
      * apply IH. right. exact Hin.
    + destruct Hin as [<-|Hin].
      * split; [discriminate | exact I].
      * apply IH. exact Hin.
Qed.

Lemma segmentBy_of_linked g :
  g <> [] -> linked joins g -> segmentBy joins g = [g].
Proof.
  induction g as [|u [|v rest] IH]; intros Hne L.
  - congruence.
  - reflexivity.
  - destruct L as [J L]. rewrite segmentBy_cons, IH, J by (discriminate || assumption).
    reflexivity.
Qed.

Lemma segmentBy_nonempty s g : In g (segmentBy joins s) -> g <> [].
Proof. intros H. apply (segmentBy_linked s g H). Qed.

Lemma segmentBy_stable s g :
  In g (segmentBy joins s) -> segmentBy joins g = [g].
Proof.
  intros H. destruct (segmentBy_linked s g H). now apply segmentBy_of_linked.
Qed.

End PairwiseSegmenterFacts.

(** *** Extraction and validation of a custom glyph *)
Section ExtractFacts.

Variable segment : JSString -> list JSString.
Variable Extended_Pictographic : N -> bool.

Local Abbreviation test := (emojiRegex_test Extended_Pictographic).
Local Abbreviation firstOf := (firstEmojiSegment Extended_Pictographic).
Local Abbreviation extract := (extractFirstEmoji segment Extended_Pictographic).
Local Abbreviation valid := (isValidEmoji segment Extended_Pictographic).

Lemma firstEmojiSegment_found l :
  firstOf l <> [] -> In (firstOf l) l /\ test (firstOf l) = true.
Proof.
  induction l as [|g l IH]; simpl; [congruence|].
  destruct (test g) eqn:T; intros Hne.
  - split; [now left | exact T].
  - destruct (IH Hne). split; [now right | assumption].
Qed.

Lemma extract_found s :
  extract s <> [] -> In (extract s) (segment s) /\ test (extract s) = true.
Proof.
  unfold extractFirstEmoji. destruct (falsy s); [congruence|].
  apply firstEmojiSegment_found.
Qed.

Lemma extract_single s :
  segment s = [s] -> test s = true -> extract s = s.
Proof.
  intros Hseg Ht. unfold extractFirstEmoji.
  destruct s as [|u s']; [discriminate Ht|].
  simpl falsy. cbv iota. rewrite Hseg. simpl. now rewrite Ht.
Qed.

Lemma valid_iff s : valid s = true <-> s <> [] /\ s = extract s.
Proof.
  unfold isValidEmoji. rewrite andb_true_iff, negb_true_iff, str_eqb_eq.
  unfold str_eqb. rewrite bool_decide_eq_false. tauto.
Qed.

Lemma valid_pictographic s : valid s = true -> test s = true.
Proof.
  rewrite valid_iff. intros [Hne He].
  rewrite He in Hne. destruct (extract_found s Hne) as [_ T]. now rewrite He.
Qed.

Lemma concat_nil_of_nonempty (l : list JSString) :
  (forall g, In g l -> g <> []) -> concat l = [] -> l = [].
Proof.
  destruct l as [|g l]; [reflexivity|]. intros Hne Hc. exfalso.
  apply (Hne g (or_introl eq_refl)).
  simpl in Hc. now apply app_eq_nil in Hc.
Qed.

Lemma sole_member (l : list JSString) :
  (forall g, In g l -> g <> []) -> In (concat l) l -> l = [concat l].
Proof.
  intros Hne Hin. destruct (in_split _ _ Hin) as (l1 & l2 & E).
  assert (Hlen : (length (concat l1) + length (concat l2) = 0)%nat).
  { pose proof (f_equal (fun x => length (concat x)) E) as L. simpl in L.
    rewrite concat_app in L. simpl in L. rewrite !length_app in L. lia. }
  assert (E1 : l1 = []).
  { apply concat_nil_of_nonempty.
    - intros g Hg. apply Hne. rewrite E. apply in_or_app. now left.
    - apply length_zero_iff_nil. lia. }
  assert (E2 : l2 = []).
  { apply concat_nil_of_nonempty.
    - intros g Hg. apply Hne. rewrite E. apply in_or_app. right. now right.
    - apply length_zero_iff_nil. lia. }
  rewrite E at 1. now rewrite E1, E2.
Qed.

(** What the code relies on from the grapheme segmenter: the segments are
    non-empty, they partition the input, and a segment is a grapheme
    cluster of its own. *)
Hypothesis segment_concat : forall s, concat (segment s) = s.
Hypothesis segment_nonempty : forall s g, In g (segment s) -> g <> [].
Hypothesis segment_stable : forall s g, In g (segment s) -> segment g = [g].

Lemma sole_segment s : In s (segment s) -> segment s = [s].
Proof.
  intros Hin. pose proof (sole_member (segment s) (segment_nonempty s)) as H.
  rewrite segment_concat in H. now apply H.
Qed.

Lemma valid_single s :
  valid s = true <-> segment s = [s] /\ test s = true.
Proof.
  split.
  - intros Hv. split; [|now apply valid_pictographic].
    apply valid_iff in Hv. destruct Hv as [Hne He].
    apply sole_segment. rewrite He at 1. apply extract_found. now rewrite <- He.
  - intros [Hseg Ht]. apply valid_iff. split.
    + intros ->. discriminate Ht.
    + symmetry. now apply extract_single.
Qed.

Lemma extract_idempotent s : extract (extract s) = extract s.
Proof.
  destruct (decide (extract s = [])) as [E|Hne].
  - rewrite E. reflexivity.
  - destruct (extract_found s Hne) as [Hin Ht].
    apply extract_single; [|exact Ht]. now apply (segment_stable s).
Qed.

(** C1. [isValidEmoji] accepts [s] exactly when [s] is non-empty and equal to
    [extractFirstEmoji s], that is, exactly when [s] is a single grapheme
    cluster holding an Extended_Pictographic code point. Extraction is
    idempotent, it returns a single pictographic grapheme unchanged, and
    validation fails on the empty string, on a string of two or more
    graphemes, and on a string with no pictographic code point. *)
Theorem isValidEmoji_single_pictographic_grapheme (s : JSString) :
  (isValidEmoji segment Extended_Pictographic s = true <->
     s <> [] /\ s = extractFirstEmoji segment Extended_Pictographic s)
  /\ (isValidEmoji segment Extended_Pictographic s = true <->
        segment s = [s] /\ emojiRegex_test Extended_Pictographic s = true)
  /\ extractFirstEmoji segment Extended_Pictographic
        (extractFirstEmoji segment Extended_Pictographic s)
      = extractFirstEmoji segment Extended_Pictographic s
  /\ (segment s = [s] -> emojiRegex_test Extended_Pictographic s = true ->
        extractFirstEmoji segment Extended_Pictographic s = s
        /\ isValidEmoji segment Extended_Pictographic s = true)
  /\ (s = [] -> isValidEmoji segment Extended_Pictographic s = false)
  /\ ((1 < length (segment s))%nat ->
        isValidEmoji segment Extended_Pictographic s = false)
  /\ (emojiRegex_test Extended_Pictographic s = false ->
        isValidEmoji segment Extended_Pictographic s = false).
Proof.
  split; [apply valid_iff|].
  split; [apply valid_single|].
  split; [apply extract_idempotent|].
  split.
  { intros Hseg Ht. split; [now apply extract_single | now apply valid_single]. }
  split; [intros ->; reflexivity|].
  split.
  - intros Hlen. apply not_true_is_false. intros Hv.
    apply valid_single in Hv. destruct Hv as [Hseg _].
    rewrite Hseg in Hlen. simpl in Hlen. lia.
  - intros Ht. apply not_true_is_false. intros Hv.
    apply valid_pictographic in Hv. congruence.
Qed.

End ExtractFacts.

(** *** Which handlers write to the capture store *)
Section HandlerFacts.

Variable segment : JSString -> list JSString.
Variable Extended_Pictographic : N -> bool.

Lemma handleCapture_effects env props g :
  snd (handleCapture env props g) = []
  \/ snd (handleCapture env props g)
     = [Request (Api.PreviewCapture (sessionId props) (currentEmoji props g)
                   (previewParams props (frame env)))].
Proof.
  unfold handleCapture. destruct (negb (videoRef env)); [now left | now right].
Qed.

Lemma handleUpload_effects env read props g :
  snd (handleUpload env read props g) = []
  \/ exists base64,
       read = Some base64 /\
       snd (handleUpload env read props g)
       = [Request (Api.PreviewCapture (sessionId props) (currentEmoji props g)
                     (previewParams props base64))].
Proof.
  unfold handleUpload. destruct read as [base64|]; [right | now left].
  exists base64. split; reflexivity.
Qed.

Lemma handleAccept_save env props g sid emoji image :
  In (Request (Api.SaveCapture sid emoji image)) (snd (handleAccept env props g)) ->
  processedImage g = Some image /\ image <> [] /\ sid = sessionId props /\
  emoji = currentEmoji props g /\ trim emoji <> [].
Proof.
  unfold handleAccept.
  destruct (processedImage g) as [image'|]; [|intros []].
  destruct (falsy image') eqn:Hi; [intros []|].
  destruct (falsy (trim (currentEmoji props g))) eqn:He; [intros []|].
  apply falsy_false in Hi, He.
  destruct (saved env); cbn [snd]; intros [H|H].
  - injection H as <- <- <-. auto.
  - destruct H as [H|[]]. discriminate H.
  - injection H as <- <- <-. auto.
  - destruct H.
Qed.

Lemma handleAcceptAndNext_save env props g sid emoji image :
  In (Request (Api.SaveCapture sid emoji image))
     (snd (handleAcceptAndNext env props g)) ->
  processedImage g = Some image /\ image <> [] /\ sid = sessionId props /\
  emoji = currentEmoji props g /\ trim emoji <> [].
Proof.
  unfold handleAcceptAndNext.
  destruct (processedImage g) as [image'|]; [|intros []].
  destruct (falsy image') eqn:Hi; [intros []|].
  destruct (falsy (trim (currentEmoji props g))) eqn:He; [intros []|].
  apply falsy_false in Hi, He.
  destruct (saved env); cbn [snd]; intros [H|H].
  - injection H as <- <- <-. auto.
  - destruct (onNext props); [no_member H | destruct H].
  - injection H as <- <- <-. auto.
  - destruct H.
Qed.

Lemma handleDelete_no_save env props g sid emoji image :
  ~ In (Request (Api.SaveCapture sid emoji image)) (snd (handleDelete env props g)).
Proof.
  unfold handleDelete. destruct (deleted env); cbn [snd]; intros H.
  - destruct H as [H|[H|[]]]; discriminate H.
  - no_member H.
Qed.

Lemma handleCapture_no_save env props g sid emoji image :
  ~ In (Request (Api.SaveCapture sid emoji image)) (snd (handleCapture env props g)).
Proof.
  destruct (handleCapture_effects env props g) as [-> | ->]; intros H.
  - destruct H.
  - destruct H as [H|[]]. discriminate H.
Qed.

Lemma handleUpload_no_save env read props g sid emoji image :
  ~ In (Request (Api.SaveCapture sid emoji image))
       (snd (handleUpload env read props g)).
Proof.
  destruct (handleUpload_effects env read props g) as [-> | (b & _ & ->)]; intros H.
  - destruct H.
  - destruct H as [H|[]]. discriminate H.
Qed.

Lemma countdownTick_no_save env props g sid emoji image :
  ~ In (Request (Api.SaveCapture sid emoji image)) (snd (countdownTick env props g)).
Proof.
  unfold countdownTick.
  destruct (match countdown g with Some prev => (prev <=? 1)%Z | None => true end);
    [|intros []].
  pose proof (handleCapture_no_save env props (setCountdownInterval false g)
                sid emoji image) as Hno.
  destruct (handleCapture env props (setCountdownInterval false g)) as [g' effects].
  cbn [snd] in *. intros [H|H]; [discriminate H | now apply Hno].
Qed.

(** C4. Previewing, from the webcam or from an uploaded file, issues the
    preview request and nothing else; the save request is issued only by
    the two accept handlers, run from their buttons or from the keyboard
    while a fresh preview is shown, and what it stores is the previewed
    image. *)
Theorem saveCapture_only_on_accept (env : Env) (props : Props) (g : Signals) :
  (forall x, In x (snd (handleCapture env props g)) ->
     exists params,
       x = Request (Api.PreviewCapture (sessionId props) (currentEmoji props g) params))
  /\ (forall read x, In x (snd (handleUpload env read props g)) ->
     exists params,
       x = Request (Api.PreviewCapture (sessionId props) (currentEmoji props g) params))
  /\ (forall a sid emoji image,
       In (Request (Api.SaveCapture sid emoji image))
          (snd (step segment Extended_Pictographic env props a g)) ->
       (a = ClickAccept \/ a = ClickNext \/
        exists key, a = KeyDown false key /\ acceptKey key /\
                    state g = Preview /\ viewingExisting g = false)
       /\ processedImage g = Some image /\ image <> [] /\
       sid = sessionId props /\ emoji = currentEmoji props g /\ trim emoji <> []).
Proof.
  split; [|split].
  - intros x Hx.
    destruct (handleCapture_effects env props g) as [E|E]; rewrite E in Hx.
    + destruct Hx.
    + destruct Hx as [<-|[]]. eauto.
  - intros read x Hx.
    destruct (handleUpload_effects env read props g) as [E|(b & _ & E)];
      rewrite E in Hx.
    + destruct Hx.
    + destruct Hx as [<-|[]]. eauto.
  - intros a sid emoji image Hin. destruct a; cbn [step snd] in Hin.
    + destruct Hin.
    + destruct Hin.
    + no_member Hin.
    + now apply handleCapture_no_save in Hin.
    + unfold handleDelayedCapture in Hin. cbn [snd] in Hin.
      destruct (countdownInterval g); cbn in Hin;
        no_member Hin.
    + now apply countdownTick_no_save in Hin.
    + unfold cancelCountdown in Hin. destruct (countdownInterval g); cbn in Hin.
      * no_member Hin.
      * destruct Hin.
    + unfold handleFileSelect in Hin. destruct file as [read|].
      * now apply handleUpload_no_save in Hin.
      * destruct Hin.
    + split; [now left | now apply (handleAccept_save env)].
    + split; [right; now left | now apply (handleAcceptAndNext_save env)].
    + unfold handleRetake in Hin. destruct (negb (streamActive env)); destruct Hin.
    + now apply handleDelete_no_save in Hin.
    + unfold handleKeyDown in Hin.
      destruct onFormElement; [destruct Hin|].
      destruct (str_eqb key (lit "Enter") || str_eqb key (lit " ")) eqn:K.
      * assert (Hk : acceptKey key).
        { apply orb_true_iff in K. destruct K as [K|K]; apply str_eqb_eq in K;
            [now left | now right]. }
        destruct (state g) eqn:S.
        -- destruct (negb (errorMentionsCamera g));
             [now apply handleCapture_no_save in Hin | destruct Hin].
        -- destruct (viewingExisting g) eqn:V; [destruct Hin|]. cbn [negb] in Hin.
           split; [right; right; exists key; auto|].
           destruct (onNext props);
             [now apply (handleAcceptAndNext_save env) | now apply (handleAccept_save env)].
        -- destruct Hin.
      * destruct (str_eqb key (lit "Delete") || str_eqb key (lit "Backspace"));
          [|destruct Hin].
        destruct (state g); try destruct Hin.
        destruct (viewingExisting g);
          [now apply handleDelete_no_save in Hin | destruct Hin].
    + destruct Hin.
    + unfold onPaddingInput, handlePaddingChange in Hin.
      no_member Hin.
    + no_member Hin.
    + no_member Hin.
    + no_member Hin.
Qed.


End HandlerFacts.

Example extract_from_text :
  extractFirstEmoji refSegment refPictographic
    (lit "hi " ++ grinningFace ++ lit "!")
  = grinningFace.
Proof. vm_compute. reflexivity. Qed.

Example two_emojis_not_valid :
  isValidEmoji refSegment refPictographic (grinningFace ++ grinningFace) = false.
Proof. vm_compute. reflexivity. Qed.

Example letters_not_valid :
  isValidEmoji refSegment refPictographic (lit "abc") = false.
Proof. vm_compute. reflexivity. Qed.

(** The reference segmenter meets the segmenter's contract, and the grinning
    face is a valid custom glyph under it. *)
Lemma isValidEmoji_grinningFace :
  isValidEmoji refSegment refPictographic grinningFace = true.
Proof.
  apply (proj2 (proj1 (proj2
    (isValidEmoji_single_pictographic_grapheme refSegment refPictographic
       (segmentBy_concat refJoins) (segmentBy_nonempty refJoins)
       (segmentBy_stable refJoins) grinningFace)))).
  split; vm_compute; reflexivity.
Defined.

(** *** Runs of the component *)
Section RunFacts.

Variable segment : JSString -> list JSString.
Variable Extended_Pictographic : N -> bool.

Local Abbreviation stepOf := (step segment Extended_Pictographic).

(** The emoji a save request names. *)
Lemma step_save env props a g sid emoji image :
  In (Request (Api.SaveCapture sid emoji image)) (snd (stepOf env props a g)) ->
  emoji = currentEmoji props g /\ trim emoji <> [].
Proof.
  assert (Haccept : forall e,
            In (Request (Api.SaveCapture sid emoji image))
               (snd (handleAccept e props g)) ->
            emoji = currentEmoji props g /\ trim emoji <> []).
  { intros e H. apply handleAccept_save in H. tauto. }
  assert (Hnext : forall e,
            In (Request (Api.SaveCapture sid emoji image))
               (snd (handleAcceptAndNext e props g)) ->
            emoji = currentEmoji props g /\ trim emoji <> []).
  { intros e H. apply handleAcceptAndNext_save in H. tauto. }
  intros Hin. destruct a; cbn [step snd] in Hin.
  - destruct Hin.
  - destruct Hin.
  - no_member Hin.
  - now apply handleCapture_no_save in Hin.
  - unfold handleDelayedCapture in Hin. cbn [snd] in Hin.
    destruct (countdownInterval g); cbn in Hin; no_member Hin.
  - now apply countdownTick_no_save in Hin.
  - unfold cancelCountdown in Hin. destruct (countdownInterval g); cbn in Hin.
    + no_member Hin.
    + destruct Hin.
  - unfold handleFileSelect in Hin. destruct file as [read|].
    + now apply handleUpload_no_save in Hin.
    + destruct Hin.
  - now apply (Haccept env).
  - now apply (Hnext env).
  - unfold handleRetake in Hin. destruct (negb (streamActive env)); destruct Hin.
  - now apply handleDelete_no_save in Hin.
  - unfold handleKeyDown in Hin.
    destruct onFormElement; [destruct Hin|].
    destruct (str_eqb key (lit "Enter") || str_eqb key (lit " ")).
    + destruct (state g).
      * destruct (negb (errorMentionsCamera g));
          [now apply handleCapture_no_save in Hin | destruct Hin].
      * destruct (viewingExisting g); [destruct Hin|]. cbn [negb] in Hin.
        destruct (onNext props); [now apply (Hnext env) | now apply (Haccept env)].
      * destruct Hin.
    + destruct (str_eqb key (lit "Delete") || str_eqb key (lit "Backspace"));
        [|destruct Hin].
      destruct (state g); try destruct Hin.
      destruct (viewingExisting g);
        [now apply handleDelete_no_save in Hin | destruct Hin].
  - destruct Hin.
  - unfold onPaddingInput, handlePaddingChange in Hin. no_member Hin.
  - no_member Hin.
  - no_member Hin.
  - no_member Hin.
Qed.

(** [previewSettled] and the handlers around it leave the three signals of
    the custom input and of the countdown as they are. *)
Lemma previewSettled_keeps env g :
  customEmojiInput (previewSettled env g) = customEmojiInput g
  /\ countdown (previewSettled env g) = countdown g
  /\ countdownInterval (previewSettled env g) = countdownInterval g.
Proof. unfold previewSettled. now destruct (previewed env). Qed.

Lemma handleCapture_keeps env props g :
  customEmojiInput (fst (handleCapture env props g)) = customEmojiInput g
  /\ countdown (fst (handleCapture env props g)) = countdown g
  /\ countdownInterval (fst (handleCapture env props g)) = countdownInterval g.
Proof.
  unfold handleCapture. destruct (negb (videoRef env)); [now repeat split|].
  cbn [fst]. unfold previewSettled. now destruct (previewed env).
Qed.

Lemma handleUpload_keeps env read props g :
  customEmojiInput (fst (handleUpload env read props g)) = customEmojiInput g
  /\ countdown (fst (handleUpload env read props g)) = countdown g
  /\ countdownInterval (fst (handleUpload env read props g)) = countdownInterval g.
Proof.
  unfold handleUpload. destruct read; [|now repeat split].
  cbn [fst]. unfold previewSettled. now destruct (previewed env).
Qed.

Lemma initWebcam_keeps env g :
  customEmojiInput (initWebcam env g) = customEmojiInput g
  /\ countdown (initWebcam env g) = countdown g
  /\ countdownInterval (initWebcam env g) = countdownInterval g
  /\ state (initWebcam env g) = state g.
Proof.
  unfold initWebcam. destruct (videoRef env); [|now repeat split].
  now destruct (webcamStarted env).
Qed.

Lemma handleAccept_keeps env props g :
  customEmojiInput (fst (handleAccept env props g)) = customEmojiInput g
  /\ countdown (fst (handleAccept env props g)) = countdown g
  /\ countdownInterval (fst (handleAccept env props g)) = countdownInterval g.
Proof.
  unfold handleAccept. destruct (processedImage g) as [image|]; [|now repeat split].
  destruct (falsy image); [now repeat split|].
  destruct (falsy (trim (currentEmoji props g))); [now repeat split|].
  now destruct (saved env).
Qed.

Lemma handleAcceptAndNext_keeps env props g :
  customEmojiInput (fst (handleAcceptAndNext env props g)) = customEmojiInput g
  /\ countdown (fst (handleAcceptAndNext env props g)) = countdown g
  /\ countdownInterval (fst (handleAcceptAndNext env props g))
     = countdownInterval g.
Proof.
  unfold handleAcceptAndNext.
  destruct (processedImage g) as [image|]; [|now repeat split].
  destruct (falsy image); [now repeat split|].
  destruct (falsy (trim (currentEmoji props g))); [now repeat split|].
  now destruct (saved env).
Qed.

Lemma handleDelete_keeps env props g :
  customEmojiInput (fst (handleDelete env props g)) = customEmojiInput g
  /\ countdown (fst (handleDelete env props g)) = countdown g
  /\ countdownInterval (fst (handleDelete env props g)) = countdownInterval g.
Proof. unfold handleDelete. now destruct (deleted env). Qed.

Lemma handleKeyDown_keeps env onFormElement key props g :
  customEmojiInput (fst (handleKeyDown env onFormElement key props g))
  = customEmojiInput g
  /\ countdown (fst (handleKeyDown env onFormElement key props g)) = countdown g
  /\ countdownInterval (fst (handleKeyDown env onFormElement key props g))
     = countdownInterval g.
Proof.
  unfold handleKeyDown. destruct onFormElement; [now repeat split|].
  destruct (str_eqb key (lit "Enter") || str_eqb key (lit " ")).
  - destruct (state g); [| |now repeat split].
    + destruct (negb (errorMentionsCamera g));
        [apply handleCapture_keeps | now repeat split].
    + destruct (negb (viewingExisting g)); [|now repeat split].
      destruct (onNext props);
        [apply handleAcceptAndNext_keeps | apply handleAccept_keeps].
  - destruct (str_eqb key (lit "Delete") || str_eqb key (lit "Backspace"));
      [|now repeat split].
    destruct (state g); try now repeat split.
    destruct (viewingExisting g); [apply handleDelete_keeps | now repeat split].
Qed.

Lemma countdownTick_fields env props g :
  customEmojiInput (fst (countdownTick env props g)) = customEmojiInput g
  /\ match countdown g with
     | Some prev =>
         if (prev <=? 1)%Z
         then countdown (fst (countdownTick env props g)) = None
              /\ countdownInterval (fst (countdownTick env props g)) = false
         else countdown (fst (countdownTick env props g)) = Some (prev - 1)%Z
              /\ countdownInterval (fst (countdownTick env props g))
                 = countdownInterval g
     | None =>
         countdown (fst (countdownTick env props g)) = None
         /\ countdownInterval (fst (countdownTick env props g)) = false
     end.
Proof.
  unfold countdownTick.
  pose proof (handleCapture_keeps env props (setCountdownInterval false g))
    as (Hc & _ & Hi).
  destruct (handleCapture env props (setCountdownInterval false g))
    as [g' effects]. cbn [fst] in Hc, Hi.
  destruct (countdown g) as [prev|] eqn:E.
  - destruct (prev <=? 1)%Z; cbn [fst]; [|now repeat split].
    split; [exact Hc|]. split; [reflexivity | exact Hi].
  - cbn [fst]. split; [exact Hc|]. split; [reflexivity | exact Hi].
Qed.

(** The custom input is written by the input handler alone. *)
Lemma step_customEmojiInput env props a g :
  customEmojiInput (fst (stepOf env props a g))
  = match a with
    | EmojiInput value => extractFirstEmoji segment Extended_Pictographic value
    | _ => customEmojiInput g
    end.
Proof.
  destruct a; cbn [step fst]; try reflexivity.
  - unfold onMount. destruct (existingCapture props); [reflexivity|].
    apply initWebcam_keeps.
  - unfold emojiChanged. now destruct (existingCapture props).
  - apply handleCapture_keeps.
  - apply countdownTick_fields.
  - unfold cancelCountdown. now destruct (countdownInterval g).
  - unfold handleFileSelect. destruct file; [apply handleUpload_keeps | reflexivity].
  - apply handleAccept_keeps.
  - apply handleAcceptAndNext_keeps.
  - unfold handleRetake. destruct (negb (streamActive env)); [|reflexivity].
    cbn [fst]. now rewrite (proj1 (initWebcam_keeps env _)).
  - apply handleDelete_keeps.
  - apply handleKeyDown_keeps.
Qed.

(** The countdown is written by its own three handlers alone. *)
Lemma step_countdown env props a g :
  match a with
  | ClickDelayedCapture =>
      countdown (fst (stepOf env props a g)) = Some 3%Z
      /\ countdownInterval (fst (stepOf env props a g)) = true
  | Tick =>
      match countdown g with
      | Some prev =>
          if (prev <=? 1)%Z
          then countdown (fst (stepOf env props a g)) = None
               /\ countdownInterval (fst (stepOf env props a g)) = false
          else countdown (fst (stepOf env props a g)) = Some (prev - 1)%Z
               /\ countdownInterval (fst (stepOf env props a g))
                  = countdownInterval g
      | None =>
          countdown (fst (stepOf env props a g)) = None
          /\ countdownInterval (fst (stepOf env props a g)) = false
      end
  | ClickCancelCountdown =>
      countdown (fst (stepOf env props a g)) = None
      /\ countdownInterval (fst (stepOf env props a g)) = false
  | _ =>
      countdown (fst (stepOf env props a g)) = countdown g
      /\ countdownInterval (fst (stepOf env props a g)) = countdownInterval g
  end.
Proof.
  destruct a; cbn [step fst]; try (split; reflexivity).
  - unfold onMount. destruct (existingCapture props); [now split|].
    pose proof (initWebcam_keeps env g). tauto.
  - unfold emojiChanged. destruct (existingCapture props); split; reflexivity.
  - pose proof (handleCapture_keeps env props g). tauto.
  - apply countdownTick_fields.
  - unfold cancelCountdown.
    destruct (countdownInterval g) eqn:E; split; try reflexivity; exact E.
  - unfold handleFileSelect. destruct file as [read|]; [|now split].
    pose proof (handleUpload_keeps env read props g). tauto.
  - pose proof (handleAccept_keeps env props g). tauto.
  - pose proof (handleAcceptAndNext_keeps env props g). tauto.
  - unfold handleRetake. destruct (negb (streamActive env)); [|now split].
    cbn [fst]. destruct (initWebcam_keeps env
      (setViewingExisting false
         (setError None
            (setState Webcam (setCapturedFrame None (setProcessedImage None g))))))
      as (_ & -> & -> & _). now split.
  - pose proof (handleDelete_keeps env props g). tauto.
  - pose proof (handleKeyDown_keeps env onFormElement key props g). tauto.
Qed.

Lemma run_cons env props a rest g :
  run segment Extended_Pictographic ((env, props, a) :: rest) g
  = (fst (run segment Extended_Pictographic rest (fst (stepOf env props a g))),
     map (pair props) (snd (stepOf env props a g))
     ++ snd (run segment Extended_Pictographic rest (fst (stepOf env props a g)))).
Proof.
  cbn [run]. destruct (stepOf env props a g) as [g1 effects]. cbn [fst snd].
  now destruct (run segment Extended_Pictographic rest g1).
Qed.

(** X23. The countdown over any run of the component: the countdown
    shown is 3, 2 or 1 or there is none, and a timer is running exactly
    while one is shown. *)
Theorem countdown_shown_while_timer_runs
    (script : list (Env * Props * Action)) (g : Signals) :
  (countdown g = None /\ countdownInterval g = false
   \/ exists n, countdown g = Some n /\ (1 <= n <= 3)%Z
                /\ countdownInterval g = true) ->
  countdown (fst (run segment Extended_Pictographic script g)) = None
  /\ countdownInterval (fst (run segment Extended_Pictographic script g)) = false
  \/ exists n,
       countdown (fst (run segment Extended_Pictographic script g)) = Some n
       /\ (1 <= n <= 3)%Z
       /\ countdownInterval (fst (run segment Extended_Pictographic script g))
          = true.
Proof.
  revert g. induction script as [|[[env props] a] rest IH]; intros g Hg;
    [exact Hg|].
  rewrite run_cons. cbn [fst]. apply IH.
  pose proof (step_countdown env props a g) as Hstep.
  destruct a;
    try (destruct Hstep as [-> ->]; exact Hg).
  - destruct Hstep as [-> ->]. right. exists 3%Z. split; [reflexivity|].
    split; [lia | reflexivity].
  - destruct Hg as [[Hc Hi] | (n & Hc & Hn & Hi)]; rewrite Hc in Hstep.
    + left. exact Hstep.
    + destruct (n <=? 1)%Z eqn:E; [left; exact Hstep|].
      apply Z.leb_gt in E. destruct Hstep as [-> ->]. right.
      exists (n - 1)%Z. split; [reflexivity|]. split; [lia | exact Hi].
  - left. exact Hstep.
Qed.

(** X24. A delayed capture fires on the third tick of its timer, not
    before: the first two ticks only count down to 2 and to 1 and issue
    nothing; the third stops the timer, runs [handleCapture] and clears the
    countdown. *)
Theorem delayed_capture_fires_on_third_tick
    (env1 env2 env3 : Env) (props : Props) (g : Signals) :
  countdown (fst (handleDelayedCapture g)) = Some 3%Z
  /\ countdownTick env1 props (fst (handleDelayedCapture g))
     = (setCountdown (Some 2%Z) (fst (handleDelayedCapture g)), [])
  /\ countdownTick env2 props
       (setCountdown (Some 2%Z) (fst (handleDelayedCapture g)))
     = (setCountdown (Some 1%Z) (fst (handleDelayedCapture g)), [])
  /\ snd (countdownTick env3 props
            (setCountdown (Some 1%Z) (fst (handleDelayedCapture g))))
     = ClearInterval
       :: snd (handleCapture env3 props
                 (setCountdownInterval false
                    (setCountdown (Some 1%Z) (fst (handleDelayedCapture g)))))
  /\ countdown
       (fst (countdownTick env3 props
               (setCountdown (Some 1%Z) (fst (handleDelayedCapture g))))) = None
  /\ countdownInterval
       (fst (countdownTick env3 props
               (setCountdown (Some 1%Z) (fst (handleDelayedCapture g))))) = false.
Proof.
  split; [reflexivity|]. split; [reflexivity|]. split; [reflexivity|].
  pose proof (countdownTick_fields env3 props
                (setCountdown (Some 1%Z) (fst (handleDelayedCapture g))))
    as (_ & Hc & Hi).
  split; [|split; [exact Hc | exact Hi]].
  unfold countdownTick. cbn [countdown setCountdown Z.leb Z.compare Pos.compare].
  now destruct (handleCapture env3 props _).
Qed.

(** *** The custom emoji *)

(** What the code relies on from the grapheme segmenter here: a segment is
    a grapheme cluster of its own. *)
Hypothesis segment_stable : forall s g, In g (segment s) -> segment g = [g].

Lemma extract_empty_or_valid (value : JSString) :
  extractFirstEmoji segment Extended_Pictographic value = []
  \/ isValidEmoji segment Extended_Pictographic
       (extractFirstEmoji segment Extended_Pictographic value) = true.
Proof.
  destruct (decide (extractFirstEmoji segment Extended_Pictographic value = []))
    as [H|H]; [now left | right].
  apply valid_iff. split; [exact H|].
  symmetry. now apply extract_idempotent.
Qed.

(** X25. [handleEmojiInput] keeps of the typed text its first
    pictographic grapheme: the input signal then holds the empty string or
    a valid emoji, and in the add-custom flow capturing is disabled exactly
    when the typed text holds no pictographic grapheme. *)
Theorem handleEmojiInput_sanitizes (value : JSString) (g : Signals) :
  customEmojiInput (handleEmojiInput segment Extended_Pictographic value g)
  = extractFirstEmoji segment Extended_Pictographic value
  /\ (customEmojiInput (handleEmojiInput segment Extended_Pictographic value g)
      = []
      \/ isValidEmoji segment Extended_Pictographic
           (customEmojiInput
              (handleEmojiInput segment Extended_Pictographic value g)) = true)
  /\ (forall props,
        isCustom props = true -> existingCapture props = None ->
        (captureDisabled segment Extended_Pictographic props
           (handleEmojiInput segment Extended_Pictographic value g) = true
         <-> extractFirstEmoji segment Extended_Pictographic value = [])).
Proof.
  split; [reflexivity|]. split; [apply extract_empty_or_valid|].
  intros props Hc He. unfold captureDisabled, handleEmojiInput.
  rewrite Hc, He. cbn [customEmojiInput setCustomEmojiInput andb negb].
  replace (bool_decide (is_Some (@None Api.CapturedEmoji))) with false
    by (symmetry; apply bool_decide_eq_false; intros [x Hx]; discriminate Hx).
  cbn [negb andb]. rewrite negb_true_iff. split.
  - intros Hv. destruct (extract_empty_or_valid value) as [H|H]; [exact H|].
    congruence.
  - intros H. rewrite H. reflexivity.
Qed.

(** X26. In the add-custom flow every capture is stored under a valid
    emoji: over any run of the component that starts with the empty string
    or a valid emoji in the input, a save request issued while the
    component is in custom mode with no existing capture names a valid
    emoji (the input), and any other save request names the emoji of the
    properties. *)
Theorem custom_saves_name_a_valid_emoji
    (script : list (Env * Props * Action)) (g : Signals)
    (props : Props) (sid emoji image : JSString) :
  customEmojiInput g = []
  \/ isValidEmoji segment Extended_Pictographic (customEmojiInput g) = true ->
  In (props, Request (Api.SaveCapture sid emoji image))
     (snd (run segment Extended_Pictographic script g)) ->
  (isCustom props = true -> existingCapture props = None ->
   isValidEmoji segment Extended_Pictographic emoji = true)
  /\ (isCustom props = false \/ existingCapture props <> None ->
      emoji = Api.emoji (CaptureModal.emoji props)).
Proof.
  revert g. induction script as [|[[env p] a] rest IH]; intros g Hg Hin;
    [destruct Hin|].
  rewrite run_cons in Hin. cbn [snd] in Hin.
  apply in_app_iff in Hin. destruct Hin as [Hin|Hin].
  - apply in_map_iff in Hin. destruct Hin as (x & [= -> ->] & Hx).
    apply step_save in Hx. destruct Hx as [-> Htrim].
    unfold currentEmoji in *. split.
    + intros Hc He. rewrite Hc, He in *.
      replace (bool_decide (is_Some (@None Api.CapturedEmoji))) with false in *
        by (symmetry; apply bool_decide_eq_false; intros [y Hy]; discriminate Hy).
      cbn [negb andb] in *.
      destruct Hg as [Hg|Hg]; [|exact Hg].
      rewrite Hg in Htrim. now contradiction Htrim.
    + intros [Hc|He]; [now rewrite Hc|].
      destruct (existingCapture props) as [c|]; [|congruence].
      replace (bool_decide (is_Some (Some c))) with true
        by (symmetry; apply bool_decide_eq_true; now eexists).
      cbn [negb]. now rewrite andb_false_r.
  - apply (IH (fst (stepOf env p a g))); [|exact Hin].
    rewrite step_customEmojiInput.
    destruct a; try exact Hg. apply extract_empty_or_valid.
Qed.

End RunFacts.

Lemma countdown_shown_while_timer_runs_example :
  countdown (fst (run refSegment refPictographic
                    [(deniedEnv, customProps, ClickDelayedCapture);
                     (deniedEnv, customProps, Tick)]
                    (initialSignals customProps))) = None
  /\ countdownInterval
       (fst (run refSegment refPictographic
               [(deniedEnv, customProps, ClickDelayedCapture);
                (deniedEnv, customProps, Tick)]
               (initialSignals customProps))) = false
  \/ exists n,
       countdown (fst (run refSegment refPictographic
                         [(deniedEnv, customProps, ClickDelayedCapture);
                          (deniedEnv, customProps, Tick)]
                         (initialSignals customProps))) = Some n
       /\ (1 <= n <= 3)%Z
       /\ countdownInterval
            (fst (run refSegment refPictographic
                    [(deniedEnv, customProps, ClickDelayedCapture);
                     (deniedEnv, customProps, Tick)]
                    (initialSignals customProps))) = true.
Proof.
  apply (countdown_shown_while_timer_runs refSegment refPictographic
           [(deniedEnv, customProps, ClickDelayedCapture);
            (deniedEnv, customProps, Tick)]
           (initialSignals customProps)).
  left. split; reflexivity.
Defined.

Lemma handleEmojiInput_sanitizes_example :
  customEmojiInput
    (handleEmojiInput refSegment refPictographic
       (lit "hi " ++ grinningFace ++ lit "!") (initialSignals customProps))
  = grinningFace.
Proof.
  pose proof (handleEmojiInput_sanitizes refSegment refPictographic
                (segmentBy_stable refJoins)
                (lit "hi " ++ grinningFace ++ lit "!")
                (initialSignals customProps))
    as (H & _ & _).
  rewrite H. vm_compute. reflexivity.
Defined.

Lemma custom_saves_name_a_valid_emoji_example :
  isValidEmoji refSegment refPictographic grinningFace = true.
Proof.
  refine (proj1 (custom_saves_name_a_valid_emoji refSegment refPictographic
            (segmentBy_stable refJoins)
            [(deniedEnv, customProps, EmojiInput (lit "hi " ++ grinningFace));
             (deniedEnv, customProps, ClickAccept)]
            (setProcessedImage (Some (lit "data:image/png;base64,BBBB"))
               (initialSignals customProps))
            customProps (lit "a1b2c3d4") grinningFace
            (lit "data:image/png;base64,BBBB") _ _) eq_refl eq_refl).
  - left. reflexivity.
  - vm_compute. left. reflexivity.
Defined.

(** *** A webcam that does not start *)

Lemma startsWithCI_app (pattern a b : JSString) :
  startsWithCI pattern a = true -> startsWithCI pattern (a ++ b) = true.
Proof.
  revert a. induction pattern as [|p pattern IH]; intros a; [reflexivity|].
  destruct a as [|c a]; [discriminate|]. simpl.
  rewrite !andb_true_iff. intros [H1 H2]. split; [exact H1 | now apply IH].
Qed.

Lemma includesCI_app (pattern a b : JSString) :
  includesCI pattern a = true -> includesCI pattern (a ++ b) = true.
Proof.
  induction a as [|c a IH].
  - simpl. rewrite orb_false_r. intros H.
    destruct pattern; [now destruct b | discriminate H].
  - cbn [includesCI app]. rewrite !orb_true_iff. intros [H|H].
    + left. now apply (startsWithCI_app pattern (c :: a) b).
    + right. now apply IH.
Qed.

Lemma webcamErrorMessage_mentions_camera (env : Env) (err : MediaError) :
  includesCI (lit "camera") (webcamErrorMessage env err)
  || includesCI (lit "webcam") (webcamErrorMessage env err) = true.
Proof.
  unfold webcamErrorMessage.
  destruct (isOneOf (errorName err) _).
  { destruct (negb (isSecure env)); [reflexivity|].
    destruct (isFirefox env); reflexivity. }
  destruct (isOneOf (errorName err) _); [reflexivity|].
  destruct (isOneOf (errorName err) _); [reflexivity|].
  destruct (str_eqb (errorName err) _); [reflexivity|].
  destruct (str_eqb (errorName err) _); [reflexivity|].
  apply orb_true_iff. right.
  apply (includesCI_app (lit "webcam") (lit "Failed to access webcam: ")).
  reflexivity.
Qed.

(** X27. When the webcam fails to start as the component mounts, the
    error shown mentions the camera, whatever the error was, and no key
    then triggers a capture or any other request: the keyboard handler
    leaves the signals as they are. *)
Theorem webcam_failure_blocks_keyboard_capture
    (segment : JSString -> list JSString) (Extended_Pictographic : N -> bool)
    (env env' : Env) (props : Props) (g : Signals) (err : MediaError)
    (onFormElement : bool) (key : JSString) :
  existingCapture props = None -> videoRef env = true ->
  webcamStarted env = Some err -> state g = Webcam ->
  error (onMount env props g) = Some (webcamErrorMessage env err)
  /\ errorMentionsCamera (onMount env props g) = true
  /\ step segment Extended_Pictographic env' props (KeyDown onFormElement key)
       (onMount env props g)
     = (onMount env props g, []).
Proof.
  intros He Hv Hw Hs. unfold onMount, initWebcam. rewrite He, Hv, Hw.
  assert (Hm : errorMentionsCamera
                 (setError (Some (webcamErrorMessage env err)) g) = true).
  { unfold errorMentionsCamera. cbn [error setError].
    apply webcamErrorMessage_mentions_camera. }
  split; [reflexivity|]. split; [exact Hm|].
  cbn [step]. unfold handleKeyDown. rewrite Hm.
  cbn [state setError]. rewrite Hs.
  destruct onFormElement; [reflexivity|].
  destruct (str_eqb key (lit "Enter") || str_eqb key (lit " ")); [reflexivity|].
  now destruct (str_eqb key (lit "Delete") || str_eqb key (lit "Backspace")).
Qed.

Lemma webcam_failure_blocks_keyboard_capture_example :
  error (onMount deniedEnv customProps (initialSignals customProps))
  = Some (lit "Camera permission denied. Please grant camera access in your browser settings.")
  /\ errorMentionsCamera (onMount deniedEnv customProps (initialSignals customProps))
     = true
  /\ step refSegment refPictographic deniedEnv customProps
       (KeyDown false (lit "Enter"))
       (onMount deniedEnv customProps (initialSignals customProps))
     = (onMount deniedEnv customProps (initialSignals customProps), []).
Proof.
  apply (webcam_failure_blocks_keyboard_capture refSegment refPictographic
           deniedEnv deniedEnv customProps (initialSignals customProps)
           {| errorName := lit "NotAllowedError"; errorMessage := [] |}
           false (lit "Enter")); reflexivity.
Defined.

(** *** Another emoji *)

(** X29. When the component is handed another emoji, the preview of the
    previous one is dropped with the error and the captured frame. If the
    new emoji has no capture the component is back on the webcam with no
    image, and accepting stores nothing; whatever the new emoji, no key
    then stores a capture. *)
Theorem emojiChanged_drops_pending_preview
    (segment : JSString -> list JSString) (Extended_Pictographic : N -> bool)
    (props : Props) (g : Signals) :
  error (emojiChanged props g) = None
  /\ capturedFrame (emojiChanged props g) = None
  /\ (existingCapture props = None ->
      state (emojiChanged props g) = Webcam
      /\ processedImage (emojiChanged props g) = None
      /\ forall env,
           handleAccept env props (emojiChanged props g)
           = (emojiChanged props g, [])
           /\ handleAcceptAndNext env props (emojiChanged props g)
              = (emojiChanged props g, []))
  /\ (forall env onFormElement key sid emoji image,
        ~ In (Request (Api.SaveCapture sid emoji image))
             (snd (step segment Extended_Pictographic env props
                     (KeyDown onFormElement key) (emojiChanged props g)))).
Proof.
  split; [reflexivity|]. split; [reflexivity|]. split.
  - intros He. unfold emojiChanged. rewrite He.
    split; [reflexivity|]. split; [reflexivity|]. intros env. split; reflexivity.
  - intros env onFormElement key sid emoji image. cbn [step].
    unfold handleKeyDown. destruct onFormElement; [intros []|].
    assert (Hstate : state (emojiChanged props g) = Webcam
                     \/ state (emojiChanged props g) = Preview
                        /\ viewingExisting (emojiChanged props g) = true).
    { unfold emojiChanged. destruct (existingCapture props); [right|left];
        now repeat split. }
    destruct (str_eqb key (lit "Enter") || str_eqb key (lit " ")).
    + destruct Hstate as [-> | [-> ->]]; [|intros []].
      destruct (negb (errorMentionsCamera (emojiChanged props g)));
        [apply handleCapture_no_save | intros []].
    + destruct (str_eqb key (lit "Delete") || str_eqb key (lit "Backspace"));
        [|intros []].
      destruct Hstate as [-> | [-> ->]]; [intros []|].
      apply handleDelete_no_save.
Qed.

End CaptureModalFacts.

(** ** App.tsx *)
Module AppFacts.
Import Api App.

(** C5. When [clearSession] succeeds, [handleClearAll] resets the font
    state: the font URL, the font family id and the last generation
    timestamp are [null] and the font is not loaded. (The dialog is closed
    and the gallery is fetched again; when the request fails the font state
    is left as it was.) *)
Theorem handleClearAll_invalidates_font (sessionId : JSString) (st : State) :
  font (fst (fst (handleClearAll sessionId (Return tt) st)))
    = {| ExportView.fontUrl := None;
         ExportView.fontLoaded := false;
         ExportView.fontFamilyId := None;
         ExportView.localLastGeneration := None |}
  /\ snd (fst (handleClearAll sessionId (Return tt) st))
      = [Request (ClearSession sessionId); RefetchGallery]
  /\ clearing (fst (fst (handleClearAll sessionId (Return tt) st))) = false
  /\ showClearConfirm (fst (fst (handleClearAll sessionId (Return tt) st))) = false
  /\ forall err, font (fst (fst (handleClearAll sessionId (Throw err) st))) = font st.
Proof. repeat split. Qed.

(** *** Settings *)








(** A load that fails after a change in the capture modal leaves the
    changed settings, not the defaults. *)
Example failed_load_keeps_changes :
  settings (step (SettingsLoaded (lit "a1b2c3d4") (Throw (Error [])))
              (step (SettingsChange quarterPadding) initialState))
  = quarterPadding.
Proof. reflexivity. Qed.

(** *** Advancing to the next glyph *)
Section NextFacts.

Variable emojis : list Emoji.
Variable captured : gset JSString.

Local Abbreviation len := (Z.of_nat (length emojis)).



Lemma at_index_lookup (i : Z) :
  (0 <= i)%Z -> at_index emojis i = emojis !! Z.to_nat i.
Proof.
  intros H. unfold at_index. destruct (i <? 0)%Z eqn:E; [lia | reflexivity].
Qed.






(** From outside the list (index -1) the loop reads the list in order. *)
Lemma findIndexFrom_none p (l : list Emoji) i :
  (forall e, e ∈ l -> p e = false) -> findIndexFrom p l i = (-1)%Z.
Proof.
  revert i. induction l as [|e l IH]; intros i Hp; [reflexivity|]. simpl.
  rewrite (Hp e) by apply list_elem_of_here.
  apply IH. intros e' He'. apply Hp. now apply list_elem_of_further.
Qed.

Lemma scanFrom_outside (before l : list Emoji) :
  emojis = before ++ l ->
  scanFrom emojis captured (-1) (1 + Z.of_nat (length before)) (length l)
  = match Gallery.firstUncapturedIn captured l with
    | Some e => Found e
    | None => NoneLeft
    end.
Proof.
  revert before. induction l as [|e l IH]; intros before E; [reflexivity|].
  cbn [scanFrom length Gallery.firstUncapturedIn].
  assert (Hlen : len = (Z.of_nat (length before) + 1 + Z.of_nat (length l))%Z).
  { rewrite E, length_app. simpl. lia. }
  replace (-1 + (1 + Z.of_nat (length before)))%Z
    with (Z.of_nat (length before)) by lia.
  rewrite Z.rem_small by lia.
  rewrite at_index_lookup, Nat2Z.id by lia.
  rewrite E at 1. rewrite list_lookup_middle by reflexivity.
  destruct (bool_decide (emoji e ∈ captured)); [|reflexivity].
  specialize (IH (before ++ [e])). rewrite length_app in IH. simpl in IH.
  replace (1 + Z.of_nat (length before) + 1)%Z
    with (1 + Z.of_nat (length before + 1))%Z by lia.
  apply IH. now rewrite <- app_assoc.
Qed.

End NextFacts.

Lemma firstUncapturedIn_app captured (l1 l2 : list Emoji) :
  Gallery.firstUncapturedIn captured (l1 ++ l2)
  = match Gallery.firstUncapturedIn captured l1 with
    | Some e => Some e
    | None => Gallery.firstUncapturedIn captured l2
    end.
Proof.
  induction l1 as [|e l1 IH]; simpl; [reflexivity|].
  now destruct (bool_decide (emoji e ∈ captured)).
Qed.

Lemma firstUncapturedEmoji_flat captured (categories : list EmojiCategory) :
  Gallery.firstUncapturedEmoji captured categories
  = Gallery.firstUncapturedIn captured (flat_map emojis categories).
Proof.
  induction categories as [|c categories IH]; simpl; [reflexivity|].
  now rewrite firstUncapturedIn_app, IH.
Qed.

(** When the selected emoji is not in the list (a custom emoji), [handleNext]
    selects what the gallery's "Start!" button does: the first emoji, in
    category order, that is not captured. *)
Lemma handleNext_from_custom (categories : list EmojiCategory)
    (galleryData : option GalleryResponse) (st : State) (currentEmoji : Emoji) :
  selectedEmoji st = Some currentEmoji ->
  (forall e, e ∈ allEmojis (Some categories) -> emoji e <> emoji currentEmoji) ->
  handleNext (Some categories) galleryData st
  = (setSelectedEmoji
       (Gallery.firstUncapturedEmoji (capturedSet galleryData) categories) st,
     [RefetchGallery], Return tt).
Proof.
  intros Hsel Hout. unfold handleNext. rewrite Hsel.
  unfold findIndex. rewrite findIndexFrom_none.
  2:{ intros e He. apply bool_decide_eq_false. now apply Hout. }
  pose proof (scanFrom_outside (allEmojis (Some categories))
                (capturedSet galleryData) [] _ eq_refl) as Hscan.
  simpl length in Hscan at 1. change (1 + Z.of_nat 0)%Z with 1%Z in Hscan.
  rewrite Hscan, firstUncapturedEmoji_flat. simpl allEmojis.
  now destruct (Gallery.firstUncapturedIn _ _).
Qed.



(** *** The view and the address *)

Lemma gallery_path_suffix (sessionId : JSString) (word : JSString) :
  ~ In 0x2F sessionId -> sessionId <> word ->
  endsWith (lit "/" ++ sessionId) (0x2F :: word) = false.
Proof.
  intros Hslash Hword.
  destruct (endsWith (lit "/" ++ sessionId) (0x2F :: word)) eqn:E; [|reflexivity].
  apply JSFacts.endsWith_spec in E. destruct E as [before E].
  change (lit "/" ++ sessionId) with (0x2F :: sessionId) in E.
  destruct before as [|c before].
  - injection E as E. contradiction.
  - injection E as _ E. exfalso. apply Hslash. rewrite E.
    apply in_app_iff. right. now left.
Qed.

(** X9. [view] after [setView]: the view derived from the path that
    [setView] navigates to is the view asked for, when the session id holds
    no slash and is neither [export] nor [about]. (For a session named
    [export] the gallery's path reads as the export view.) *)
Theorem view_after_setView (sessionId : JSString) (newView : View) :
  ~ In 0x2F sessionId ->
  sessionId <> lit "export" -> sessionId <> lit "about" ->
  view (setView sessionId newView) = newView
  /\ view (setView (lit "export") ViewGallery) = ViewExport.
Proof.
  intros Hslash Hexport Habout. split; [|reflexivity].
  destruct newView; unfold view, setView, viewName.
  - change (lit "/export") with (0x2F :: lit "export").
    change (lit "/about") with (0x2F :: lit "about").
    now rewrite !gallery_path_suffix.
  - replace (endsWith (lit "/" ++ sessionId ++ lit "/" ++ lit "export")
               (lit "/export")) with true; [reflexivity|].
    symmetry. apply JSFacts.endsWith_spec. exists (lit "/" ++ sessionId).
    now rewrite <- !app_assoc.
  - replace (endsWith (lit "/" ++ sessionId ++ lit "/" ++ lit "about")
               (lit "/export")) with false.
    + replace (endsWith (lit "/" ++ sessionId ++ lit "/" ++ lit "about")
                 (lit "/about")) with true; [reflexivity|].
      symmetry. apply JSFacts.endsWith_spec. exists (lit "/" ++ sessionId).
      now rewrite <- !app_assoc.
    + symmetry. unfold endsWith.
      replace (lit "/" ++ sessionId ++ lit "/" ++ lit "about")
        with ((lit "/" ++ sessionId) ++ lit "/about")
        by now rewrite <- !app_assoc.
      rewrite rev_app_distr. reflexivity.
Qed.

Lemma view_after_setView_example :
  view (setView (lit "a1b2c3d4") ViewAbout) = ViewAbout
  /\ view (setView (lit "export") ViewGallery) = ViewExport.
Proof.
  apply (view_after_setView (lit "a1b2c3d4") ViewAbout).
  - vm_compute. intros H.
    repeat (destruct H as [H|H]; [discriminate H|]). exact H.
  - vm_compute. discriminate.
  - vm_compute. discriminate.
Defined.

(** *** Validating the session *)
Section ValidationFacts.

Variable numberToString : Q -> JSString.
Variable nullReadMessage : JSString.

Local Abbreviation validateOn := (validateOnResponse numberToString nullReadMessage).

(** What the validation request resolves to, by the response. *)
Lemma validateSession_cases (res : Response) :
  (status res = 429%Z /\
   validateSession numberToString nullReadMessage res
   = Throw (RateLimitError defaultRateLimitMessage))
  \/ (status res <> 429%Z /\ ok res = false /\
      exists e, validateSession numberToString nullReadMessage res = Throw e
                /\ instanceofRateLimitError e = false)
  \/ (status res <> 429%Z /\ ok res = true /\
      validateSession numberToString nullReadMessage res = json_body res).
Proof.
  unfold validateSession.
  destruct (Z.eq_dec (status res) 429%Z) as [Hs|Hs].
  - left. split; [exact Hs|]. now apply ApiFacts.handleResponse_429.
  - right. destruct (ok res) eqn:Hok.
    + right. split; [exact Hs|]. split; [reflexivity|].
      now apply ApiFacts.handleResponse_ok.
    + left. split; [exact Hs|]. split; [reflexivity|].
      rewrite (ApiFacts.handleResponse_not_ok _ _ res _ Hs Hok).
      destruct (getProperty _ _); [apply ApiFacts.throwNewError_throws|].
      eexists; split; reflexivity.
Qed.

Lemma validateOn_cases
    (sessionId : JSString) (res : Response) (st : State) (jar : Cookies.Jar) :
  ~ (validatedSessionId st = Some sessionId /\ sessionState st = Valid) ->
  (status res = 429%Z
   /\ validateOn sessionId res st jar
      = (setSessionState RateLimited (setSessionState Loading st), jar,
         [ValidateSession sessionId]))
  \/ (status res <> 429%Z
      /\ ~ (ok res = true
            /\ exists j v, body res = Parsed j
                           /\ getProperty j (lit "valid") = Got (Some v)
                           /\ truthy v = true)
      /\ validateOn sessionId res st jar
         = (setSessionState Invalid (setSessionState Loading st), jar,
            [ValidateSession sessionId]))
  \/ (status res <> 429%Z
      /\ (ok res = true
          /\ exists j v, body res = Parsed j
                         /\ getProperty j (lit "valid") = Got (Some v)
                         /\ truthy v = true)
      /\ validateOn sessionId res st jar
         = (setSessionState Valid
              (setValidatedSessionId (Some sessionId) (setSessionState Loading st)),
            Cookies.setSessionCookie sessionId jar,
            [ValidateSession sessionId; LoadSettings sessionId])).
Proof.
  intros Hnew. unfold validateOnResponse, validateAndSetSession.
  assert (Hskip : bool_decide (validatedSessionId st = Some sessionId)
                  && match sessionState st with Valid => true | _ => false end
                  = false).
  { destruct (bool_decide _) eqn:E; [|reflexivity].
    apply bool_decide_eq_true in E.
    destruct (sessionState st) eqn:Es; try reflexivity.
    exfalso. apply Hnew. now split. }
  rewrite Hskip.
  destruct (validateSession_cases res)
    as [(Hs & ->) | [(Hs & Hok & e & -> & He) | (Hs & Hok & ->)]].
  - left. now split.
  - right. left. rewrite He. split; [exact Hs|]. split; [|reflexivity].
    intros [H _]. congruence.
  - right. unfold json_body. destruct (body res) as [j|pm] eqn:Eb.
    + destruct (getProperty j (lit "valid")) as [[v|]|] eqn:Ev.
      * destruct (truthy v) eqn:Et; cbn [negb].
        -- right. split; [exact Hs|]. split; [|reflexivity].
           split; [exact Hok|]. now exists j, v.
        -- left. split; [exact Hs|]. split; [|reflexivity].
           intros (_ & j' & v' & [= <-] & Hv' & Ht'). congruence.
      * left. split; [exact Hs|]. split; [|reflexivity].
        intros (_ & j' & v' & [= <-] & Hv' & _). congruence.
      * left. split; [exact Hs|]. split; [|reflexivity].
        intros (_ & j' & v' & [= <-] & Hv' & _). congruence.
    + left. split; [exact Hs|]. split; [|reflexivity].
      intros (_ & j' & v' & H & _). discriminate H.
Qed.

(** X10. [validateAndSetSession], by the response of the validation
    request, unless this session is validated already: the session is
    rate-limited exactly on status 429, valid exactly when the response is
    ok and its body has a truthy [valid], and invalid otherwise, never left
    loading. The session cookie is written, the session id recorded and the
    settings requested exactly when the session is valid. *)
Theorem validateAndSetSession_by_response
    (sessionId : JSString) (res : Response) (st : State) (jar : Cookies.Jar) :
  ~ (validatedSessionId st = Some sessionId /\ sessionState st = Valid) ->
  (sessionState (fst (fst (validateOnResponse numberToString nullReadMessage
                             sessionId res st jar))) = RateLimited
   <-> status res = 429%Z)
  /\ (sessionState (fst (fst (validateOnResponse numberToString nullReadMessage
                                sessionId res st jar))) = Valid
      <-> ok res = true
          /\ exists j v, body res = Parsed j
                         /\ getProperty j (lit "valid") = Got (Some v)
                         /\ truthy v = true)
  /\ sessionState (fst (fst (validateOnResponse numberToString nullReadMessage
                               sessionId res st jar))) <> Loading
  /\ (sessionState (fst (fst (validateOnResponse numberToString nullReadMessage
                                sessionId res st jar))) = Valid ->
      validateOnResponse numberToString nullReadMessage sessionId res st jar
      = (setSessionState Valid
           (setValidatedSessionId (Some sessionId) (setSessionState Loading st)),
         Cookies.setSessionCookie sessionId jar,
         [ValidateSession sessionId; LoadSettings sessionId]))
  /\ (sessionState (fst (fst (validateOnResponse numberToString nullReadMessage
                                sessionId res st jar))) <> Valid ->
      snd (fst (validateOnResponse numberToString nullReadMessage
                    sessionId res st jar)) = jar
      /\ validatedSessionId (fst (fst (validateOnResponse numberToString nullReadMessage
                    sessionId res st jar)))
         = validatedSessionId st
      /\ snd (validateOnResponse numberToString nullReadMessage
                    sessionId res st jar) = [ValidateSession sessionId]).
Proof.
  intros Hnew.
  destruct (validateOn_cases sessionId res st jar Hnew)
    as [(Hs & ->) | [(Hs & Hnot & ->) | (Hs & Hvalid & ->)]]; cbn.
  - split; [tauto|]. split.
    { split; [discriminate|]. intros [H%ApiFacts.ok_not_429 _]. contradiction. }
    split; [discriminate|]. split; [discriminate|]. intros _. now repeat split.
  - split; [split; [discriminate | contradiction]|]. split.
    { split; [discriminate | contradiction]. }
    split; [discriminate|]. split; [discriminate|]. intros _. now repeat split.
  - split; [split; [discriminate | contradiction]|]. split; [tauto|].
    split; [discriminate|]. split; [reflexivity|]. intros H. now contradiction H.
Qed.

End ValidationFacts.

Lemma validateAndSetSession_by_response_example :
  validateOnResponse refNumberToString refNullReadMessage (lit "a1b2c3d4")
    validResponse initialState Cookies.exampleJar
  = (setSessionState Valid
       (setValidatedSessionId (Some (lit "a1b2c3d4"))
          (setSessionState Loading initialState)),
     Cookies.setSessionCookie (lit "a1b2c3d4") Cookies.exampleJar,
     [ValidateSession (lit "a1b2c3d4"); LoadSettings (lit "a1b2c3d4")]).
Proof.
  apply (proj1 (proj2 (proj2 (proj2
    (validateAndSetSession_by_response refNumberToString refNullReadMessage
       (lit "a1b2c3d4") validResponse initialState Cookies.exampleJar
       ltac:(intros [H _]; discriminate H)))))).
  reflexivity.
Defined.


(** *** The captures [App] hands to its components *)

Lemma capturedMap_snoc (l : list CapturedEmoji) (c : CapturedEmoji)
    (m : gmap JSString CapturedEmoji) :
  foldl (fun map c => <[captured_emoji c := c]> map) m (l ++ [c])
  = <[captured_emoji c := c]>
      (foldl (fun map c => <[captured_emoji c := c]> map) m l).
Proof. now rewrite foldl_app. Qed.

Lemma capturedMap_lookup (l : list CapturedEmoji) (x : JSString) (c : CapturedEmoji) :
  foldl (fun (map : gmap JSString CapturedEmoji) c => <[captured_emoji c := c]> map)
    ∅ l !! x = Some c
  <-> exists before after,
        l = before ++ c :: after /\ captured_emoji c = x
        /\ forall c', In c' after -> captured_emoji c' <> x.
Proof.
  revert c. induction l as [|d l IH] using rev_ind; intros c.
  - simpl. rewrite lookup_empty. split; [discriminate|].
    intros (before & after & H & _). now destruct before.
  - rewrite capturedMap_snoc.
    destruct (decide (captured_emoji d = x)) as [Hd|Hd].
    + rewrite <- Hd, lookup_insert_eq. split.
      * intros [= <-]. exists l, []. split; [reflexivity|].
        split; [reflexivity | intros ? []].
      * intros (before & after & H & Hc & Hafter).
        destruct after as [|a after _] using rev_ind.
        -- apply app_inj_tail in H. destruct H as [_ ->]. reflexivity.
        -- rewrite app_comm_cons, app_assoc in H.
           apply app_inj_tail in H. destruct H as [_ <-].
           exfalso. apply (Hafter d); [|congruence].
           apply in_app_iff. right. now left.
    + rewrite lookup_insert_ne by exact Hd. rewrite IH. split.
      * intros (before & after & -> & Hc & Hafter).
        exists before, (after ++ [d]).
        split; [now rewrite <- app_assoc|]. split; [exact Hc|].
        intros c' [H|[<-|[]]]%in_app_iff; [now apply Hafter | exact Hd].
      * intros (before & after & H & Hc & Hafter).
        destruct after as [|a after _] using rev_ind.
        -- apply app_inj_tail in H. destruct H as [_ ->]. contradiction.
        -- rewrite app_comm_cons, app_assoc in H.
           apply app_inj_tail in H. destruct H as [-> <-].
           exists before, after. split; [reflexivity|]. split; [exact Hc|].
           intros c' Hc'. apply Hafter. apply in_app_iff. now left.
Qed.

Lemma capturedMap_entry
    (galleryData : option GalleryResponse) (x : JSString) (c : CapturedEmoji) :
  capturedMap galleryData !! x = Some c <->
  exists gallery before after,
    galleryData = Some gallery
    /\ captured gallery = before ++ c :: after
    /\ captured_emoji c = x
    /\ forall c', In c' after -> captured_emoji c' <> x.
Proof.
  destruct galleryData as [gallery|]; cbn [capturedMap].
  - rewrite capturedMap_lookup. split.
    + intros (before & after & H). now exists gallery, before, after.
    + intros (g & before & after & [= <-] & H). now exists before, after.
  - rewrite lookup_empty. split; [discriminate|].
    intros (g & _ & _ & H & _). discriminate H.
Qed.

Lemma capturedMap_is_Some (galleryData : option GalleryResponse) (x : JSString) :
  is_Some (capturedMap galleryData !! x) <-> x ∈ capturedSet galleryData.
Proof.
  split.
  - intros [c Hc]. apply capturedMap_entry in Hc.
    destruct Hc as (gallery & before & after & -> & Hl & Hx & _).
    cbn [capturedSet]. rewrite elem_of_list_to_set, list_elem_of_In, Hl.
    apply in_map_iff. exists c. split; [exact Hx|].
    apply in_app_iff. right. now left.
  - destruct galleryData as [gallery|]; cbn [capturedSet capturedMap];
      [|intros H; now apply elem_of_empty in H].
    rewrite elem_of_list_to_set, list_elem_of_In.
    induction (captured gallery) as [|d l IH] using rev_ind; [intros []|].
    rewrite capturedMap_snoc, map_app, in_app_iff. intros H.
    destruct (decide (captured_emoji d = x)) as [Hd|Hd].
    + rewrite <- Hd, lookup_insert_eq. now eexists.
    + rewrite lookup_insert_ne by exact Hd. apply IH.
      destruct H as [H|[H|[]]]; [exact H | contradiction].
Qed.

Lemma capturedMap_None galleryData x :
  x ∉ capturedSet galleryData -> capturedMap galleryData !! x = None.
Proof.
  intros H. destruct (capturedMap galleryData !! x) as [c|] eqn:E; [|reflexivity].
  exfalso. apply H. apply capturedMap_is_Some. rewrite E. now eexists.
Qed.

(** X11. [capturedMap] and [capturedSet] agree: the map has an entry for
    an emoji exactly when the set holds the emoji. The entry is the last
    capture of that emoji in the gallery's list. *)
Theorem capturedMap_agrees_with_capturedSet
    (galleryData : option GalleryResponse) (x : JSString) :
  (is_Some (capturedMap galleryData !! x) <-> x ∈ capturedSet galleryData)
  /\ (forall c, capturedMap galleryData !! x = Some c <->
        exists gallery before after,
          galleryData = Some gallery
          /\ captured gallery = before ++ c :: after
          /\ captured_emoji c = x
          /\ forall c', In c' after -> captured_emoji c' <> x).
Proof.
  split; [apply capturedMap_is_Some | intros c; apply capturedMap_entry].
Qed.

Example capturedMap_last_wins :
  capturedMap retakenGallery !! lit ":D" = Some (captureOf ":D" "second").
Proof.
  apply capturedMap_entry.
  exists {| captured := [captureOf ":D" "first"; captureOf ";)" "1f609";
                         captureOf ":D" "second"];
            total := 3; custom_emojis := [];
            last_capture_edit := Some (lit "2000");
            gallery_last_generation := Some (lit "1000") |},
    [captureOf ":D" "first"; captureOf ";)" "1f609"], [].
  repeat split. intros c' [].
Qed.

Lemma existsb_uncaptured captured (l : list Emoji) :
  existsb (fun e => negb (bool_decide (emoji e ∈ captured))) l
  = bool_decide (is_Some (Gallery.firstUncapturedIn captured l)).
Proof.
  induction l as [|e l IH]; [reflexivity|]. cbn [existsb Gallery.firstUncapturedIn].
  destruct (bool_decide (emoji e ∈ captured)); [exact IH | reflexivity].
Qed.

Lemma firstUncapturedIn_spec captured (l : list Emoji) :
  match Gallery.firstUncapturedIn captured l with
  | Some e =>
      exists before after,
        l = before ++ e :: after /\ (emoji e ∉ captured)
        /\ forall e', In e' before -> emoji e' ∈ captured
  | None => forall e', In e' l -> emoji e' ∈ captured
  end.
Proof.
  induction l as [|e l IH]; simpl; [intros ? []|].
  destruct (bool_decide (emoji e ∈ captured)) eqn:E.
  - apply bool_decide_eq_true in E.
    destruct (Gallery.firstUncapturedIn captured l) as [x|].
    + destruct IH as (before & after & -> & Hx & Hb).
      exists (e :: before), after. split; [reflexivity|]. split; [exact Hx|].
      intros e' [<-|H]; [exact E | now apply Hb].
    + intros e' [<-|H]; [exact E | now apply IH].
  - apply bool_decide_eq_false in E. exists [], l.
    split; [reflexivity|]. split; [exact E | intros ? []].
Qed.

(** X12. The gallery's [firstUncapturedEmoji] returns the first emoji, in
    the order of the categories and of their emojis, that is not captured,
    and null exactly when every emoji is captured. [App] gives the modal an
    [onNext] handler ([hasUncapturedEmoji]) exactly when the gallery has
    such an emoji to start with. *)
Theorem firstUncapturedEmoji_is_first
    (categories : list EmojiCategory) (galleryData : option GalleryResponse) :
  match Gallery.firstUncapturedEmoji (capturedSet galleryData) categories with
  | Some e =>
      (exists before after,
         allEmojis (Some categories) = before ++ e :: after
         /\ (emoji e ∉ capturedSet galleryData)
         /\ forall e', In e' before -> emoji e' ∈ capturedSet galleryData)
      /\ hasUncapturedEmoji (Some categories) galleryData = true
  | None =>
      (forall e', In e' (allEmojis (Some categories)) ->
         emoji e' ∈ capturedSet galleryData)
      /\ hasUncapturedEmoji (Some categories) galleryData = false
  end.
Proof.
  rewrite firstUncapturedEmoji_flat. unfold hasUncapturedEmoji.
  rewrite existsb_uncaptured. cbn [allEmojis].
  pose proof (firstUncapturedIn_spec (capturedSet galleryData)
                (flat_map emojis categories)) as H.
  destruct (Gallery.firstUncapturedIn _ _) as [e|].
  - split; [exact H|]. apply bool_decide_eq_true. now eexists.
  - split; [exact H|]. apply bool_decide_eq_false. intros [x Hx]. discriminate Hx.
Qed.

(** *** The modal [App] renders *)

Lemma scanFrom_Found emojis captured currentIndex i n e :
  scanFrom emojis captured currentIndex i n = Found e -> emoji e ∉ captured.
Proof.
  revert i. induction n as [|n IH]; intros i; simpl; [discriminate|].
  destruct (at_index emojis _) as [x|]; [|discriminate].
  destruct (bool_decide (emoji x ∈ captured)) eqn:E; [apply IH|].
  intros [= <-]. now apply bool_decide_eq_false in E.
Qed.


(** X13. The modal that [App] renders for the selected emoji opens on the
    stored capture exactly when the emoji is in the captured set: it then
    starts in the preview state, viewing the existing capture, with the
    image of the last capture of that emoji; otherwise it starts on the
    webcam with no image. It is given [onNext] exactly when some emoji of
    the list is not captured. *)
Theorem modalProps_opens_on_capture
    (sessionId : JSString) (emojisData : option (list EmojiCategory))
    (galleryData : option GalleryResponse) (st : State)
    (props : CaptureModal.Props) :
  modalProps sessionId emojisData galleryData st = Some props ->
  selectedEmoji st = Some (CaptureModal.emoji props)
  /\ (emoji (CaptureModal.emoji props) ∈ capturedSet galleryData ->
      exists c,
        capturedMap galleryData !! emoji (CaptureModal.emoji props) = Some c
        /\ CaptureModal.state (CaptureModal.initialSignals props)
           = CaptureModal.Preview
        /\ CaptureModal.viewingExisting (CaptureModal.initialSignals props) = true
        /\ CaptureModal.processedImage (CaptureModal.initialSignals props)
           = Some (image_data c))
  /\ (emoji (CaptureModal.emoji props) ∉ capturedSet galleryData ->
      CaptureModal.state (CaptureModal.initialSignals props) = CaptureModal.Webcam
      /\ CaptureModal.viewingExisting (CaptureModal.initialSignals props) = false
      /\ CaptureModal.processedImage (CaptureModal.initialSignals props) = None)
  /\ (CaptureModal.onNext props = true <->
      exists e, In e (allEmojis emojisData)
                /\ (emoji e ∉ capturedSet galleryData)).
Proof.
  unfold modalProps. destruct (selectedEmoji st) as [selected|]; [|discriminate].
  intros [= <-]. cbn [CaptureModal.emoji CaptureModal.onNext].
  split; [reflexivity|]. split; [|split].
  - intros Hin. apply capturedMap_is_Some in Hin. destruct Hin as [c Hc].
    exists c. unfold CaptureModal.initialSignals.
    cbn [CaptureModal.existingCapture CaptureModal.state
         CaptureModal.viewingExisting CaptureModal.processedImage].
    rewrite Hc. now repeat split.
  - intros Hout. apply capturedMap_None in Hout.
    unfold CaptureModal.initialSignals.
    cbn [CaptureModal.existingCapture CaptureModal.state
         CaptureModal.viewingExisting CaptureModal.processedImage].
    rewrite Hout. now repeat split.
  - unfold hasUncapturedEmoji. rewrite existsb_exists. split.
    + intros (e & He & Hn). exists e. split; [exact He|].
      apply negb_true_iff, bool_decide_eq_false in Hn. exact Hn.
    + intros (e & He & Hn). exists e. split; [exact He|].
      apply negb_true_iff, bool_decide_eq_false. exact Hn.
Qed.

Lemma exampleState_props :
  modalProps (lit "a1b2c3d4") exampleEmojis retakenGallery exampleState
  = Some {| CaptureModal.sessionId := lit "a1b2c3d4";
            CaptureModal.emoji := emojiOf ":D" "1f600";
            CaptureModal.existingCapture := Some (captureOf ":D" "second");
            CaptureModal.isCustom := false;
            CaptureModal.settings := defaultSettings;
            CaptureModal.onNext := true |}.
Proof.
  unfold modalProps. cbn [exampleState setSelectedEmoji selectedEmoji
                          isCustomCapture settings initialState].
  change (emoji (emojiOf ":D" "1f600")) with (lit ":D").
  rewrite capturedMap_last_wins. reflexivity.
Qed.

Lemma modalProps_opens_on_capture_example :
  selectedEmoji exampleState = Some (emojiOf ":D" "1f600")
  /\ CaptureModal.onNext
       {| CaptureModal.sessionId := lit "a1b2c3d4";
          CaptureModal.emoji := emojiOf ":D" "1f600";
          CaptureModal.existingCapture := Some (captureOf ":D" "second");
          CaptureModal.isCustom := false;
          CaptureModal.settings := defaultSettings;
          CaptureModal.onNext := true |} = true.
Proof.
  pose proof (modalProps_opens_on_capture (lit "a1b2c3d4") exampleEmojis
                retakenGallery exampleState _ exampleState_props)
    as (Hsel & _ & _ & _).
  split; [exact Hsel | reflexivity].
Defined.

(** X14. [handleNext] never writes [isCustomCapture]. Run from the
    add-custom flow it leaves the modal in custom mode: the modal rendered
    for the emoji it selects is given [isCustom] and no existing capture,
    so the emoji its requests name ([currentEmoji]) is still the custom
    input, not the emoji selected. *)
Theorem handleNext_keeps_custom_mode
    (sessionId : JSString) (emojisData : option (list EmojiCategory))
    (galleryData : option GalleryResponse) (st : State) :
  isCustomCapture (fst (fst (handleNext emojisData galleryData st)))
  = isCustomCapture st
  /\ (forall nextEmoji props,
        isCustomCapture st = true ->
        handleNext emojisData galleryData st
        = (setSelectedEmoji (Some nextEmoji) st, [RefetchGallery], Return tt) ->
        modalProps sessionId emojisData galleryData
          (fst (fst (handleNext emojisData galleryData st))) = Some props ->
        CaptureModal.emoji props = nextEmoji
        /\ CaptureModal.isCustom props = true
        /\ CaptureModal.existingCapture props = None
        /\ forall g, CaptureModal.currentEmoji props g
                     = CaptureModal.customEmojiInput g).
Proof.
  split.
  - unfold handleNext. destruct (selectedEmoji st); [|reflexivity].
    now destruct (scanFrom _ _ _ _ _).
  - intros nextEmoji props Hcustom Hnext. rewrite Hnext. cbn [fst].
    unfold modalProps. cbn [setSelectedEmoji selectedEmoji isCustomCapture].
    assert (Hout : emoji nextEmoji ∉ capturedSet galleryData).
    { unfold handleNext in Hnext.
      destruct (selectedEmoji st) as [currentEmoji|] eqn:Es.
      - destruct (scanFrom _ _ _ _ _) as [e| |] eqn:Escan;
          [|apply (f_equal (fun r => selectedEmoji (fst (fst r)))) in Hnext;
            discriminate Hnext
           |discriminate Hnext].
        apply scanFrom_Found in Escan.
        apply (f_equal (fun r => selectedEmoji (fst (fst r)))) in Hnext.
        cbn [fst setSelectedEmoji selectedEmoji] in Hnext.
        now injection Hnext as <-.
      - apply (f_equal (fun r => selectedEmoji (fst (fst r)))) in Hnext.
        cbn [fst setSelectedEmoji selectedEmoji] in Hnext. congruence. }
    rewrite (capturedMap_None _ _ Hout), Hcustom. intros [= <-].
    now repeat split.
Qed.


Lemma handleNext_keeps_custom_mode_example :
  exists props,
    modalProps (lit "a1b2c3d4") exampleEmojis exampleGallery
      (fst (fst (handleNext exampleEmojis exampleGallery customState)))
    = Some props
    /\ CaptureModal.emoji props = emojiOf ":)" "1f603"
    /\ CaptureModal.isCustom props = true
    /\ CaptureModal.existingCapture props = None
    /\ forall g, CaptureModal.currentEmoji props g
                 = CaptureModal.customEmojiInput g.
Proof.
  eexists. split; [reflexivity|].
  apply (proj2 (handleNext_keeps_custom_mode (lit "a1b2c3d4") exampleEmojis
                  exampleGallery customState)
           (emojiOf ":)" "1f603") _ eq_refl); reflexivity.
Defined.

(** *** The export view under [App] *)
Section ExportFacts.

Variable getTime : JSString -> ExportView.TimeValue.



End ExportFacts.


(** X16. An export that fails, or whose font then fails to load, ends
    with [isExporting] false and the error's message shown (or
    [Export failed] when the message is empty). When the export request
    itself fails, the font URL and the generation timestamp are as before
    and the font is marked not loaded. *)
Theorem exportPressed_failure
    (sessionId : JSString) (galleryData : option GalleryResponse)
    (env : ExportView.ExportEnv) (g : ExportView.Signals) (st : State) :
  capturedCountProp galleryData <> 0 -> sessionId <> [] ->
  (forall err, ExportView.exported env = Throw err ->
     exportPressed sessionId galleryData env g st
     = (ExportView.setIsExporting false
          (ExportView.setError
             (Some (str_or (message err) (lit "Export failed")))
             (ExportView.setError None (ExportView.setIsExporting true g))),
        setFont (ExportView.setFontLoaded false (font st)) st,
        [ExportView.Request (ExportFont sessionId (ExportView.fontName g))]))
  /\ (forall result err,
        ExportView.exported env = Return result ->
        ExportView.loaded env = Throw err ->
        ExportView.error (fst (fst (exportPressed sessionId galleryData env g st)))
        = Some (str_or (message err) (lit "Export failed"))
        /\ ExportView.isExporting
             (fst (fst (exportPressed sessionId galleryData env g st))) = false
        /\ ExportView.fontLoaded
             (font (snd (fst (exportPressed sessionId galleryData env g st))))
           = false
        /\ ExportView.fontUrl
             (font (snd (fst (exportPressed sessionId galleryData env g st))))
           = Some (getFontUrl sessionId)
        /\ ExportView.localLastGeneration
             (font (snd (fst (exportPressed sessionId galleryData env g st))))
           = Some (last_generation result)).
Proof.
  intros Hcount Hsid. unfold exportPressed, ExportView.handleExport.
  apply N.eqb_neq in Hcount. rewrite Hcount.
  destruct sessionId as [|u sid]; [congruence|]. cbn [falsy]. split.
  - intros err ->. reflexivity.
  - intros result err -> Hl. unfold ExportView.loadFont. rewrite Hl.
    now repeat split.
Qed.

Lemma exportPressed_failure_example :
  exportPressed (lit "a1b2c3d4") retakenGallery
    {| ExportView.exported := Throw (Error []);
       ExportView.now1 := 1; ExportView.now2 := 2;
       ExportView.loaded := Return tt |}
    exampleExportSignals initialState
  = (ExportView.setIsExporting false
       (ExportView.setError (Some (lit "Export failed"))
          (ExportView.setError None
             (ExportView.setIsExporting true exampleExportSignals))),
     setFont (ExportView.setFontLoaded false (font initialState)) initialState,
     [ExportView.Request (ExportFont (lit "a1b2c3d4") (lit "Tomoji"))]).
Proof.
  apply (proj1 (exportPressed_failure (lit "a1b2c3d4") retakenGallery
                  {| ExportView.exported := Throw (Error []);
                     ExportView.now1 := 1; ExportView.now2 := 2;
                     ExportView.loaded := Return tt |}
                  exampleExportSignals initialState
                  ltac:(discriminate) ltac:(discriminate)) (Error []) eq_refl).
Defined.

(** X17. After [handleClearAll] succeeded, the generation timestamp the
    export view is given is the gallery's own: with a gallery that reports
    no generation, the button reads [Generate Font] and is enabled. After a
    clear that failed the timestamp given is as before. *)
Theorem handleClearAll_then_generate
    (getTime : JSString -> ExportView.TimeValue)
    (sessionId : JSString) (st : State) (later : option GalleryResponse) :
  lastGenerationProp later (fst (fst (handleClearAll sessionId (Return tt) st)))
  = match later with
    | Some gallery => gallery_last_generation gallery
    | None => None
    end
  /\ (match later with
      | Some gallery => gallery_last_generation gallery
      | None => None
      end = None ->
      ExportView.buttonState getTime
        (lastGenerationProp later
           (fst (fst (handleClearAll sessionId (Return tt) st))))
        (lastCaptureEditProp later)
      = {| ExportView.text := lit "Generate Font"; ExportView.disabled := false |})
  /\ (forall err,
        lastGenerationProp later
          (fst (fst (handleClearAll sessionId (Throw err) st)))
        = lastGenerationProp later st).
Proof.
  split; [reflexivity|]. split; [|reflexivity].
  unfold lastGenerationProp.
  cbn [handleClearAll fst font setFont setShowClearConfirm setClearing
       ExportView.localLastGeneration ExportView.setLastGeneration].
  now intros ->.
Qed.


End AppFacts.

(** ** lib/webcam.ts *)
Module WebcamFacts.
Import CaptureModal Webcam.

Section TryFacts.

Variable MediaStream : Type.
Variable getUserMedia : MediaStreamConstraints -> MediaError + MediaStream.

Local Abbreviation failed :=
  (fun c => exists err, getUserMedia c = inl err).

Lemma tryEach_spec (remaining : list MediaStreamConstraints)
    (lastError : option MediaError) :
  (exists before c after stream,
     remaining = before ++ c :: after
     /\ (forall c', In c' before -> failed c')
     /\ getUserMedia c = inr stream
     /\ tryEach MediaStream getUserMedia remaining lastError
        = (inr stream, before ++ [c]))
  \/ ((forall c', In c' remaining -> failed c')
      /\ tryEach MediaStream getUserMedia remaining lastError
         = (inl (match last remaining with
                 | Some c =>
                     match getUserMedia c with
                     | inl err => err
                     | inr _ => fallbackError
                     end
                 | None => default fallbackError lastError
                 end), remaining)).
Proof.
  revert lastError. induction remaining as [|c rest IH]; intros lastError.
  - right. split; [intros ? []|reflexivity].
  - cbn [tryEach]. destruct (getUserMedia c) as [err|stream] eqn:E.
    + destruct (IH (Some err))
        as [(before & c0 & after & stream & -> & Hb & Hc0 & ->) | (Hall & ->)].
      * left. exists (c :: before), c0, after, stream.
        split; [reflexivity|]. split; [|split; [exact Hc0 | reflexivity]].
        intros c' [<-|H]; [now exists err | now apply Hb].
      * right. split; [intros c' [<-|H]; [now exists err | now apply Hall]|].
        destruct rest as [|c1 rest]; [cbn; now rewrite E|].
        change (last (c :: c1 :: rest)) with (last (c1 :: rest)).
        destruct (last (c1 :: rest)) eqn:El; [reflexivity|].
        apply last_None in El. discriminate El.
    + left. exists [], c, rest, stream. split; [reflexivity|].
      split; [intros ? []|]. split; [exact E | reflexivity].
Qed.

(** X18. [tryGetUserMedia] asks for the camera with up to three
    constraints, in order: the ideal size, the facing mode alone, any
    video. It resolves with the stream of the first attempt that succeeds
    and makes no attempt after it; it rejects only when all three attempts
    fail, and then with the error of the last one (never with its own
    [Failed to access camera]). *)
Theorem tryGetUserMedia_first_success (facingMode : FacingMode) :
  (exists before c after stream,
     constraintsList facingMode = before ++ c :: after
     /\ (forall c', In c' before -> exists err, getUserMedia c' = inl err)
     /\ getUserMedia c = inr stream
     /\ tryGetUserMedia MediaStream getUserMedia facingMode
        = (inr stream, before ++ [c]))
  \/ (exists err,
        (forall c', In c' (constraintsList facingMode) ->
           exists err', getUserMedia c' = inl err')
        /\ getUserMedia AnyVideo = inl err
        /\ tryGetUserMedia MediaStream getUserMedia facingMode
           = (inl err, constraintsList facingMode)).
Proof.
  unfold tryGetUserMedia.
  destruct (tryEach_spec (constraintsList facingMode) None)
    as [H | (Hall & ->)]; [now left|].
  right. destruct (Hall AnyVideo) as [err Herr]; [right; right; now left|].
  exists err. split; [exact Hall|]. split; [exact Herr|].
  cbn [constraintsList last]. now rewrite Herr.
Qed.

End TryFacts.

Example tryGetUserMedia_falls_back :
  tryGetUserMedia N sizeUnsupported User
  = (inr 7, [IdealSize 640 480 User; FacingOnly User]).
Proof. reflexivity. Qed.

Example tryGetUserMedia_denied :
  tryGetUserMedia N cameraDenied User
  = (inl {| errorName := lit "NotAllowedError";
            errorMessage := lit "Permission denied" |},
     constraintsList User).
Proof. reflexivity. Qed.

End WebcamFacts.

(** ** components/SessionRedirect.tsx *)
Module SessionRedirectFacts.
Import Api Cookies SessionRedirect.

Section InitFacts.

Variable numberToString : Q -> JSString.
Variable nullReadMessage : JSString.

Local Abbreviation init := (initSession numberToString).
Local Abbreviation create := (createAndNavigate numberToString).

Lemma createAndNavigate_cases (created : Completion json) (jar : Jar)
    (issued : list FetchRequest) :
  (exists response session_id text,
     created = Return response
     /\ getProperty response (lit "session_id") = Got session_id
     /\ template numberToString session_id = Some text
     /\ create created jar issued
        = {| rateLimited := false;
             navigated := Some (lit "/" ++ text);
             cookies := setSessionCookie text jar;
             requests := issued ++ [createSessionRequest] |})
  \/ (create created jar issued
      = {| rateLimited := match created with
                          | Throw err => instanceofRateLimitError err
                          | Return _ => false
                          end;
           navigated := None; cookies := jar;
           requests := issued ++ [createSessionRequest] |}
      /\ forall response session_id,
           created = Return response ->
           getProperty response (lit "session_id") = Got session_id ->
           template numberToString session_id = None).
Proof.
  unfold createAndNavigate. destruct created as [response|err].
  - destruct (getProperty response (lit "session_id")) as [session_id|] eqn:E.
    + destruct (template numberToString session_id) as [text|] eqn:Et.
      * left. now exists response, session_id, text.
      * right. split; [reflexivity|]. intros r s [= <-]. congruence.
    + right. split; [reflexivity|]. intros r s [= <-]. congruence.
  - right. split; [reflexivity|]. intros r s H. discriminate H.
Qed.

(** The runs of [initSession]: the stored session is resumed, the
    validation is rate-limited, or a session is created. *)
Lemma initSession_cases (validated created : Completion json) (jar : Jar) :
  (exists id,
     getSessionCookie jar = Some id /\ saysValid validated
     /\ init validated created jar
        = {| rateLimited := false; navigated := Some (lit "/" ++ id);
             cookies := jar; requests := [validateSessionRequest id] |})
  \/ (exists id m,
        getSessionCookie jar = Some id /\ validated = Throw (RateLimitError m)
        /\ init validated created jar
           = {| rateLimited := true; navigated := None;
                cookies := jar; requests := [validateSessionRequest id] |})
  \/ (exists issued,
        (getSessionCookie jar = None /\ issued = []
         \/ exists id, getSessionCookie jar = Some id
                       /\ issued = [validateSessionRequest id]
                       /\ ~ saysValid validated
                       /\ forall m, validated <> Throw (RateLimitError m))
        /\ init validated created jar = create created jar issued).
Proof.
  unfold initSession.
  destruct (getSessionCookie jar) as [id|] eqn:Ec;
    [|right; right; exists []; split; [now left | reflexivity]].
  pose proof (CookiesFacts.getSessionCookie_nonempty jar id Ec) as Hne.
  apply JSFacts.falsy_false in Hne. rewrite Hne.
  assert (Hcreate : forall v, ~ saysValid v ->
            (forall m, v <> Throw (RateLimitError m)) ->
            exists issued,
              (Some id = None /\ issued = []
               \/ exists id', Some id = Some id'
                              /\ issued = [validateSessionRequest id']
                              /\ ~ saysValid v
                              /\ forall m, v <> Throw (RateLimitError m))
              /\ create created jar [validateSessionRequest id]
                 = create created jar issued).
  { intros v Hv Hr. exists [validateSessionRequest id].
    split; [right; now exists id | reflexivity]. }
  destruct validated as [result|err].
  - destruct (getProperty result (lit "valid")) as [[v|]|] eqn:Ev.
    + destruct (truthy v) eqn:Et.
      * left. exists id. split; [reflexivity|]. split; [|reflexivity].
        now exists result, v.
      * right. right. apply Hcreate; [|discriminate].
        intros (r & v' & [= <-] & Hv' & Ht). congruence.
    + right. right. apply Hcreate; [|discriminate].
      intros (r & v' & [= <-] & Hv' & Ht). congruence.
    + right. right. apply Hcreate; [|discriminate].
      intros (r & v' & [= <-] & Hv' & Ht). congruence.
  - destruct err as [m|m|m|m]; cbn [instanceofRateLimitError];
      try (right; right; apply Hcreate;
           [intros (r & v' & H & _); discriminate H | discriminate]).
    right. left. now exists id, m.
Qed.

(** X19. [initSession] navigates only to a session that is live: to the
    session of the cookie, when its validation resolved with a truthy
    [valid] (the store is then left as it is and no session is created),
    or to the session just created, whose id it has written to the
    cookie. When it reports the rate limit it navigates nowhere and writes
    no cookie; and it asks for a new session only when there is no cookie
    or the validation did not say valid. *)
Theorem initSession_navigates_to_live_session
    (validated created : Completion json) (jar : Jar) :
  (forall path,
     navigated (initSession numberToString validated created jar) = Some path ->
     (exists id,
        getSessionCookie jar = Some id /\ path = lit "/" ++ id
        /\ saysValid validated
        /\ initSession numberToString validated created jar
           = {| rateLimited := false; navigated := Some path;
                cookies := jar; requests := [validateSessionRequest id] |})
     \/ (exists response session_id text,
           created = Return response
           /\ getProperty response (lit "session_id") = Got session_id
           /\ template numberToString session_id = Some text
           /\ path = lit "/" ++ text
           /\ cookies (initSession numberToString validated created jar)
              = setSessionCookie text jar
           /\ In createSessionRequest
                (requests (initSession numberToString validated created jar))))
  /\ (rateLimited (initSession numberToString validated created jar) = true ->
      navigated (initSession numberToString validated created jar) = None
      /\ cookies (initSession numberToString validated created jar) = jar)
  /\ (In createSessionRequest
        (requests (initSession numberToString validated created jar)) ->
      getSessionCookie jar = None \/ ~ saysValid validated).
Proof.
  destruct (initSession_cases validated created jar)
    as [(id & Hc & Hv & ->) | [(id & m & Hc & Hv & ->) | (issued & Hwhy & ->)]];
    cbn [navigated rateLimited cookies requests].
  - split; [|split].
    + intros path [= <-]. left. now exists id.
    + discriminate.
    + intros [H|[]]. discriminate H.
  - split; [|split].
    + discriminate.
    + now split.
    + intros [H|[]]. discriminate H.
  - assert (Hno : getSessionCookie jar = None \/ ~ saysValid validated).
    { destruct Hwhy as [[H _] | (id & _ & _ & H & _)]; [now left | now right]. }
    destruct (createAndNavigate_cases created jar issued)
      as [(response & session_id & text & Hr & Hp & Ht & ->) | (-> & Hnone)];
      cbn [navigated rateLimited cookies requests].
    + split; [|split; [discriminate | intros _; exact Hno]].
      intros path [= <-]. right. exists response, session_id, text.
      repeat split; try assumption. apply in_app_iff. right. now left.
    + split; [discriminate|]. split; [now split | intros _; exact Hno].
Qed.

Lemma saysValid_not_429 (validation : Response) :
  saysValid (validateSession numberToString nullReadMessage validation) ->
  status validation <> 429%Z.
Proof.
  intros (result & v & H & _) Hs. unfold validateSession in H.
  rewrite (ApiFacts.handleResponse_429 _ _ validation _ Hs) in H. discriminate H.
Qed.

(** X20. [initSession] reports the rate limit exactly when one of its two
    requests is answered with status 429: the validation of the stored
    session, or the creation that follows a missing cookie or a validation
    that did not say valid. *)
Theorem initSessionOn_rate_limited_iff (validation creation : Response) (jar : Jar) :
  rateLimited (initSessionOn numberToString nullReadMessage validation creation jar)
  = true
  <-> (getSessionCookie jar <> None /\ status validation = 429%Z)
      \/ ((getSessionCookie jar = None
           \/ (status validation <> 429%Z
               /\ ~ saysValid (validateSession numberToString nullReadMessage
                                 validation)))
          /\ status creation = 429%Z).
Proof.
  unfold initSessionOn.
  destruct (initSession_cases
              (validateSession numberToString nullReadMessage validation)
              (createSession numberToString nullReadMessage creation) jar)
    as [(id & Hc & Hv & ->) | [(id & m & Hc & Hv & ->) | (issued & Hwhy & ->)]];
    cbn [rateLimited].
  - split; [discriminate|]. pose proof (saysValid_not_429 validation Hv) as Hs.
    intros [[_ H] | [[H | [_ H]] _]]; [contradiction | congruence | contradiction].
  - split; [intros _|reflexivity]. left. split; [congruence|].
    apply (ApiFacts.handleResponse_rate_limit_iff numberToString nullReadMessage
             validation (lit "Failed to validate session")).
    now exists m.
  - assert (Hside : getSessionCookie jar = None
                    \/ (status validation <> 429%Z
                        /\ ~ saysValid (validateSession numberToString
                                          nullReadMessage validation))).
    { destruct Hwhy as [[H _] | (id & _ & _ & Hn & Hr)]; [now left|].
      right. split; [|exact Hn]. intros Hs. apply (Hr defaultRateLimitMessage).
      now apply ApiFacts.handleResponse_429. }
    assert (Hnot : ~ (getSessionCookie jar <> None /\ status validation = 429%Z)).
    { intros [Hc Hs]. destruct Hside as [H | [H _]]; contradiction. }
    unfold createAndNavigate, createSession.
    destruct (ApiFacts.handleResponse_cases numberToString nullReadMessage
                creation (lit "Failed to create session"))
      as [(Hs & ->) | [(Hs & _ & e & -> & He) | (Hs & _ & ->)]].
    + cbn. split; [intros _; right; now split | reflexivity].
    + cbn [rateLimited]. rewrite He. split; [discriminate|].
      intros [H | [_ H]]; contradiction.
    + unfold json_body. split.
      * destruct (body creation) as [j|pm];
          [destruct (getProperty j (lit "session_id")) as [session_id|];
           [destruct (template numberToString session_id)|]|]; discriminate.
      * intros [H | [_ H]]; contradiction.
Qed.

(** X21. A session that [initSession] creates is remembered: when there
    is no stored session, or its validation fails otherwise than by the
    rate limit, and the creation returns the string [id], [initSession]
    navigates to [/id], and the cookie then reads [id]; a later
    [initSession] whose validation says valid navigates to [/id] again,
    with the validation as its only request. The id is one that the cookie
    preserves: not empty, without a semicolon, a control character, white
    space at its ends or a surrogate without its pair, and short enough
    for the cookie to take no more than 4096 octets. The other cookies of
    the store are well formed. *)
Theorem created_session_is_remembered
    (validated created validated' created' : Completion json)
    (jar : Jar) (response : json) (id : JSString) :
  othersWellFormed jar -> plainId id ->
  getSessionCookie jar = None
  \/ (~ saysValid validated /\ forall m, validated <> Throw (RateLimitError m)) ->
  created = Return response ->
  getProperty response (lit "session_id") = Got (Some (JStr id)) ->
  navigated (initSession numberToString validated created jar)
  = Some (lit "/" ++ id)
  /\ getSessionCookie (cookies (initSession numberToString validated created jar))
     = Some id
  /\ (saysValid validated' ->
      initSession numberToString validated' created'
        (cookies (initSession numberToString validated created jar))
      = {| rateLimited := false; navigated := Some (lit "/" ++ id);
           cookies := cookies (initSession numberToString validated created jar);
           requests := [validateSessionRequest id] |}).
Proof.
  intros Hjar Hid Hwhy -> Hp.
  assert (Hrun : exists issued,
            initSession numberToString validated (Return response) jar
            = {| rateLimited := false; navigated := Some (lit "/" ++ id);
                 cookies := setSessionCookie id jar;
                 requests := issued ++ [createSessionRequest] |}).
  { destruct (initSession_cases validated (Return response) jar)
      as [(i & Hc & Hv & _) | [(i & m & Hc & Hv & _) | (issued & _ & ->)]].
    - destruct Hwhy as [H | [H _]]; [congruence | contradiction].
    - destruct Hwhy as [H | [_ H]]; [congruence | now apply H in Hv].
    - exists issued. unfold createAndNavigate. now rewrite Hp. }
  destruct Hrun as [issued ->]. cbn [navigated cookies].
  pose proof (CookiesFacts.round_trip_others jar id Hjar Hid) as Hread.
  split; [reflexivity|]. split; [exact Hread|].
  intros Hv'.
  destruct (initSession_cases validated' created' (setSessionCookie id jar))
    as [(i & Hc & _ & ->) | [(i & m & _ & Hr & _) | (issued' & Hwhy' & _)]].
  - rewrite Hread in Hc. now injection Hc as <-.
  - destruct Hv' as (r & v & H & _). congruence.
  - destruct Hwhy' as [[H _] | (i & _ & _ & H & _)]; [congruence | contradiction].
Qed.

End InitFacts.

Lemma created_session_is_remembered_example :
  navigated (initSession refNumberToString (Throw (Error []))
               (Return (JObj [(lit "session_id", JStr exampleId)])) sessionJar)
  = Some (lit "/" ++ exampleId)
  /\ getSessionCookie
       (cookies (initSession refNumberToString (Throw (Error []))
                   (Return (JObj [(lit "session_id", JStr exampleId)]))
                   sessionJar))
     = Some exampleId
  /\ (saysValid (Return validJson) ->
      initSession refNumberToString (Return validJson) (Throw (Error []))
        (cookies (initSession refNumberToString (Throw (Error []))
                    (Return (JObj [(lit "session_id", JStr exampleId)]))
                    sessionJar))
      = {| rateLimited := false; navigated := Some (lit "/" ++ exampleId);
           cookies :=
             cookies (initSession refNumberToString (Throw (Error []))
                        (Return (JObj [(lit "session_id", JStr exampleId)]))
                        sessionJar);
           requests := [validateSessionRequest exampleId] |}).
Proof.
  apply (created_session_is_remembered refNumberToString
           (Throw (Error [])) _ (Return validJson) (Throw (Error []))
           sessionJar (JObj [(lit "session_id", JStr exampleId)]) exampleId).
  - apply CookiesFacts.sessionJar_others.
  - apply CookiesFacts.exampleId_plain.
  - right. split; [intros (r & v & H & _); discriminate H | discriminate].
  - reflexivity.
  - reflexivity.
Defined.

(** X22. A session that [App] validated is the one [initSession] resumes:
    after [validateAndSetSession] found the session of the address valid,
    [initSession] with a validation that says valid navigates to that
    session and creates none. The session id is one that the cookie
    preserves: not empty, without a semicolon, a control character, white
    space at its ends or a surrogate without its pair, and short enough
    for the cookie to take no more than 4096 octets. The other cookies of
    the store are well formed. *)
Theorem validated_session_is_resumed
    (numberToString : Q -> JSString) (nullReadMessage : JSString)
    (sessionId : JSString) (res : Response) (st : App.State) (jar : Jar)
    (validated created : Completion json) :
  othersWellFormed jar -> plainId sessionId ->
  ~ (App.validatedSessionId st = Some sessionId
     /\ App.sessionState st = App.Valid) ->
  App.sessionState
    (fst (fst (App.validateOnResponse numberToString nullReadMessage
                 sessionId res st jar))) = App.Valid ->
  saysValid validated ->
  initSession numberToString validated created
    (snd (fst (App.validateOnResponse numberToString nullReadMessage
                 sessionId res st jar)))
  = {| rateLimited := false; navigated := Some (lit "/" ++ sessionId);
       cookies := setSessionCookie sessionId jar;
       requests := [validateSessionRequest sessionId] |}.
Proof.
  intros Hjar Hid Hnew Hvalid Hv.
  destruct (AppFacts.validateOn_cases numberToString nullReadMessage
              sessionId res st jar Hnew)
    as [(_ & E) | [(_ & _ & E) | (_ & _ & E)]];
    rewrite E in Hvalid |- *; cbn [fst snd] in Hvalid |- *;
    try discriminate Hvalid.
  pose proof (CookiesFacts.round_trip_others jar sessionId Hjar Hid) as Hread.
  destruct (initSession_cases numberToString validated created
              (setSessionCookie sessionId jar))
    as [(i & Hc & _ & ->) | [(i & m & _ & Hr & _) | (issued & Hwhy & _)]].
  - rewrite Hread in Hc. now injection Hc as <-.
  - destruct Hv as (r & v & H & _). congruence.
  - destruct Hwhy as [[H _] | (i & _ & _ & H & _)]; [congruence | contradiction].
Qed.

Lemma validated_session_is_resumed_example :
  initSession refNumberToString (Return validJson) (Throw (Error []))
    (snd (fst (App.validateOnResponse refNumberToString refNullReadMessage
                 exampleId App.validResponse App.initialState sessionJar)))
  = {| rateLimited := false; navigated := Some (lit "/" ++ exampleId);
       cookies := setSessionCookie exampleId sessionJar;
       requests := [validateSessionRequest exampleId] |}.
Proof.
  apply (validated_session_is_resumed refNumberToString refNullReadMessage
           exampleId App.validResponse App.initialState sessionJar).
  - apply CookiesFacts.sessionJar_others.
  - apply CookiesFacts.exampleId_plain.
  - intros [H _]. discriminate H.
  - reflexivity.
  - exists validJson, (JBool true). now repeat split.
Defined.

End SessionRedirectFacts.

(** ** The font assembler *)
Module FontAssemblerFacts.
Import FontAssembler.

Lemma addEntries_spec (entries : list Entry) :
  forall next font font',
    next = length (glyphOrder font) ->
    addEntries next entries font = inr font' ->
    glyphOrder font'
    = glyphOrder font ++ map (fun e => CapturedGlyph (fst e) (snd e)) entries
    /\ (forall i identity bitmap lead,
          entries !! i = Some (identity, bitmap) ->
          head (scalars identity) = Some lead ->
          In (lead, (next + i)%nat) (cmap font'))
    /\ (forall p, In p (cmap font) -> In p (cmap font')).
Proof.
  induction entries as [|[identity bitmap] rest IH]; intros next font font' Hn H.
  - injection H as <-. rewrite app_nil_r. repeat split; [|auto].
    intros i ? ? ? Hi. rewrite lookup_nil in Hi. discriminate Hi.
  - simpl in H. destruct (wellSized bitmap); [|discriminate H].
    apply IH in H; [|simpl; rewrite length_app; simpl; lia].
    destruct H as (Hg & Hc & Hk). cbn [glyphOrder cmap] in Hg, Hk.
    split; [|split].
    + rewrite Hg, <- app_assoc. reflexivity.
    + intros [|i] identity' bitmap' lead Hi Hlead.
      * injection Hi as <- <-. apply Hk. apply in_or_app. right.
        destruct (scalars identity); [discriminate Hlead|].
        injection Hlead as <-. rewrite Nat.add_0_r. now left.
      * replace (next + S i)%nat with (S next + i)%nat by lia.
        now apply (Hc i identity' bitmap').
    + intros p Hp. apply Hk. apply in_or_app. now left.
Qed.

(** C7. In an assembled font the glyph of index 0 is the notdef glyph, and
    the entry at position [i] of the input is the glyph of index [i + 1],
    which is also the index its first scalar value has in the cmap. When the
    input lists the standard glyphs in registry order and then the custom
    glyphs in insertion order, the indices follow that order. *)
Theorem assemble_glyph_indices (entries : list Entry) (font : FontStructure) :
  assemble entries = inr font ->
  glyphOrder font !! 0%nat = Some Notdef
  /\ length (glyphOrder font) = S (length entries)
  /\ (forall i identity bitmap,
        entries !! i = Some (identity, bitmap) ->
        glyphOrder font !! S i = Some (CapturedGlyph identity bitmap)
        /\ forall lead, head (scalars identity) = Some lead ->
                        In (lead, S i) (cmap font))
  /\ (forall standard custom, entries = listSession standard custom ->
        (forall i identity bitmap,
           standard !! i = Some (identity, bitmap) ->
           glyphOrder font !! S i = Some (CapturedGlyph identity bitmap))
        /\ (forall j identity bitmap,
             custom !! j = Some (identity, bitmap) ->
             glyphOrder font !! S (length standard + j)
             = Some (CapturedGlyph identity bitmap))).
Proof.
  intros H. unfold assemble in H.
  destruct entries as [|e rest] eqn:E; [discriminate H|]. rewrite <- E in *.
  apply addEntries_spec in H; [|reflexivity].
  destruct H as (Hg & Hc & _). cbn [glyphOrder] in Hg.
  assert (Hat : forall i identity bitmap,
             entries !! i = Some (identity, bitmap) ->
             glyphOrder font !! S i = Some (CapturedGlyph identity bitmap)).
  { intros i identity bitmap Hi. rewrite Hg. simpl.
    rewrite list_lookup_fmap, Hi. reflexivity. }
  split; [now rewrite Hg|].
  split; [rewrite Hg; simpl; now rewrite length_map|].
  split.
  - intros i identity bitmap Hi. split; [now apply Hat|].
    intros lead Hlead. apply (Hc i identity bitmap lead Hi Hlead).
  - intros standard custom ->. unfold listSession in Hat. split.
    + intros i identity bitmap Hi. apply Hat.
      now apply lookup_app_l_Some.
    + intros j identity bitmap Hj. apply Hat.
      rewrite lookup_app_r by lia.
      now replace (length standard + j - length standard)%nat with j by lia.
Qed.

(** A font of two captures has three glyphs, the first one notdef. *)
Lemma assemble_two_captures :
  match assemble (listSession [grinning] [smiley]) with
  | inr font =>
      glyphOrder font !! 0%nat = Some Notdef /\ length (glyphOrder font) = 3%nat
  | inl _ => False
  end.
Proof.
  destruct (assemble (listSession [grinning] [smiley])) as [err|font] eqn:E.
  - vm_compute in E. discriminate E.
  - destruct (assemble_glyph_indices _ _ E) as (H0 & Hlen & _).
    split; assumption.
Defined.

End FontAssemblerFacts.
